(** * meas_base: the catalog-calculation scheduler and the aperture corrector

    A shallow embedding of

    - [python/lsst/meas/base/catalogCalculation.py]: the plugin scheduler
      ([CCContext], [CatalogCalculationTask.initializePlugins],
      [CatalogCalculationTask.callCompute]);
    - [python/lsst/meas/base/applyApCorr.py]: [ApCorrInfo],
      [ApplyApCorrTask.__init__] and [ApplyApCorrTask.run];
    - [python/lsst/meas/base/forcedPhotCcd.py]:
      [ForcedPhotCcdTask.fetchReferences].

    Python objects that are mutated in place (the catalog, the schema, the
    logger) are threaded explicitly.  Fluxes are binary64 floats, as they are
    in the source table; execution orders are only ever compared, and are
    rationals. *)

From Stdlib Require Import List String Ascii Bool Arith ZArith QArith Lia.
From Stdlib Require Import Sorting.Sorted Sorting.Permutation SetoidList SetoidPermutation.
From Stdlib Require Import Floats DecimalString.
Import ListNotations.

Set Implicit Arguments.

(* ================================================================== *)
(** * Part I: catalogCalculation.py *)
(* ================================================================== *)

Module CatalogCalculation.

(** ** Exceptions *)

(** Exception classes.  The three classes the scheduler names, any other
    root class, and subclassing. *)
Inductive ExcType : Type :=
| MemoryError
| FatalAlgorithmError
| MeasurementError
| Builtin (qualname : string)
| Subclass (qualname : string) (base : ExcType).

(** Identity of classes ([is], and [==] on classes). *)
Fixpoint ExcType_eqb (a b : ExcType) : bool :=
  match a, b with
  | MemoryError, MemoryError => true
  | FatalAlgorithmError, FatalAlgorithmError => true
  | MeasurementError, MeasurementError => true
  | Builtin n, Builtin m => String.eqb n m
  | Subclass n a', Subclass m b' => String.eqb n m && ExcType_eqb a' b'
  | _, _ => false
  end.

(** [issubclass c d]: [c] is [d] or derives from it. *)
Fixpoint issubclass (c d : ExcType) : bool :=
  ExcType_eqb c d ||
  match c with
  | Subclass _ base => issubclass base d
  | _ => false
  end.

(** An exception instance: [exc_type] is [type(exc_value)], [exc_message]
    is [str(exc_value)]. *)
Record Exception : Type := mkException {
  exc_type : ExcType;
  exc_message : string
}.

(** [FATAL_EXCEPTIONS = (MemoryError, FatalAlgorithmError)] *)
Definition FATAL_EXCEPTIONS : list ExcType := [MemoryError; FatalAlgorithmError].

(** [exc_type in FATAL_EXCEPTIONS]: tuple membership compares with [==]. *)
Definition in_FATAL_EXCEPTIONS (t : ExcType) : bool :=
  existsb (ExcType_eqb t) FATAL_EXCEPTIONS.

(** How a call ends: it returns, or it raises; either way the world it
    mutated is what the caller sees next. *)
Inductive Outcome (W : Type) : Type :=
| Returns (w : W)
| Raises (e : Exception) (w : W).

Arguments Returns {W} w.
Arguments Raises {W} e w.

(** What a plugin is handed: the whole catalog, or one of its records
    (records are named by their handle). *)
Inductive Target : Type :=
| WholeCatalog
| OneRecord (measRecord : nat).

(** What the scheduler does that can be seen from outside: it calls
    [plug.calculate(cat)], it calls [plug.fail(cat, error)], it logs a
    warning. *)
Inductive Event : Type :=
| Calculated (plugin : string) (cat : Target)
| Failed (plugin : string) (cat : Target) (error : Exception)
| Warned (message : string).

Definition Target_eq_dec (a b : Target) : {a = b} + {a <> b}.
Proof. decide equality. apply Nat.eq_dec. Defined.

Definition Invocation : Type := (string * Target)%type.

Definition Invocation_eq_dec (a b : Invocation) : {a = b} + {a <> b}.
Proof. decide equality; [apply Target_eq_dec | apply string_dec]. Defined.

(** The [calculate] calls of a trace, in order. *)
Fixpoint invocations (tr : list Event) : list Invocation :=
  match tr with
  | [] => []
  | Calculated p c :: tr' => (p, c) :: invocations tr'
  | _ :: tr' => invocations tr'
  end.

(** ** Sorting, as [sorted] does it: a stable sort *)

Fixpoint insert_sorted (A : Type) (leb : A -> A -> bool) (x : A) (l : list A) : list A :=
  match l with
  | [] => [x]
  | y :: l' => if leb x y then x :: l else y :: insert_sorted leb x l'
  end.

Definition sorted (A : Type) (leb : A -> A -> bool) (l : list A) : list A :=
  fold_right (insert_sorted leb) [] l.

Section Scheduler.

(** [World]: the contents of the catalog and whatever else plugins keep.
    [Config]: a plugin's configuration.  [Schema]: the schema and the
    plugin metadata, both of which plugin constructors may extend. *)
Variable World : Type.
Variable Config : Type.
Variable Schema : Type.

(** [BasePlugin.DEFAULT_CATALOGCALCULATION]: the minimum execution order. *)
Variable DEFAULT_CATALOGCALCULATION : Q.

(** ** Plugins *)

(** A constructed [CatalogCalculationPlugin]. *)
Record Plugin : Type := mkPlugin {
  name : string;
  plugType : string;
  calculate : Target -> World -> Outcome World;
  fail : Target -> Exception -> World -> Outcome World
}.

(** A plugin class: [getExecutionOrder] is a class method, and calling the
    class constructs an instance against the schema. *)
Record PluginClass : Type := mkPluginClass {
  className : string;
  getExecutionOrder : Q;
  construct : Config -> string -> Schema -> Plugin * Schema
}.

(** ** Statements: state, trace and exceptions *)

Definition Exec : Type := World -> list Event * Outcome World.

Definition skip : Exec := fun w => ([], Returns w).

Definition raise (e : Exception) : Exec := fun w => ([], Raises e w).

Definition emit (ev : Event) : Exec := fun w => ([ev], Returns w).

(** A call of a plugin method. *)
Definition call (f : World -> Outcome World) : Exec := fun w => ([], f w).

Definition seq (a b : Exec) : Exec :=
  fun w =>
    match a w with
    | (t1, Returns w1) => let (t2, r) := b w1 in (t1 ++ t2, r)
    | (t1, Raises e w1) => (t1, Raises e w1)
    end.

Notation "a ;; b" := (seq a b) (at level 61, right associativity).

(** [for x in l: body(x)] *)
Fixpoint for_each (A : Type) (l : list A) (body : A -> Exec) : Exec :=
  match l with
  | [] => skip
  | x :: l' => body x ;; for_each l' body
  end.

(** ** CCContext *)

(** [log.warn("Error in {}.calculate: {}".format(plugin.name, exc_value))] *)
Definition warning_message (plugin : Plugin) (exc_value : Exception) : string :=
  ("Error in " ++ name plugin ++ ".calculate: " ++ exc_message exc_value)%string.

(** [CCContext.__exit__(exc_type, exc_value, traceback)]: returning [True]
    swallows the exception of the [with] body; raising from [__exit__]
    propagates. *)
Definition CCContext_exit (plugin : Plugin) (cat : Target)
    (exc : option Exception) : Exec :=
  match exc with
  | None => skip
  | Some exc_value =>
      if in_FATAL_EXCEPTIONS (exc_type exc_value) then
        raise exc_value
      else if ExcType_eqb (exc_type exc_value) MeasurementError then
        emit (Failed (name plugin) cat exc_value) ;;
        call (fail plugin cat exc_value)
      else
        emit (Warned (warning_message plugin exc_value))
  end.

(** [with CCContext(plug, cat, self.log): plug.calculate(cat)] *)
Definition CCContext (plug : Plugin) (cat : Target) : Exec :=
  fun w =>
    match calculate plug cat w with
    | Returns w1 =>
        let (t, r) := CCContext_exit plug cat None w1 in
        (Calculated (name plug) cat :: t, r)
    | Raises e w1 =>
        let (t, r) := CCContext_exit plug cat (Some e) w1 in
        (Calculated (name plug) cat :: t, r)
    end.

(** ** The execution dictionary *)

(** [pluginType = namedtuple('pluginType', 'single multi')] *)
Record pluginType : Type := mkPluginType {
  single : list Plugin;
  multi : list Plugin
}.

(** A [dict] keyed by execution order, in insertion order. *)
Definition ExecutionDict : Type := list (Q * pluginType).

Definition dict_keys (d : ExecutionDict) : list Q := map fst d.

(** [k in d] *)
Definition dict_mem (k : Q) (d : ExecutionDict) : bool :=
  existsb (fun kv => Qeq_bool (fst kv) k) d.

(** [d[k]]; [None] stands for [KeyError]. *)
Fixpoint dict_get (k : Q) (d : ExecutionDict) : option pluginType :=
  match d with
  | [] => None
  | (k', v) :: d' => if Qeq_bool k' k then Some v else dict_get k d'
  end.

(** [d[k] = v] for a key that is not in [d]. *)
Definition dict_add (k : Q) (v : pluginType) (d : ExecutionDict) : ExecutionDict :=
  d ++ [(k, v)].

(** In-place update of the value stored under [k]. *)
Fixpoint dict_update (k : Q) (f : pluginType -> pluginType) (d : ExecutionDict)
    : ExecutionDict :=
  match d with
  | [] => []
  | (k', v) :: d' =>
      if Qeq_bool k' k then (k', f v) :: d' else (k', v) :: dict_update k f d'
  end.

(** [d[k].single.append(plug)] and [d[k].multi.append(plug)] *)
Definition append_single (plug : Plugin) (b : pluginType) : pluginType :=
  {| single := single b ++ [plug]; multi := multi b |}.

Definition append_multi (plug : Plugin) (b : pluginType) : pluginType :=
  {| single := single b; multi := multi b ++ [plug] |}.

(** [PluginMap]: an ordered dict from name to plugin. *)
Fixpoint PluginMap_set (n : string) (p : Plugin) (m : list (string * Plugin))
    : list (string * Plugin) :=
  match m with
  | [] => [(n, p)]
  | (n', p') :: m' =>
      if String.eqb n' n then (n', p) :: m' else (n', p') :: PluginMap_set n p m'
  end.

(** ** CatalogCalculationTask *)

Record CatalogCalculationTask : Type := mkTask {
  schema : Schema;
  plugins : list (string * Plugin);
  executionDict : ExecutionDict
}.

(** One entry of [self.config.plugins.apply()]. *)
Definition PluginTuple : Type := (Q * string * Config * PluginClass)%type.

(** Tuples compare by execution order, then by name (names are the keys of
    the registry, so no two entries tie on both and the configurations are
    never compared). *)
Definition tuple_leb (a b : PluginTuple) : bool :=
  let '(oa, na, _, _) := a in
  let '(ob, nb, _, _) := b in
  if Qeq_bool oa ob then String.leb na nb else Qle_bool oa ob.

Definition tuple_order (t : PluginTuple) : Q :=
  let '(executionOrder, _, _, _) := t in executionOrder.

Definition tuple_name (t : PluginTuple) : string :=
  let '(_, n, _, _) := t in n.

(** The constructor of the tuple's class gives the plugin the name it was
    registered with, as [BasePlugin.__init__(self, config, name)] does. *)
Definition keeps_name (t : PluginTuple) : Prop :=
  let '(_, n, config, PluginClass_) := t in
  forall sch, name (fst (construct PluginClass_ config n sch)) = n.

(** Modelled from the spec: the registry field's [apply()], which is not
    part of these sources.  For each enabled plugin it yields
    (executionOrder, name, config, PluginClass), the execution order
    obtained by calling the class's [getExecutionOrder()]. *)
Definition apply (enabled : list (string * Config * PluginClass)) : list PluginTuple :=
  map (fun e => let '(n, c, P) := e in (getExecutionOrder P, n, c, P)) enabled.

(** The [ValueError] of [initializePlugins], with the tuple its message is
    formatted from. *)
Inductive InitError : Type :=
| ValueError (errorTuple : string * Q * Q).

(** The body of the loop of [initializePlugins]. *)
Definition initialize_one (t : PluginTuple) (self : CatalogCalculationTask)
    : (InitError * CatalogCalculationTask) + CatalogCalculationTask :=
  let '(executionOrder, n, config, PluginClass_) := t in
  let d :=
    if negb (dict_mem executionOrder (executionDict self)) then
      dict_add executionOrder {| single := []; multi := [] |} (executionDict self)
    else executionDict self in
  if Qle_bool DEFAULT_CATALOGCALCULATION (getExecutionOrder PluginClass_) then
    let (plug, schema') := construct PluginClass_ config n (schema self) in
    let plugins' := PluginMap_set n plug (plugins self) in
    let d' :=
      if String.eqb (plugType plug) "single" then
        dict_update executionOrder (append_single plug) d
      else if String.eqb (plugType plug) "multi" then
        dict_update executionOrder (append_multi plug) d
      else d in
    inr {| schema := schema'; plugins := plugins'; executionDict := d' |}
  else
    inl (ValueError (className PluginClass_, getExecutionOrder PluginClass_,
                     DEFAULT_CATALOGCALCULATION),
         {| schema := schema self; plugins := plugins self; executionDict := d |}).

Fixpoint initialize_loop (ts : list PluginTuple) (self : CatalogCalculationTask)
    : (InitError * CatalogCalculationTask) + CatalogCalculationTask :=
  match ts with
  | [] => inr self
  | t :: ts' =>
      match initialize_one t self with
      | inl err => inl err
      | inr self' => initialize_loop ts' self'
      end
  end.

(** [CatalogCalculationTask.__init__] up to and including
    [initializePlugins]: [self.plugins = PluginMap()],
    [self.executionDict = {}], then the loop over the sorted tuples. *)
Definition initializePlugins (tuples : list PluginTuple) (sch : Schema)
    : (InitError * CatalogCalculationTask) + CatalogCalculationTask :=
  initialize_loop (sorted tuple_leb tuples)
    {| schema := sch; plugins := []; executionDict := [] |}.

(** [KeyError], for [self.executionDict[runlevel]]. *)
Definition KeyError : Exception :=
  {| exc_type := Builtin "KeyError"; exc_message := "" |}.

(** [callCompute(self, catalog)] *)
Definition callCompute (self : CatalogCalculationTask) (catalog : list nat) : Exec :=
  for_each (sorted Qle_bool (dict_keys (executionDict self))) (fun runlevel =>
    match dict_get runlevel (executionDict self) with
    | None => raise KeyError
    | Some bucket =>
        for_each (multi bucket) (fun plug => CCContext plug WholeCatalog) ;;
        for_each catalog (fun measRecord =>
          for_each (single bucket) (fun plug =>
            CCContext plug (OneRecord measRecord)))
    end).

(** [run(self, measCat)] *)
Definition run (self : CatalogCalculationTask) (measCat : list nat) : Exec :=
  callCompute self measCat.

(** ** What the run is expected to do *)

(** The invocations a bucket asks for: every catalog plugin on the whole
    catalog, then record by record every record plugin. *)
Definition bucket_schedule (bucket : pluginType) (catalog : list nat)
    : list (Plugin * Target) :=
  map (fun plug => (plug, WholeCatalog)) (multi bucket) ++
  flat_map (fun measRecord =>
              map (fun plug => (plug, OneRecord measRecord)) (single bucket))
           catalog.

(** The buckets taken by ascending execution order. *)
Definition schedule (self : CatalogCalculationTask) (catalog : list nat)
    : list (Plugin * Target) :=
  flat_map (fun runlevel =>
              match dict_get runlevel (executionDict self) with
              | Some bucket => bucket_schedule bucket catalog
              | None => []
              end)
           (sorted Qle_bool (dict_keys (executionDict self))).

Definition guarded (pc : Plugin * Target) : Exec := CCContext (fst pc) (snd pc).

Definition invocation_of (pc : Plugin * Target) : Invocation :=
  (name (fst pc), snd pc).

(** Every plugin of every bucket. *)
Definition all_plugins (d : ExecutionDict) : list Plugin :=
  flat_map (fun kv => multi (snd kv) ++ single (snd kv)) d.

(** [a] is invoked at some point before [b]. *)
Definition occurs_before (a b : Invocation) (l : list Invocation) : Prop :=
  exists l1 l2 l3, l = l1 ++ a :: l2 ++ b :: l3.

(** Two statements that behave alike from every world. *)
Definition exec_eq (a b : Exec) : Prop := forall w, a w = b w.

End Scheduler.

Arguments skip {World}.
Arguments raise {World} e.
Arguments emit {World} ev.
Arguments Exec World : clear implicits.
Arguments PluginTuple World Config Schema : clear implicits.
Arguments ExecutionDict World : clear implicits.

Notation "a ;; b" := (seq a b) (at level 61, right associativity).

(** ** Facts about [sorted] *)

Section SortFacts.

Variable A : Type.
Variable leb : A -> A -> bool.

Lemma insert_sorted_perm (x : A) (l : list A) :
  Permutation (insert_sorted leb x l) (x :: l).
Proof.
  induction l as [|y l IH]; simpl.
  - apply Permutation_refl.
  - destruct (leb x y).
    + apply Permutation_refl.
    + eapply perm_trans; [apply perm_skip, IH | apply perm_swap].
Qed.

Lemma sorted_perm (l : list A) : Permutation (sorted leb l) l.
Proof.
  induction l as [|x l IH]; simpl.
  - apply perm_nil.
  - eapply perm_trans; [apply insert_sorted_perm | apply perm_skip, IH].
Qed.

Lemma sorted_In (l : list A) (x : A) : In x (sorted leb l) <-> In x l.
Proof.
  split; apply Permutation_in; [| apply Permutation_sym]; apply sorted_perm.
Qed.

Hypothesis leb_total : forall a b, leb a b = true \/ leb b a = true.
Hypothesis leb_trans : forall a b c, leb a b = true -> leb b c = true -> leb a c = true.

Let le (a b : A) : Prop := leb a b = true.

Lemma insert_sorted_StronglySorted (x : A) (l : list A) :
  StronglySorted le l -> StronglySorted le (insert_sorted leb x l).
Proof.
  induction 1 as [|y l Hs IH Hall]; simpl.
  - constructor; constructor.
  - destruct (leb x y) eqn:E.
    + constructor.
      * constructor; assumption.
      * constructor; [exact E|].
        eapply Forall_impl; [|exact Hall].
        intros z Hz. eapply leb_trans; eassumption.
    + constructor; [exact IH|].
      assert (Hyx : le y x).
      { destruct (leb_total x y) as [H|H]; [congruence | exact H]. }
      eapply Permutation_Forall.
      * apply Permutation_sym, insert_sorted_perm.
      * constructor; assumption.
Qed.

Lemma sorted_StronglySorted (l : list A) : StronglySorted le (sorted leb l).
Proof.
  induction l as [|x l IH]; simpl.
  - constructor.
  - apply insert_sorted_StronglySorted, IH.
Qed.

End SortFacts.

Lemma Qle_bool_total (a b : Q) : Qle_bool a b = true \/ Qle_bool b a = true.
Proof.
  rewrite !Qle_bool_iff.
  destruct (Qlt_le_dec a b) as [H|H]; [left; apply Qlt_le_weak, H | right; exact H].
Qed.

Lemma Qle_bool_trans (a b c : Q) :
  Qle_bool a b = true -> Qle_bool b c = true -> Qle_bool a c = true.
Proof. rewrite !Qle_bool_iff. apply Qle_trans. Qed.

Lemma sorted_Qle (l : list Q) : StronglySorted Qle (sorted Qle_bool l).
Proof.
  generalize (sorted_StronglySorted Qle_bool Qle_bool_total Qle_bool_trans l).
  apply StronglySorted_ind with (P := fun l => StronglySorted Qle l).
  - constructor.
  - intros a l' _ IH Hall. constructor; [exact IH|].
    eapply Forall_impl; [|exact Hall]. intros z Hz. apply Qle_bool_iff, Hz.
Qed.

(** ** Facts about statements *)

Section ExecFacts.

Variable World : Type.

Implicit Types a b c : Exec World.

Lemma seq_assoc a b c : exec_eq ((a ;; b) ;; c) (a ;; (b ;; c)).
Proof.
  intros w. unfold seq.
  destruct (a w) as [t1 [w1|e w1]]; [|reflexivity].
  destruct (b w1) as [t2 [w2|e w2]]; [|reflexivity].
  destruct (c w2) as [t3 r3]. rewrite app_assoc. reflexivity.
Qed.

Lemma seq_skip_l a : exec_eq (skip ;; a) a.
Proof. intros w. unfold seq, skip. destruct (a w). reflexivity. Qed.

Lemma seq_skip_r a : exec_eq (a ;; skip) a.
Proof.
  intros w. unfold seq, skip.
  destruct (a w) as [t1 [w1|e w1]]; [rewrite app_nil_r|]; reflexivity.
Qed.

Lemma seq_ext a a' b b' :
  exec_eq a a' -> exec_eq b b' -> exec_eq (a ;; b) (a' ;; b').
Proof.
  intros Ha Hb w. unfold seq. rewrite Ha.
  destruct (a' w) as [t1 [w1|e w1]]; [rewrite Hb|]; reflexivity.
Qed.

Lemma exec_eq_refl a : exec_eq a a.
Proof. intros w. reflexivity. Qed.

Lemma exec_eq_sym a b : exec_eq a b -> exec_eq b a.
Proof. intros H w. symmetry. apply H. Qed.

Lemma exec_eq_trans a b c : exec_eq a b -> exec_eq b c -> exec_eq a c.
Proof. intros H1 H2 w. rewrite H1. apply H2. Qed.

Lemma for_each_ext_in (A : Type) (l : list A) (f g : A -> Exec World) :
  (forall x, In x l -> exec_eq (f x) (g x)) ->
  exec_eq (for_each l f) (for_each l g).
Proof.
  induction l as [|x l IH]; intros H; simpl.
  - apply exec_eq_refl.
  - apply seq_ext; [apply H; left; reflexivity |].
    apply IH. intros y Hy. apply H. right. exact Hy.
Qed.

Lemma for_each_app (A : Type) (l1 l2 : list A) (f : A -> Exec World) :
  exec_eq (for_each (l1 ++ l2) f) (for_each l1 f ;; for_each l2 f).
Proof.
  induction l1 as [|x l1 IH]; simpl.
  - apply exec_eq_sym, seq_skip_l.
  - eapply exec_eq_trans; [| apply exec_eq_sym, seq_assoc].
    apply seq_ext; [apply exec_eq_refl | exact IH].
Qed.

Lemma for_each_map (A B : Type) (h : A -> B) (l : list A) (f : B -> Exec World) :
  exec_eq (for_each (map h l) f) (for_each l (fun x => f (h x))).
Proof.
  induction l as [|x l IH]; simpl.
  - apply exec_eq_refl.
  - apply seq_ext; [apply exec_eq_refl | exact IH].
Qed.

Lemma for_each_flat_map (A B : Type) (h : A -> list B) (l : list A)
    (f : B -> Exec World) :
  exec_eq (for_each l (fun x => for_each (h x) f)) (for_each (flat_map h l) f).
Proof.
  induction l as [|x l IH]; simpl.
  - apply exec_eq_refl.
  - eapply exec_eq_trans; [| apply exec_eq_sym, for_each_app].
    apply seq_ext; [apply exec_eq_refl | exact IH].
Qed.

(** Running a list of statements that has been cut in two. *)
Lemma for_each_cut (A : Type) (l1 l2 : list A) (f : A -> Exec World) (w : World) :
  for_each (l1 ++ l2) f w =
  match for_each l1 f w with
  | (t1, Returns w1) => (t1 ++ fst (for_each l2 f w1), snd (for_each l2 f w1))
  | (t1, Raises e w1) => (t1, Raises e w1)
  end.
Proof.
  rewrite for_each_app. unfold seq.
  destruct (for_each l1 f w) as [t1 [w1|e w1]]; [|reflexivity].
  destruct (for_each l2 f w1). reflexivity.
Qed.

End ExecFacts.

(** ** Facts about the scheduler *)

Section SchedulerFacts.

Variable World : Type.
Variable Config : Type.
Variable Schema : Type.
Variable DEFAULT_CATALOGCALCULATION : Q.

Implicit Types plug : Plugin World.
Implicit Types d : ExecutionDict World.
Implicit Types self : CatalogCalculationTask World Schema.

(** *** The dictionary *)

Lemma dict_get_key d (k : Q) :
  In k (dict_keys d) -> dict_get k d <> None.
Proof.
  induction d as [|[k' v] d IH]; simpl; [tauto|].
  intros [->|H].
  - rewrite Qeq_bool_refl. discriminate.
  - destruct (Qeq_bool k' k); [discriminate | apply IH, H].
Qed.

(** With keys that are pairwise different, reading the dictionary at its
    own keys gives its values back in order. *)
Lemma dict_get_keys d :
  NoDupA Qeq (dict_keys d) ->
  map (fun k => dict_get k d) (dict_keys d) = map (fun kv => Some (snd kv)) d.
Proof.
  induction d as [|[k v] d IH]; simpl; [reflexivity|].
  intros Hnd. inversion Hnd as [|? ? Hnotin Hnd']; subst.
  rewrite Qeq_bool_refl. f_equal.
  rewrite <- (IH Hnd').
  apply map_ext_in. intros k' Hk'.
  destruct (Qeq_bool k k') eqn:E; [|reflexivity].
  exfalso. apply Hnotin. apply InA_alt. exists k'. split; [|exact Hk'].
  apply Qeq_bool_iff, E.
Qed.

(** *** The run is the schedule, executed in order *)

Lemma bucket_schedule_exec (bucket : pluginType World) (catalog : list nat) :
  exec_eq
    (for_each (multi bucket) (fun plug => CCContext plug WholeCatalog) ;;
     for_each catalog (fun measRecord =>
       for_each (single bucket) (fun plug => CCContext plug (OneRecord measRecord))))
    (for_each (bucket_schedule bucket catalog) (@guarded World)).
Proof.
  unfold bucket_schedule.
  eapply exec_eq_trans; [| apply exec_eq_sym, for_each_app].
  apply seq_ext.
  - apply exec_eq_sym. apply (for_each_map (fun plug => (plug, WholeCatalog))).
  - eapply exec_eq_trans;
      [| apply (for_each_flat_map
                  (fun measRecord =>
                     map (fun plug => (plug, OneRecord measRecord)) (single bucket)))].
    apply for_each_ext_in. intros r _.
    apply exec_eq_sym. apply (for_each_map (fun plug => (plug, OneRecord r))).
Qed.

Lemma callCompute_schedule self (catalog : list nat) :
  exec_eq (callCompute self catalog) (for_each (schedule self catalog) (@guarded World)).
Proof.
  unfold callCompute, schedule.
  eapply exec_eq_trans; [| apply for_each_flat_map].
  apply for_each_ext_in. intros k Hk.
  apply sorted_In in Hk. apply dict_get_key in Hk.
  destruct (dict_get k (executionDict self)) as [b|]; [|congruence].
  apply bucket_schedule_exec.
Qed.

(** *** One guarded invocation *)

Lemma invocations_app (t1 t2 : list Event) :
  invocations (t1 ++ t2) = invocations t1 ++ invocations t2.
Proof.
  induction t1 as [|[p c|p c e|m] t1 IH]; simpl; rewrite ?IH; reflexivity.
Qed.

Lemma CCContext_exit_invocations plug (cat : Target) (exc : option Exception)
    (w : World) :
  invocations (fst (CCContext_exit plug cat exc w)) = [].
Proof.
  unfold CCContext_exit. destruct exc as [e|]; [|reflexivity].
  destruct (in_FATAL_EXCEPTIONS (exc_type e)); [reflexivity|].
  destruct (ExcType_eqb (exc_type e) MeasurementError); [|reflexivity].
  unfold seq, emit, call. reflexivity.
Qed.

Lemma guarded_invocations (pc : Plugin World * Target) (w : World) :
  invocations (fst (guarded pc w)) = [invocation_of pc].
Proof.
  unfold guarded, CCContext, invocation_of.
  destruct (calculate (fst pc) (snd pc) w) as [w1|e w1].
  - generalize (CCContext_exit_invocations (fst pc) (snd pc) None w1).
    destruct (CCContext_exit (fst pc) (snd pc) None w1) as [t r]. simpl.
    intros ->. reflexivity.
  - generalize (CCContext_exit_invocations (fst pc) (snd pc) (Some e) w1).
    destruct (CCContext_exit (fst pc) (snd pc) (Some e) w1) as [t r]. simpl.
    intros ->. reflexivity.
Qed.

Lemma guarded_first_event (pc : Plugin World * Target) (w : World) :
  exists t, fst (guarded pc w) = Calculated (name (fst pc)) (snd pc) :: t.
Proof.
  unfold guarded, CCContext.
  destruct (calculate (fst pc) (snd pc) w) as [w1|e w1].
  - destruct (CCContext_exit (fst pc) (snd pc) None w1) as [t r]. exists t. reflexivity.
  - destruct (CCContext_exit (fst pc) (snd pc) (Some e) w1) as [t r]. exists t. reflexivity.
Qed.

(** A run that returns has made every invocation of its list, in order. *)
Lemma for_each_guarded_Returns (l : list (Plugin World * Target)) (w w' : World)
    (tr : list Event) :
  for_each l (@guarded World) w = (tr, Returns w') ->
  invocations tr = map (@invocation_of World) l.
Proof.
  revert w tr. induction l as [|pc l IH]; intros w tr; simpl.
  - unfold skip. intros [= <- _]. reflexivity.
  - unfold seq. generalize (guarded_invocations pc w).
    destruct (guarded pc w) as [t1 [w1|e w1]]; simpl; intros Ht1; [|discriminate].
    destruct (for_each l (@guarded World) w1) as [t2 r] eqn:E.
    intros [= <- ->]. rewrite invocations_app, Ht1. simpl. f_equal.
    eapply IH. exact E.
Qed.

(** A run that raises has made the invocations of a prefix of its list, and
    nothing else. *)
Lemma for_each_guarded_Raises (l : list (Plugin World * Target)) (w w' : World)
    (tr : list Event) (e : Exception) :
  for_each l (@guarded World) w = (tr, Raises e w') ->
  exists pre pc post,
    l = pre ++ pc :: post /\
    invocations tr = map (@invocation_of World) (pre ++ [pc]).
Proof.
  revert w tr. induction l as [|pc l IH]; intros w tr; simpl.
  - unfold skip. discriminate.
  - unfold seq. generalize (guarded_invocations pc w).
    destruct (guarded pc w) as [t1 [w1|e1 w1]]; simpl; intros Ht1.
    + destruct (for_each l (@guarded World) w1) as [t2 r] eqn:E.
      intros [= <- ->].
      destruct (IH _ _ E) as (pre & pc' & post & -> & Hinv).
      exists (pc :: pre), pc', post. split; [reflexivity|].
      rewrite invocations_app, Ht1, Hinv. reflexivity.
    + intros [= <- <- <-]. exists [], pc, l. split; [reflexivity|]. exact Ht1.
Qed.

(** *** Classification of exceptions *)

Lemma ExcType_eqb_eq (a b : ExcType) : ExcType_eqb a b = true <-> a = b.
Proof.
  revert b. induction a as [| | |n|n a IH]; intros [| | |m|m b]; simpl;
    try (split; [discriminate | congruence]); try tauto.
  - rewrite String.eqb_eq. split; congruence.
  - rewrite andb_true_iff, String.eqb_eq, IH. split.
    + intros [-> ->]. reflexivity.
    + intros [= -> ->]. split; reflexivity.
Qed.

Lemma in_FATAL_EXCEPTIONS_iff (t : ExcType) :
  in_FATAL_EXCEPTIONS t = true <-> t = MemoryError \/ t = FatalAlgorithmError.
Proof.
  unfold in_FATAL_EXCEPTIONS, FATAL_EXCEPTIONS. simpl.
  rewrite orb_false_r, orb_true_iff, !ExcType_eqb_eq. reflexivity.
Qed.

Lemma strict_subclass_shape (c X : ExcType) :
  issubclass c X = true -> c <> X -> exists n base, c = Subclass n base.
Proof.
  intros Hsub Hne. destruct c as [| | |n|n base]; cbn [issubclass] in Hsub;
    try (rewrite orb_false_r in Hsub; apply ExcType_eqb_eq in Hsub; congruence).
  exists n, base. reflexivity.
Qed.

(** C10.  [__exit__] tests the class of the exception for identity, not for
    subclassing: an exception whose class is a strict subclass of
    [MemoryError], [FatalAlgorithmError] or [MeasurementError] is neither
    re-raised nor handed to [fail]; it is logged as a warning and swallowed. *)
Theorem exit_matches_exact_types plug (cat : Target) (e : Exception)
    (X : ExcType) (w : World) :
  In X [MemoryError; FatalAlgorithmError; MeasurementError] ->
  issubclass (exc_type e) X = true ->
  exc_type e <> X ->
  CCContext_exit plug cat (Some e) w =
    ([Warned (warning_message plug e)], Returns w) /\
  (forall w0, calculate plug cat w0 = Raises e w ->
     CCContext plug cat w0 =
       ([Calculated (name plug) cat; Warned (warning_message plug e)], Returns w)).
Proof.
  intros _ Hsub Hne.
  destruct (strict_subclass_shape Hsub Hne) as (n & base & Hc).
  assert (Hexit : CCContext_exit plug cat (Some e) w =
                  ([Warned (warning_message plug e)], Returns w)).
  { unfold CCContext_exit. rewrite Hc. reflexivity. }
  split; [exact Hexit|].
  intros w0 Hcalc. unfold CCContext. rewrite Hcalc, Hexit. reflexivity.
Qed.

(** *** The three policies *)

Lemma callCompute_cut self (catalog : list nat)
    (pre post : list (Plugin World * Target)) (pc : Plugin World * Target)
    (w0 w1 : World) (tr1 : list Event) :
  schedule self catalog = pre ++ pc :: post ->
  for_each pre (@guarded World) w0 = (tr1, Returns w1) ->
  callCompute self catalog w0 =
  match guarded pc w1 with
  | (t, Returns w2) =>
      (tr1 ++ t ++ fst (for_each post (@guarded World) w2),
       snd (for_each post (@guarded World) w2))
  | (t, Raises e w2) => (tr1 ++ t, Raises e w2)
  end.
Proof.
  intros Hs Hpre. rewrite callCompute_schedule, Hs, for_each_cut, Hpre.
  simpl. unfold seq.
  destruct (guarded pc w1) as [t [w2|e w2]]; simpl; [|reflexivity].
  destruct (for_each post (@guarded World) w2). reflexivity.
Qed.

(** C1, as the code has it.  Take any invocation of the schedule that the
    run reaches.  If [calculate] returns, the run goes on with the rest of
    the schedule.  If it raises [MemoryError] or [FatalAlgorithmError], the
    run ends there, raising that exception: nothing further is invoked.  If
    it raises [MeasurementError], the plugin's [fail] is called with the same
    record or catalog and the exception; the run goes on with the rest of
    the schedule when [fail] returns, and ends, raising what [fail] raised,
    when [fail] itself raises.  Any other exception is logged as a warning
    that names the plugin and the message, and the run goes on.  Going on
    means that the next invocation of the schedule is made. *)
Theorem guarded_invocation_policy self (catalog : list nat)
    (pre post : list (Plugin World * Target)) plug (cat : Target)
    (w0 w1 : World) (tr1 : list Event) :
  schedule self catalog = pre ++ (plug, cat) :: post ->
  for_each pre (@guarded World) w0 = (tr1, Returns w1) ->
  let goes_on (t : list Event) (w : World) :=
    (tr1 ++ Calculated (name plug) cat :: t ++ fst (for_each post (@guarded World) w),
     snd (for_each post (@guarded World) w)) in
  (forall w2, calculate plug cat w1 = Returns w2 ->
     callCompute self catalog w0 = goes_on [] w2) /\
  (forall e w2, calculate plug cat w1 = Raises e w2 ->
     (exc_type e = MemoryError \/ exc_type e = FatalAlgorithmError ->
        callCompute self catalog w0 =
          (tr1 ++ [Calculated (name plug) cat], Raises e w2)) /\
     (exc_type e = MeasurementError ->
        (forall w3, fail plug cat e w2 = Returns w3 ->
           callCompute self catalog w0 = goes_on [Failed (name plug) cat e] w3) /\
        (forall e' w3, fail plug cat e w2 = Raises e' w3 ->
           callCompute self catalog w0 =
             (tr1 ++ [Calculated (name plug) cat; Failed (name plug) cat e],
              Raises e' w3))) /\
     (~ In (exc_type e) [MemoryError; FatalAlgorithmError; MeasurementError] ->
        callCompute self catalog w0 =
          goes_on [Warned (warning_message plug e)] w2)) /\
  (forall nxt post', post = nxt :: post' ->
     forall w, exists t,
       fst (for_each post (@guarded World) w) =
         Calculated (name (fst nxt)) (snd nxt) :: t).
Proof.
  intros Hs Hpre goes_on.
  pose proof (callCompute_cut self catalog pre post (plug, cat) w0 Hs Hpre) as Hcut.
  unfold guarded at 1 in Hcut. unfold CCContext in Hcut. simpl fst in Hcut.
  simpl snd in Hcut.
  split; [|split].
  - intros w2 Hc. rewrite Hcut, Hc. reflexivity.
  - intros e w2 Hc. rewrite Hc in Hcut. unfold CCContext_exit in Hcut.
    split; [|split].
    + intros Hfatal. apply in_FATAL_EXCEPTIONS_iff in Hfatal.
      rewrite Hfatal in Hcut. exact Hcut.
    + intros Hme.
      assert (Hnf : in_FATAL_EXCEPTIONS (exc_type e) = false).
      { rewrite Hme. reflexivity. }
      rewrite Hnf, Hme in Hcut. unfold seq, emit, call in Hcut. cbn in Hcut.
      split.
      * intros w3 Hf. rewrite Hf in Hcut. exact Hcut.
      * intros e' w3 Hf. rewrite Hf in Hcut. exact Hcut.
    + intros Hother.
      assert (Hnf : in_FATAL_EXCEPTIONS (exc_type e) = false).
      { destruct (in_FATAL_EXCEPTIONS (exc_type e)) eqn:E; [|reflexivity].
        apply in_FATAL_EXCEPTIONS_iff in E. exfalso. apply Hother.
        destruct E as [E|E]; rewrite E; simpl; tauto. }
      assert (Hnm : ExcType_eqb (exc_type e) MeasurementError = false).
      { destruct (ExcType_eqb (exc_type e) MeasurementError) eqn:E; [|reflexivity].
        apply ExcType_eqb_eq in E. exfalso. apply Hother. rewrite E. simpl. tauto. }
      rewrite Hnf, Hnm in Hcut. exact Hcut.
  - intros nxt post' -> w. simpl. unfold seq.
    destruct (guarded_first_event nxt w) as [t Ht].
    destruct (guarded nxt w) as [t1 [w2|e w2]]; simpl in Ht; subst t1.
    + destruct (for_each post' (@guarded World) w2) as [t2 r]. simpl.
      exists (t ++ t2). reflexivity.
    + exists t. reflexivity.
Qed.

(** *** The order of invocations *)

Lemma NoDup_app_inv (A : Type) (l1 l2 : list A) :
  NoDup (l1 ++ l2) ->
  NoDup l1 /\ NoDup l2 /\ (forall a, In a l1 -> ~ In a l2).
Proof.
  induction l1 as [|x l1 IH]; simpl; intros H.
  - split; [constructor | split; [exact H | tauto]].
  - inversion H as [|? ? Hx Hnd]; subst.
    destruct (IH Hnd) as (H1 & H2 & H3).
    split; [|split; [exact H2|]].
    + constructor; [|exact H1]. intros Hin. apply Hx, in_or_app. left. exact Hin.
    + intros a [<-|Ha] Hin.
      * apply Hx, in_or_app. right. exact Hin.
      * exact (H3 a Ha Hin).
Qed.

Lemma sorted_Qlt (l : list Q) :
  NoDupA Qeq l -> StronglySorted Qlt (sorted Qle_bool l).
Proof.
  intros Hnd.
  assert (Hnd' : NoDupA Qeq (sorted Qle_bool l)).
  { eapply PermutationA_preserves_NoDupA; [apply Q_Setoid | | exact Hnd].
    apply Permutation_PermutationA; [apply Q_Setoid |].
    apply Permutation_sym, sorted_perm. }
  generalize (sorted_Qle l) Hnd'. generalize (sorted Qle_bool l). clear.
  induction 1 as [|a l Hs IH Hall]; intros Hnd; constructor.
  - apply IH. inversion Hnd; assumption.
  - inversion Hnd as [|? ? Hnotin _]; subst.
    rewrite Forall_forall in *. intros x Hx.
    destruct (Qle_lt_or_eq a x (Hall x Hx)) as [Hlt|Heq]; [exact Hlt|].
    exfalso. apply Hnotin, InA_alt. exists x. split; assumption.
Qed.

Lemma flat_map_dict_keys d (B : Type) (h : pluginType World -> list B) :
  NoDupA Qeq (dict_keys d) ->
  flat_map (fun k => match dict_get k d with Some b => h b | None => [] end)
           (dict_keys d) =
  flat_map (fun kv => h (snd kv)) d.
Proof.
  intros Hnd. rewrite !flat_map_concat_map. f_equal.
  rewrite <- (map_map (fun k => dict_get k d)
                      (fun o => match o with Some b => h b | None => [] end)).
  rewrite (dict_get_keys d Hnd), map_map. reflexivity.
Qed.

Lemma schedule_perm self (catalog : list nat) :
  NoDupA Qeq (dict_keys (executionDict self)) ->
  Permutation (schedule self catalog)
    (flat_map (fun kv => bucket_schedule (snd kv) catalog) (executionDict self)).
Proof.
  intros Hnd. unfold schedule.
  rewrite <- (@flat_map_dict_keys (executionDict self) _
                (fun b => bucket_schedule b catalog) Hnd).
  apply Permutation_flat_map, sorted_perm.
Qed.

Lemma In_invocations_of_target (l : list (Plugin World)) (t : Target) (i : Invocation) :
  In i (map (@invocation_of World) (map (fun plug => (plug, t)) l)) <->
  exists p, In p l /\ i = (name p, t).
Proof.
  rewrite map_map, in_map_iff. unfold invocation_of. simpl.
  split; intros (p & H1 & H2); exists p; [split|split]; auto.
Qed.

Lemma In_invocations_of_records (l : list (Plugin World)) (c : list nat)
    (i : Invocation) :
  In i (map (@invocation_of World)
          (flat_map (fun r => map (fun plug => (plug, OneRecord r)) l) c)) <->
  exists r p, In r c /\ In p l /\ i = (name p, OneRecord r).
Proof.
  rewrite in_map_iff. split.
  - intros (pc & <- & Hpc). apply in_flat_map in Hpc as (r & Hr & Hpc).
    apply in_map_iff in Hpc as (p & <- & Hp). exists r, p. auto.
  - intros (r & p & Hr & Hp & ->). exists (p, OneRecord r). split; [reflexivity|].
    apply in_flat_map. exists r. split; [exact Hr|].
    apply in_map_iff. exists p. auto.
Qed.

Lemma In_bucket_invocations (b : pluginType World) (c : list nat) (i : Invocation) :
  In i (map (@invocation_of World) (bucket_schedule b c)) <->
  (exists p, In p (multi b) /\ i = (name p, WholeCatalog)) \/
  (exists r p, In r c /\ In p (single b) /\ i = (name p, OneRecord r)).
Proof.
  unfold bucket_schedule.
  rewrite map_app, in_app_iff, In_invocations_of_target, In_invocations_of_records.
  reflexivity.
Qed.

Lemma NoDup_invocations_of_target (l : list (Plugin World)) (t : Target) :
  NoDup (map (@name World) l) ->
  NoDup (map (@invocation_of World) (map (fun plug => (plug, t)) l)).
Proof.
  induction l as [|p l IH]; simpl; intros H; [constructor|].
  inversion H as [|? ? Hp Hl]; subst. constructor; [|apply IH, Hl].
  intros Hin. apply In_invocations_of_target in Hin as (q & Hq & Heq).
  unfold invocation_of in Heq. simpl in Heq. injection Heq as Heq.
  apply Hp. rewrite Heq. apply in_map, Hq.
Qed.

Lemma NoDup_invocations_of_records (l : list (Plugin World)) (c : list nat) :
  NoDup (map (@name World) l) -> NoDup c ->
  NoDup (map (@invocation_of World)
           (flat_map (fun r => map (fun plug => (plug, OneRecord r)) l) c)).
Proof.
  intros Hl. induction c as [|r c IH]; simpl; intros Hc; [constructor|].
  inversion Hc as [|? ? Hr Hc']; subst.
  rewrite map_app. apply NoDup_app.
  - apply NoDup_invocations_of_target, Hl.
  - apply IH, Hc'.
  - intros i Hi Hi'.
    apply In_invocations_of_target in Hi as (p & _ & ->).
    apply In_invocations_of_records in Hi' as (r' & p' & Hr' & _ & Heq).
    injection Heq as _ Heq. subst r'. exact (Hr Hr').
Qed.

Lemma NoDup_bucket_invocations (b : pluginType World) (c : list nat) :
  NoDup (map (@name World) (multi b ++ single b)) -> NoDup c ->
  NoDup (map (@invocation_of World) (bucket_schedule b c)).
Proof.
  rewrite map_app. intros H Hc.
  destruct (NoDup_app_inv _ _ H) as (Hm & Hs & _).
  unfold bucket_schedule. rewrite map_app. apply NoDup_app.
  - apply NoDup_invocations_of_target, Hm.
  - apply NoDup_invocations_of_records; assumption.
  - intros i Hi Hi'.
    apply In_invocations_of_target in Hi as (p & _ & ->).
    apply In_invocations_of_records in Hi' as (r' & p' & _ & _ & Heq).
    discriminate.
Qed.

Lemma bucket_invocation_name (b : pluginType World) (c : list nat) (i : Invocation) :
  In i (map (@invocation_of World) (bucket_schedule b c)) ->
  In (fst i) (map (@name World) (multi b ++ single b)).
Proof.
  rewrite In_bucket_invocations, map_app, in_app_iff.
  intros [(p & Hp & ->)|(r & p & _ & Hp & ->)]; simpl;
    [left | right]; apply in_map, Hp.
Qed.

Lemma dict_invocation_name d (c : list nat) (i : Invocation) :
  In i (map (@invocation_of World)
          (flat_map (fun kv => bucket_schedule (snd kv) c) d)) ->
  In (fst i) (map (@name World) (all_plugins d)).
Proof.
  induction d as [|kv d IH]; simpl; [tauto|].
  rewrite !map_app, !in_app_iff. intros [H|H].
  - apply bucket_invocation_name in H. rewrite map_app, in_app_iff in H. tauto.
  - right. apply IH, H.
Qed.

Lemma NoDup_dict_invocations d (c : list nat) :
  NoDup (map (@name World) (all_plugins d)) -> NoDup c ->
  NoDup (map (@invocation_of World)
           (flat_map (fun kv => bucket_schedule (snd kv) c) d)).
Proof.
  intros Hd Hc. induction d as [|kv d IH]; simpl; [constructor|].
  simpl in Hd. rewrite map_app in Hd.
  destruct (NoDup_app_inv _ _ Hd) as (Hb & Hrest & Hdisj).
  rewrite map_app. apply NoDup_app.
  - apply NoDup_bucket_invocations; assumption.
  - apply IH, Hrest.
  - intros i Hi Hi'. apply bucket_invocation_name in Hi.
    apply dict_invocation_name in Hi'. exact (Hdisj _ Hi Hi').
Qed.

Lemma NoDup_schedule self (catalog : list nat) :
  NoDupA Qeq (dict_keys (executionDict self)) ->
  NoDup (map (@name World) (all_plugins (executionDict self))) ->
  NoDup catalog ->
  NoDup (map (@invocation_of World) (schedule self catalog)).
Proof.
  intros Hk Hn Hc.
  eapply Permutation_NoDup.
  - apply Permutation_map, Permutation_sym, schedule_perm, Hk.
  - apply NoDup_dict_invocations; assumption.
Qed.

Lemma schedule_at_level self (catalog : list nat) (runlevel : Q)
    (bucket : pluginType World) :
  In runlevel (dict_keys (executionDict self)) ->
  dict_get runlevel (executionDict self) = Some bucket ->
  exists before after,
    schedule self catalog = before ++ bucket_schedule bucket catalog ++ after.
Proof.
  intros Hin Hget. unfold schedule.
  apply (sorted_In Qle_bool) in Hin. apply in_split in Hin as (l1 & l2 & ->).
  rewrite flat_map_app. simpl. rewrite Hget. eauto.
Qed.

(** A run that raises has made the invocations of the schedule up to the
    one that raised, and no other. *)
Lemma callCompute_Raises self (catalog : list nat) (w w' : World)
    (tr : list Event) (e : Exception) :
  callCompute self catalog w = (tr, Raises e w') ->
  exists pre pc post,
    schedule self catalog = pre ++ pc :: post /\
    invocations tr = map (@invocation_of World) (pre ++ [pc]).
Proof.
  intros H. rewrite callCompute_schedule in H.
  exact (@for_each_guarded_Raises (schedule self catalog) w w' tr e H).
Qed.

(** C2, as the code has it.  In a run of [callCompute] that returns (no
    exception propagates out of it), the [calculate] calls made are exactly
    those of the schedule, in its order: the buckets by strictly ascending
    execution order and, in each bucket, every catalog plugin on the whole
    catalog and then, record by record, every record plugin.  So each catalog
    plugin of a bucket is invoked exactly once, each record plugin exactly
    once for each record, and the former before the latter. *)
Theorem callCompute_invocation_order self (catalog : list nat) (w w' : World)
    (tr : list Event) :
  NoDupA Qeq (dict_keys (executionDict self)) ->
  NoDup (map (@name World) (all_plugins (executionDict self))) ->
  NoDup catalog ->
  callCompute self catalog w = (tr, Returns w') ->
  let levels := sorted Qle_bool (dict_keys (executionDict self)) in
  StronglySorted Qlt levels /\
  Permutation levels (dict_keys (executionDict self)) /\
  invocations tr = map (@invocation_of World) (schedule self catalog) /\
  forall runlevel bucket,
    In runlevel (dict_keys (executionDict self)) ->
    dict_get runlevel (executionDict self) = Some bucket ->
    (forall p, In p (multi bucket) ->
       count_occ Invocation_eq_dec (invocations tr) (name p, WholeCatalog) = 1%nat) /\
    (forall p r, In p (single bucket) -> In r catalog ->
       count_occ Invocation_eq_dec (invocations tr) (name p, OneRecord r) = 1%nat) /\
    (forall p q r, In p (multi bucket) -> In q (single bucket) -> In r catalog ->
       occurs_before (name p, WholeCatalog) (name q, OneRecord r) (invocations tr)).
Proof.
  intros Hk Hn Hc Hrun levels.
  rewrite callCompute_schedule in Hrun.
  apply for_each_guarded_Returns in Hrun.
  split; [apply sorted_Qlt, Hk|].
  split; [apply sorted_perm|].
  split; [exact Hrun|].
  intros runlevel bucket Hin Hget.
  pose proof (NoDup_schedule self Hk Hn Hc) as Hnd.
  rewrite <- Hrun in Hnd.
  destruct (@schedule_at_level self catalog runlevel bucket Hin Hget)
    as (before & after & Hs).
  assert (Hb : forall i, In i (map (@invocation_of World) (bucket_schedule bucket catalog)) ->
                    In i (invocations tr)).
  { intros i Hi. rewrite Hrun, Hs, !map_app, !in_app_iff. tauto. }
  split; [|split].
  - intros p Hp. apply NoDup_count_occ'; [exact Hnd|].
    apply Hb, In_bucket_invocations. left. exists p. auto.
  - intros p r Hp Hr. apply NoDup_count_occ'; [exact Hnd|].
    apply Hb, In_bucket_invocations. right. exists r, p. auto.
  - intros p q r Hp Hq Hr.
    assert (H1 : In (name p, WholeCatalog)
                   (map (@invocation_of World)
                      (map (fun plug => (plug, WholeCatalog)) (multi bucket)))).
    { apply In_invocations_of_target. exists p. auto. }
    assert (H2 : In (name q, OneRecord r)
                   (map (@invocation_of World)
                      (flat_map (fun r => map (fun plug => (plug, OneRecord r))
                                              (single bucket)) catalog))).
    { apply In_invocations_of_records. exists r, q. auto. }
    apply in_split in H1 as (m1 & m2 & H1).
    apply in_split in H2 as (s1 & s2 & H2).
    exists (map (@invocation_of World) before ++ m1), (m2 ++ s1),
           (s2 ++ map (@invocation_of World) after).
    rewrite Hrun, Hs. unfold bucket_schedule.
    rewrite !map_app, H1, H2, <- !app_assoc. simpl.
    rewrite <- ?app_assoc. reflexivity.
Qed.

(** *** Construction *)

Lemma tuple_leb_order (a b : PluginTuple World Config Schema) :
  tuple_leb a b = true -> tuple_order a <= tuple_order b.
Proof.
  destruct a as [[[oa na] ca] Pa], b as [[[ob nb] cb] Pb]. simpl.
  destruct (Qeq_bool oa ob) eqn:E.
  - intros _. apply Qeq_bool_iff in E. rewrite E. apply Qle_refl.
  - apply Qle_bool_iff.
Qed.

Lemma tuple_leb_false_order (a b : PluginTuple World Config Schema) :
  tuple_leb a b = false -> tuple_order b <= tuple_order a.
Proof.
  destruct a as [[[oa na] ca] Pa], b as [[[ob nb] cb] Pb]. simpl.
  destruct (Qeq_bool oa ob) eqn:E.
  - intros _. apply Qeq_bool_iff in E. rewrite E. apply Qle_refl.
  - intros H. apply Qlt_le_weak, Qnot_le_lt. intros Hle.
    apply Qle_bool_iff in Hle. congruence.
Qed.

(** The first tuple that [initializePlugins] visits has the least
    execution order of all. *)
Lemma sorted_head_least (l : list (PluginTuple World Config Schema)) h t :
  sorted (@tuple_leb World Config Schema) l = h :: t ->
  forall x, In x l -> tuple_order h <= tuple_order x.
Proof.
  revert h t. induction l as [|a l IH]; simpl; [discriminate|].
  intros h t. destruct (sorted (@tuple_leb World Config Schema) l) as [|h' t'] eqn:E.
  - assert (l = []) as ->.
    { apply Permutation_nil. rewrite <- E. apply sorted_perm. }
    simpl. intros [= <- <-] x [<-|[]]. apply Qle_refl.
  - simpl. destruct (tuple_leb a h') eqn:El; intros [= <- <-] x [<-|Hx].
    + apply Qle_refl.
    + eapply Qle_trans; [apply tuple_leb_order, El | eapply IH; eauto].
    + apply tuple_leb_false_order, El.
    + eapply IH; eauto.
Qed.

(** C3.  If a configured plugin class has an execution order below
    [DEFAULT_CATALOGCALCULATION], [initializePlugins] raises [ValueError]
    on the very first tuple it visits: the plugin map is still empty, the
    schema is the one that was passed in (no constructor ran), and the only
    bucket allocated is empty. *)
Theorem initializePlugins_rejects_low_order
    (enabled : list (string * Config * PluginClass World Config Schema))
    (sch : Schema) :
  (exists n c P, In (n, c, P) enabled /\
                 getExecutionOrder P < DEFAULT_CATALOGCALCULATION) ->
  exists P,
    initializePlugins DEFAULT_CATALOGCALCULATION (apply enabled) sch =
      inl (ValueError (className P, getExecutionOrder P, DEFAULT_CATALOGCALCULATION),
           {| schema := sch;
              plugins := [];
              executionDict :=
                [(getExecutionOrder P, {| single := []; multi := [] |})] |}) /\
    getExecutionOrder P < DEFAULT_CATALOGCALCULATION /\
    (exists n c, In (n, c, P) enabled).
Proof.
  intros (n & c & P & Hin & Hlow).
  assert (Hx : In (getExecutionOrder P, n, c, P) (apply enabled)).
  { unfold apply. apply in_map_iff. exists (n, c, P). auto. }
  unfold initializePlugins.
  destruct (sorted (@tuple_leb World Config Schema) (apply enabled)) as [|h t] eqn:E.
  - exfalso. apply (sorted_In (@tuple_leb World Config Schema)) in Hx.
    rewrite E in Hx. exact Hx.
  - pose proof (sorted_head_least _ E _ Hx) as Hle. simpl in Hle.
    assert (Hh : In h (apply enabled)).
    { apply (sorted_In (@tuple_leb World Config Schema)). rewrite E. left. reflexivity. }
    unfold apply in Hh. apply in_map_iff in Hh as ([[n' c'] P'] & <- & Hin').
    simpl in Hle. exists P'.
    assert (Hlow' : getExecutionOrder P' < DEFAULT_CATALOGCALCULATION).
    { eapply Qle_lt_trans; eassumption. }
    split; [|split; [exact Hlow' | eauto]].
    simpl.
    assert (Hb : Qle_bool DEFAULT_CATALOGCALCULATION (getExecutionOrder P') = false).
    { destruct (Qle_bool DEFAULT_CATALOGCALCULATION (getExecutionOrder P')) eqn:Eb;
        [|reflexivity].
      apply Qle_bool_iff in Eb. exfalso. exact (Qlt_not_le _ _ Hlow' Eb). }
    rewrite Hb. reflexivity.
Qed.

(** *** What construction guarantees *)

Lemma dict_keys_update d (k : Q) (f : pluginType World -> pluginType World) :
  dict_keys (dict_update k f d) = dict_keys d.
Proof.
  induction d as [|[k' v] d IH]; simpl; [reflexivity|].
  destruct (Qeq_bool k' k); simpl; [reflexivity | rewrite IH; reflexivity].
Qed.

Lemma dict_mem_InA d (k : Q) :
  dict_mem k d = true <-> InA Qeq k (dict_keys d).
Proof.
  unfold dict_mem. rewrite existsb_exists, InA_alt. split.
  - intros ([k' v] & Hin & Heq). exists k'. split.
    + symmetry. apply Qeq_bool_iff, Heq.
    + apply (in_map fst) in Hin. exact Hin.
  - intros (k' & Heq & Hin). apply in_map_iff in Hin as ([k'' v] & <- & Hin).
    exists (k'', v). split; [exact Hin|]. apply Qeq_bool_iff. symmetry. exact Heq.
Qed.

Lemma dict_add_NoDupA d (k : Q) (v : pluginType World) :
  NoDupA Qeq (dict_keys d) -> dict_mem k d = false ->
  NoDupA Qeq (dict_keys (dict_add k v d)).
Proof.
  intros Hnd Hmem. unfold dict_add, dict_keys. rewrite map_app. simpl.
  apply NoDupA_app; [apply Q_Setoid | exact Hnd | |].
  - constructor; [|constructor]. intros H. inversion H.
  - intros x Hx Hx'. inversion Hx' as [? ? Heq|? ? H']; subst; [|inversion H'].
    assert (Hk : InA Qeq k (dict_keys d)).
    { apply InA_alt in Hx as (y & Hxy & Hy). apply InA_alt. exists y.
      split; [|exact Hy]. rewrite <- Heq. exact Hxy. }
    apply dict_mem_InA in Hk. congruence.
Qed.

(** The keys of the execution dictionary are pairwise different, whether
    the loop body returns or raises. *)
Lemma initialize_one_keys (t : PluginTuple World Config Schema) self :
  NoDupA Qeq (dict_keys (executionDict self)) ->
  match initialize_one DEFAULT_CATALOGCALCULATION t self with
  | inl (_, self') => NoDupA Qeq (dict_keys (executionDict self'))
  | inr self' => NoDupA Qeq (dict_keys (executionDict self'))
  end.
Proof.
  intros Hnd. destruct t as [[[o n] c] P]. unfold initialize_one.
  set (d := if negb (dict_mem o (executionDict self))
            then dict_add o {| single := []; multi := [] |} (executionDict self)
            else executionDict self).
  assert (Hd : NoDupA Qeq (dict_keys d)).
  { subst d. destruct (dict_mem o (executionDict self)) eqn:E; simpl;
      [exact Hnd | apply dict_add_NoDupA; assumption]. }
  destruct (Qle_bool DEFAULT_CATALOGCALCULATION (getExecutionOrder P)); [|exact Hd].
  destruct (construct P c n (schema self)) as [plug sch']. simpl.
  destruct (String.eqb (plugType plug) "single");
    [rewrite dict_keys_update; exact Hd|].
  destruct (String.eqb (plugType plug) "multi");
    [rewrite dict_keys_update; exact Hd | exact Hd].
Qed.

Lemma initialize_loop_keys (ts : list (PluginTuple World Config Schema)) self self' :
  NoDupA Qeq (dict_keys (executionDict self)) ->
  initialize_loop DEFAULT_CATALOGCALCULATION ts self = inr self' ->
  NoDupA Qeq (dict_keys (executionDict self')).
Proof.
  revert self. induction ts as [|t ts IH]; simpl; intros self Hnd.
  - intros [= <-]. exact Hnd.
  - pose proof (@initialize_one_keys t self Hnd) as H1.
    destruct (initialize_one DEFAULT_CATALOGCALCULATION t self) as [[err s1]|s1];
      [discriminate|].
    apply IH, H1.
Qed.

Lemma initializePlugins_keys (tuples : list (PluginTuple World Config Schema))
    (sch : Schema) self :
  initializePlugins DEFAULT_CATALOGCALCULATION tuples sch = inr self ->
  NoDupA Qeq (dict_keys (executionDict self)).
Proof. apply initialize_loop_keys. constructor. Qed.

Lemma all_plugins_add d (k : Q) :
  all_plugins (dict_add k {| single := []; multi := [] |} d) = all_plugins d.
Proof.
  unfold all_plugins, dict_add. rewrite flat_map_app. simpl. apply app_nil_r.
Qed.

Lemma all_plugins_update d (k : Q) (f : pluginType World -> pluginType World) plug :
  (forall b, Permutation (multi (f b) ++ single (f b)) (plug :: multi b ++ single b)) ->
  dict_mem k d = true ->
  Permutation (all_plugins (dict_update k f d)) (plug :: all_plugins d).
Proof.
  intros Hf. induction d as [|[k' v] d IH]; simpl; [discriminate|].
  destruct (Qeq_bool k' k); simpl.
  - intros _. change (plug :: (multi v ++ single v) ++ all_plugins d)
      with ((plug :: multi v ++ single v) ++ all_plugins d).
    apply Permutation_app_tail, Hf.
  - intros H. eapply perm_trans; [apply Permutation_app_head, IH, H|].
    apply Permutation_sym, Permutation_middle.
Qed.

Lemma dict_mem_after_add d (k : Q) :
  dict_mem k (if negb (dict_mem k d)
              then dict_add k {| single := []; multi := [] |} d else d) = true.
Proof.
  destruct (dict_mem k d) eqn:E; simpl; [exact E|].
  unfold dict_mem, dict_add. rewrite existsb_app. simpl.
  rewrite Qeq_bool_refl. apply orb_true_iff. right. reflexivity.
Qed.

(** One more tuple: the plugins of the dictionary are the old ones and at
    most the new one, under the name of its tuple. *)
Lemma initialize_one_names (t : PluginTuple World Config Schema) self self' :
  keeps_name t ->
  initialize_one DEFAULT_CATALOGCALCULATION t self = inr self' ->
  exists extra,
    Permutation (map (@name World) (all_plugins (executionDict self')))
                (extra ++ map (@name World) (all_plugins (executionDict self))) /\
    (extra = [] \/ extra = [tuple_name t]).
Proof.
  destruct t as [[[o n] c] P]. unfold keeps_name, initialize_one, tuple_name.
  intros Hname.
  pose proof (dict_mem_after_add (executionDict self) o) as Hmem.
  assert (Hall : all_plugins
                   (if negb (dict_mem o (executionDict self))
                    then dict_add o {| single := []; multi := [] |} (executionDict self)
                    else executionDict self) = all_plugins (executionDict self)).
  { destruct (dict_mem o (executionDict self)); simpl;
      [reflexivity | apply all_plugins_add]. }
  set (d := if negb (dict_mem o (executionDict self))
            then dict_add o {| single := []; multi := [] |} (executionDict self)
            else executionDict self) in *.
  destruct (Qle_bool DEFAULT_CATALOGCALCULATION (getExecutionOrder P)); [|discriminate].
  specialize (Hname (schema self)).
  destruct (construct P c n (schema self)) as [plug sch']. simpl in Hname.
  destruct (String.eqb (plugType plug) "single");
    [|destruct (String.eqb (plugType plug) "multi")];
    intros [= <-]; simpl.
  - exists [n]. split; [|right; reflexivity].
    rewrite <- Hall, <- Hname.
    change ([name plug] ++ map (@name World) (all_plugins d))
      with (map (@name World) (plug :: all_plugins d)).
    apply Permutation_map, all_plugins_update; [|exact Hmem].
    intros b. simpl. rewrite app_assoc. apply Permutation_sym, Permutation_cons_append.
  - exists [n]. split; [|right; reflexivity].
    rewrite <- Hall, <- Hname.
    change ([name plug] ++ map (@name World) (all_plugins d))
      with (map (@name World) (plug :: all_plugins d)).
    apply Permutation_map, all_plugins_update; [|exact Hmem].
    intros b. simpl. rewrite <- app_assoc.
    apply Permutation_sym. apply (Permutation_middle (multi b) (single b) plug).
  - exists []. split; [|left; reflexivity]. rewrite Hall. apply Permutation_refl.
Qed.

Lemma initialize_loop_names (ts : list (PluginTuple World Config Schema)) self self' :
  Forall (@keeps_name World Config Schema) ts ->
  NoDup (map (@tuple_name World Config Schema) ts) ->
  NoDup (map (@name World) (all_plugins (executionDict self))) ->
  (forall x, In x (map (@name World) (all_plugins (executionDict self))) ->
             ~ In x (map (@tuple_name World Config Schema) ts)) ->
  initialize_loop DEFAULT_CATALOGCALCULATION ts self = inr self' ->
  NoDup (map (@name World) (all_plugins (executionDict self'))).
Proof.
  revert self. induction ts as [|t ts IH]; simpl; intros self Hk Hts Hnd Hfresh.
  - intros [= <-]. exact Hnd.
  - inversion Hk as [|? ? Hkt Hk']; subst.
    inversion Hts as [|? ? Hnt Hts']; subst.
    destruct (initialize_one DEFAULT_CATALOGCALCULATION t self) as [[err s1]|s1] eqn:E;
      [discriminate|].
    destruct (@initialize_one_names t self s1 Hkt E) as (extra & Hperm & Hextra).
    apply IH; try assumption.
    + eapply Permutation_NoDup; [apply Permutation_sym, Hperm|].
      destruct Hextra as [->| ->]; simpl; [exact Hnd|].
      constructor; [|exact Hnd]. intros Hin. apply (Hfresh _ Hin). left. reflexivity.
    + intros x Hx. apply (Permutation_in _ Hperm) in Hx.
      apply in_app_or in Hx as [Hx|Hx].
      * destruct Hextra as [->| ->]; simpl in Hx; [tauto|].
        destruct Hx as [<-|[]]. exact Hnt.
      * intros Hin. apply (Hfresh _ Hx). right. exact Hin.
Qed.

(** After construction no two plugins of the dictionary bear the same
    name, provided no two configured plugins do. *)
Lemma initializePlugins_names (tuples : list (PluginTuple World Config Schema))
    (sch : Schema) self :
  Forall (@keeps_name World Config Schema) tuples ->
  NoDup (map (@tuple_name World Config Schema) tuples) ->
  initializePlugins DEFAULT_CATALOGCALCULATION tuples sch = inr self ->
  NoDup (map (@name World) (all_plugins (executionDict self))).
Proof.
  intros Hk Hnd. unfold initializePlugins.
  apply initialize_loop_names.
  - eapply Permutation_Forall; [apply Permutation_sym, sorted_perm | exact Hk].
  - eapply Permutation_NoDup; [|exact Hnd].
    apply Permutation_map, Permutation_sym, sorted_perm.
  - constructor.
  - intros x [].
Qed.

End SchedulerFacts.

(** ** A small configuration, run *)

Module Example.

(** The world counts the calculations that returned. *)
Definition World : Type := nat.

Definition out_of_memory : Exception :=
  {| exc_type := MemoryError; exc_message := "out of memory" |}.

Definition bad_measurement : Exception :=
  {| exc_type := MeasurementError; exc_message := "bad measurement" |}.

Definition not_implemented : Exception :=
  {| exc_type := Builtin "NotImplementedError"; exc_message := "fail" |}.

Definition edge_measurement : Exception :=
  {| exc_type := Subclass "EdgeError" MeasurementError; exc_message := "off the edge" |}.

(** A plugin whose [calculate] returns. *)
Definition counting (n ty : string) : Plugin World :=
  {| name := n; plugType := ty;
     calculate := fun _ w => Returns (S w);
     fail := fun _ _ w => Returns w |}.

(** A plugin whose [calculate] raises [e], and whose [fail] returns. *)
Definition raising (n ty : string) (e : Exception) : Plugin World :=
  {| name := n; plugType := ty;
     calculate := fun _ w => Raises e w;
     fail := fun _ _ w => Returns w |}.

(** A plugin whose [calculate] raises [MeasurementError] and that does not
    override [fail]. *)
Definition unhandled (n ty : string) : Plugin World :=
  {| name := n; plugType := ty;
     calculate := fun _ w => Raises bad_measurement w;
     fail := fun _ _ w => Raises not_implemented w |}.

Definition class_of (order : Q) (p : Plugin World) : PluginClass World unit unit :=
  {| className := name p;
     getExecutionOrder := order;
     construct := fun _ _ sch => (p, sch) |}.

Definition DEFAULT : Q := 4.

Definition task_of (enabled : list (string * unit * PluginClass World unit unit))
    : CatalogCalculationTask World unit :=
  match initializePlugins DEFAULT (apply enabled) tt with
  | inr self => self
  | inl (_, self) => self
  end.

Definition entry (order : Q) (p : Plugin World)
    : string * unit * PluginClass World unit unit :=
  (name p, tt, class_of order p).

(** One catalog plugin that raises [MeasurementError], one record plugin,
    in the same bucket; a second bucket above it. *)
Definition measuring : CatalogCalculationTask World unit :=
  task_of [entry 5 (counting "late" "single");
           entry 4 (counting "area" "single");
           entry 4 (raising "blend" "multi" bad_measurement)].

Definition fatal : CatalogCalculationTask World unit :=
  task_of [entry 4 (counting "area" "single");
           entry 4 (raising "blend" "multi" out_of_memory)].

Definition careless : CatalogCalculationTask World unit :=
  task_of [entry 4 (counting "area" "single");
           entry 4 (unhandled "blend" "multi")].

Definition early : list (string * unit * PluginClass World unit unit) :=
  [entry 5 (counting "late" "single"); entry 3 (counting "early" "single")].

End Example.

Import Example.

Lemma exit_matches_exact_types_witness :
  CCContext_exit (counting "area" "single") (OneRecord 0) (Some edge_measurement) 7%nat =
    ([Warned "Error in area.calculate: off the edge"], Returns 7%nat).
Proof.
  refine (proj1 (@exit_matches_exact_types World (counting "area" "single")
                   (OneRecord 0) edge_measurement MeasurementError 7%nat _ _ _)).
  - simpl. tauto.
  - reflexivity.
  - discriminate.
Defined.

Lemma guarded_invocation_policy_witness :
  callCompute measuring [0; 1]%nat 0%nat =
    ([Calculated "blend" WholeCatalog;
      Failed "blend" WholeCatalog bad_measurement;
      Calculated "area" (OneRecord 0); Calculated "area" (OneRecord 1);
      Calculated "late" (OneRecord 0); Calculated "late" (OneRecord 1)],
     Returns 4%nat).
Proof.
  pose proof (@guarded_invocation_policy World unit measuring [0; 1]%nat []
                [(counting "area" "single", OneRecord 0);
                 (counting "area" "single", OneRecord 1);
                 (counting "late" "single", OneRecord 0);
                 (counting "late" "single", OneRecord 1)]
                (raising "blend" "multi" bad_measurement) WholeCatalog
                0%nat 0%nat [] eq_refl eq_refl) as H.
  destruct H as (_ & H & _).
  destruct (H bad_measurement 0%nat eq_refl) as (_ & Hme & _).
  destruct (Hme eq_refl) as (Hret & _).
  exact (Hret 0%nat eq_refl).
Defined.

(** C1 as stated (after a [MeasurementError], [fail] is called and
    the run goes on) does not hold when [fail] raises: the record plugin of
    the bucket is never invoked. *)
Lemma fail_that_raises_ends_the_run :
  callCompute careless [0; 1]%nat 0%nat =
    ([Calculated "blend" WholeCatalog;
      Failed "blend" WholeCatalog bad_measurement],
     Raises not_implemented 0%nat) /\
  schedule careless [0; 1]%nat =
    [(unhandled "blend" "multi", WholeCatalog);
     (counting "area" "single", OneRecord 0);
     (counting "area" "single", OneRecord 1)].
Proof. split; reflexivity. Qed.

Lemma callCompute_invocation_order_witness :
  count_occ Invocation_eq_dec
    (invocations (fst (callCompute measuring [0; 1]%nat 0%nat)))
    ("area"%string, OneRecord 1) = 1%nat /\
  occurs_before ("blend"%string, WholeCatalog) ("area"%string, OneRecord 0)
    (invocations (fst (callCompute measuring [0; 1]%nat 0%nat))).
Proof.
  assert (Hk : NoDupA Qeq (dict_keys (executionDict measuring))).
  { repeat constructor; intros H; inversion H as [? ? H1|? ? H1]; subst;
      try discriminate H1; inversion H1. }
  assert (Hn : NoDup (map (@name World) (all_plugins (executionDict measuring)))).
  { apply (NoDup_count_occ' string_dec). intros x Hx. simpl in Hx.
    repeat (destruct Hx as [<-|Hx]; [reflexivity|]). destruct Hx. }
  assert (Hc : NoDup [0; 1]%nat).
  { repeat constructor; simpl; intuition discriminate. }
  destruct (@callCompute_invocation_order World unit measuring [0; 1]%nat 0%nat 4%nat
              (fst (callCompute measuring [0; 1]%nat 0%nat)) Hk Hn Hc eq_refl)
    as (_ & _ & _ & H).
  destruct (H 4 {| single := [counting "area" "single"];
                   multi := [raising "blend" "multi" bad_measurement] |})
    as (_ & H1 & H2).
  - simpl. tauto.
  - reflexivity.
  - split.
    + apply (H1 (counting "area" "single") 1%nat); simpl; tauto.
    + apply (H2 (raising "blend" "multi" bad_measurement)
                (counting "area" "single") 0%nat); simpl; tauto.
Defined.

(** C2 as stated (every plugin of every bucket is invoked in every
    run) does not hold in a run that a fatal exception ends: the record
    plugin of the bucket is not invoked at all. *)
Lemma fatal_run_skips_record_plugins :
  callCompute fatal [0; 1]%nat 0%nat =
    ([Calculated "blend" WholeCatalog], Raises out_of_memory 0%nat) /\
  dict_get 4 (executionDict fatal) =
    Some {| single := [counting "area" "single"];
            multi := [raising "blend" "multi" out_of_memory] |} /\
  count_occ Invocation_eq_dec
    (invocations (fst (callCompute fatal [0; 1]%nat 0%nat)))
    ("area"%string, OneRecord 0) = 0%nat.
Proof. repeat split; reflexivity. Qed.

Lemma initializePlugins_rejects_low_order_witness :
  exists P,
    initializePlugins DEFAULT (apply early) tt =
      inl (ValueError (className P, getExecutionOrder P, DEFAULT),
           {| schema := tt;
              plugins := [];
              executionDict :=
                [(getExecutionOrder P, {| single := []; multi := [] |})] |}) /\
    getExecutionOrder P < DEFAULT /\
    (exists n c, In (n, c, P) early).
Proof.
  apply (@initializePlugins_rejects_low_order World unit unit DEFAULT early tt).
  exists "early"%string, tt, (class_of 3 (counting "early" "single")).
  split; [simpl; tauto | reflexivity].
Defined.

(** ** More on construction and on runs *)

Section SchedulerMore.

Variable World : Type.
Variable Config : Type.
Variable Schema : Type.
Variable DEFAULT_CATALOGCALCULATION : Q.

Implicit Types plug : Plugin World.
Implicit Types d : ExecutionDict World.
Implicit Types self : CatalogCalculationTask World Schema.

(** *** What can leave a run *)

Lemma guarded_Raises (pc : Plugin World * Target) (w w' : World) (t : list Event)
    (e : Exception) :
  guarded pc w = (t, Raises e w') ->
  (calculate (fst pc) (snd pc) w = Raises e w' /\
   (exc_type e = MemoryError \/ exc_type e = FatalAlgorithmError)) \/
  (exists e0 w2,
     calculate (fst pc) (snd pc) w = Raises e0 w2 /\
     exc_type e0 = MeasurementError /\
     fail (fst pc) (snd pc) e0 w2 = Raises e w').
Proof.
  unfold guarded, CCContext.
  destruct (calculate (fst pc) (snd pc) w) as [w1|e0 w1]; [discriminate|].
  unfold CCContext_exit.
  destruct (in_FATAL_EXCEPTIONS (exc_type e0)) eqn:Ef.
  - unfold raise. intros [= _ <- <-]. left. split; [reflexivity|].
    apply in_FATAL_EXCEPTIONS_iff, Ef.
  - destruct (ExcType_eqb (exc_type e0) MeasurementError) eqn:Em.
    + unfold seq, emit, call. simpl.
      destruct (fail (fst pc) (snd pc) e0 w1) as [w2|e2 w2] eqn:Efail; [discriminate|].
      intros [= _ <- <-]. right. exists e0, w1.
      split; [reflexivity|]. split; [apply ExcType_eqb_eq, Em | exact Efail].
    + unfold emit. discriminate.
Qed.

Lemma for_each_guarded_Raises_at (l : list (Plugin World * Target)) (w w' : World)
    (tr : list Event) (e : Exception) :
  for_each l (@guarded World) w = (tr, Raises e w') ->
  exists pre pc post tr1 w1 t,
    l = pre ++ pc :: post /\
    for_each pre (@guarded World) w = (tr1, Returns w1) /\
    guarded pc w1 = (t, Raises e w') /\
    tr = tr1 ++ t.
Proof.
  revert w tr. induction l as [|pc l IH]; intros w tr; simpl.
  - unfold skip. discriminate.
  - unfold seq. destruct (guarded pc w) as [t1 [w1|e1 w1]] eqn:Eg.
    + destruct (for_each l (@guarded World) w1) as [t2 r] eqn:E.
      intros [= <- ->].
      destruct (IH _ _ E) as (pre & pc' & post & tr1 & w2 & t & -> & Hpre & Hg & ->).
      exists (pc :: pre), pc', post, (t1 ++ tr1), w2, t.
      split; [reflexivity|]. split; [|split; [exact Hg | apply app_assoc]].
      simpl. unfold seq. rewrite Eg, Hpre. reflexivity.
    + intros [= <- <- <-]. exists [], pc, l, [], w, t1.
      repeat split. exact Eg.
Qed.

(** X1.  The only exceptions that leave [callCompute] are a [MemoryError] or
    [FatalAlgorithmError] raised by a plugin's [calculate], and whatever a
    plugin's [fail] raises when it is called for a [MeasurementError].  The
    run had then made the invocations of the schedule up to that plugin, and
    no other. *)
Theorem callCompute_raises_only self (catalog : list nat) (w w' : World)
    (tr : list Event) (e : Exception) :
  callCompute self catalog w = (tr, Raises e w') ->
  exists pre plug cat post tr1 w1,
    schedule self catalog = pre ++ (plug, cat) :: post /\
    for_each pre (@guarded World) w = (tr1, Returns w1) /\
    invocations tr = map (@invocation_of World) (pre ++ [(plug, cat)]) /\
    ((calculate plug cat w1 = Raises e w' /\
      (exc_type e = MemoryError \/ exc_type e = FatalAlgorithmError)) \/
     (exists e0 w2,
        calculate plug cat w1 = Raises e0 w2 /\
        exc_type e0 = MeasurementError /\
        fail plug cat e0 w2 = Raises e w')).
Proof.
  intros H. rewrite callCompute_schedule in H.
  destruct (for_each_guarded_Raises_at _ _ H)
    as (pre & [plug cat] & post & tr1 & w1 & t & Hs & Hpre & Hg & ->).
  exists pre, plug, cat, post, tr1, w1.
  split; [exact Hs|]. split; [exact Hpre|]. split.
  - rewrite invocations_app, map_app.
    rewrite (for_each_guarded_Returns _ _ Hpre). f_equal.
    pose proof (guarded_invocations (plug, cat) w1) as Hi. rewrite Hg in Hi. exact Hi.
  - exact (guarded_Raises _ _ Hg).
Qed.

(** *** Which plugin is handed what *)









(** *** When construction succeeds *)

Lemma initialize_loop_succeeds (ts : list (PluginTuple World Config Schema)) self :
  (exists self', initialize_loop DEFAULT_CATALOGCALCULATION ts self = inr self') <->
  Forall (fun t => Qle_bool DEFAULT_CATALOGCALCULATION (getExecutionOrder (snd t)) = true)
         ts.
Proof.
  revert self. induction ts as [|t ts IH]; intros self; simpl.
  - split; [constructor | eauto].
  - destruct t as [[[o n] c] P]. unfold initialize_one.
    destruct (Qle_bool DEFAULT_CATALOGCALCULATION (getExecutionOrder P)) eqn:E.
    + destruct (construct P c n (schema self)) as [plug sch'].
      rewrite IH. split.
      * intros H. constructor; [exact E | exact H].
      * intros H. inversion H; assumption.
    + split.
      * intros (self' & H). discriminate.
      * intros H. inversion H as [|? ? Ht _]; subst. simpl in Ht. congruence.
Qed.

(** X3.  [initializePlugins] returns (does not raise [ValueError]) exactly
    when the class of every configured plugin reports an execution order of
    at least [DEFAULT_CATALOGCALCULATION]. *)
Theorem initializePlugins_succeeds_iff
    (tuples : list (PluginTuple World Config Schema)) (sch : Schema) :
  (exists self, initializePlugins DEFAULT_CATALOGCALCULATION tuples sch = inr self) <->
  (forall t, In t tuples ->
             DEFAULT_CATALOGCALCULATION <= getExecutionOrder (snd t)).
Proof.
  unfold initializePlugins. rewrite initialize_loop_succeeds, Forall_forall.
  split; intros H t Ht.
  - apply Qle_bool_iff, H, sorted_In, Ht.
  - apply Qle_bool_iff, H. apply (sorted_In (@tuple_leb World Config Schema)), Ht.
Qed.

(** *** The buckets are allocated in ascending order *)

Lemma insert_sorted_by_order (x : PluginTuple World Config Schema)
    (l : list (PluginTuple World Config Schema)) :
  StronglySorted (fun a b => tuple_order a <= tuple_order b) l ->
  StronglySorted (fun a b => tuple_order a <= tuple_order b)
                 (insert_sorted (@tuple_leb World Config Schema) x l).
Proof.
  induction 1 as [|y l Hs IH Hall]; simpl.
  - constructor; constructor.
  - destruct (tuple_leb x y) eqn:E.
    + constructor; [constructor; assumption|].
      constructor; [apply tuple_leb_order, E|].
      eapply Forall_impl; [|exact Hall].
      intros z Hz. eapply Qle_trans; [apply tuple_leb_order, E | exact Hz].
    + constructor; [exact IH|].
      eapply Permutation_Forall; [apply Permutation_sym, insert_sorted_perm|].
      constructor; [apply tuple_leb_false_order, E | exact Hall].
Qed.

Lemma sorted_by_order (l : list (PluginTuple World Config Schema)) :
  StronglySorted (fun a b => tuple_order a <= tuple_order b)
                 (sorted (@tuple_leb World Config Schema) l).
Proof.
  induction l as [|x l IH]; simpl; [constructor | apply insert_sorted_by_order, IH].
Qed.

Lemma StronglySorted_snoc (A : Type) (R : A -> A -> Prop) (l : list A) (x : A) :
  StronglySorted R l -> Forall (fun y => R y x) l -> StronglySorted R (l ++ [x]).
Proof.
  induction 1 as [|y l Hs IH Hall]; simpl; intros H.
  - constructor; constructor.
  - inversion H as [|? ? Hy Hl]; subst. constructor; [apply IH, Hl|].
    apply Forall_app. split; [exact Hall | constructor; [exact Hy | constructor]].
Qed.

(** The keys after one more tuple: its execution order is appended unless
    it is there already. *)
Lemma initialize_one_dict_keys (t : PluginTuple World Config Schema) self self' :
  initialize_one DEFAULT_CATALOGCALCULATION t self = inr self' ->
  dict_keys (executionDict self') =
    if dict_mem (tuple_order t) (executionDict self)
    then dict_keys (executionDict self)
    else dict_keys (executionDict self) ++ [tuple_order t].
Proof.
  destruct t as [[[o n] c] P]. unfold initialize_one. simpl.
  set (d := if negb (dict_mem o (executionDict self))
            then dict_add o {| single := []; multi := [] |} (executionDict self)
            else executionDict self).
  assert (Hd : dict_keys d =
               if dict_mem o (executionDict self)
               then dict_keys (executionDict self)
               else dict_keys (executionDict self) ++ [o]).
  { subst d. destruct (dict_mem o (executionDict self)); simpl; [reflexivity|].
    unfold dict_add, dict_keys. rewrite map_app. reflexivity. }
  destruct (Qle_bool DEFAULT_CATALOGCALCULATION (getExecutionOrder P)); [|discriminate].
  destruct (construct P c n (schema self)) as [plug sch'].
  destruct (String.eqb (plugType plug) "single");
    [|destruct (String.eqb (plugType plug) "multi")];
    intros [= <-]; simpl; rewrite ?dict_keys_update; exact Hd.
Qed.

Lemma initialize_loop_ascending (ts : list (PluginTuple World Config Schema)) self self' :
  StronglySorted (fun a b => tuple_order a <= tuple_order b) ts ->
  StronglySorted Qlt (dict_keys (executionDict self)) ->
  (forall k t, In k (dict_keys (executionDict self)) -> In t ts -> k <= tuple_order t) ->
  initialize_loop DEFAULT_CATALOGCALCULATION ts self = inr self' ->
  StronglySorted Qlt (dict_keys (executionDict self')) /\
  (forall k, InA Qeq k (dict_keys (executionDict self')) <->
             InA Qeq k (dict_keys (executionDict self)) \/
             exists t, In t ts /\ tuple_order t == k).
Proof.
  revert self. induction ts as [|t ts IH]; simpl; intros self Hts Hs Hle.
  - intros [= <-]. split; [exact Hs|]. intros k. split; [tauto|].
    intros [H|(t & [] & _)]. exact H.
  - destruct (initialize_one DEFAULT_CATALOGCALCULATION t self) as [[err s1]|s1] eqn:E;
      [discriminate|].
    pose proof (initialize_one_dict_keys _ _ E) as Hk.
    inversion Hts as [|? ? Hts' Hall]; subst. rewrite Forall_forall in Hall.
    intros Hloop.
    assert (Hmem : forall k, InA Qeq k (dict_keys (executionDict s1)) <->
                             InA Qeq k (dict_keys (executionDict self)) \/
                             tuple_order t == k).
    { intros k. rewrite Hk.
      destruct (dict_mem (tuple_order t) (executionDict self)) eqn:Em.
      - split; [tauto|]. intros [H|H]; [exact H|].
        apply dict_mem_InA in Em. rewrite <- H. exact Em.
      - rewrite InA_app_iff. split; intros [H|H]; auto.
        + right. inversion H as [? ? Heq|? ? H']; subst; [|inversion H'].
          symmetry. exact Heq.
        + right. constructor. symmetry. exact H. }
    destruct (IH s1 Hts') as (Hsorted & Hkeys); [| |exact Hloop|].
    + rewrite Hk. destruct (dict_mem (tuple_order t) (executionDict self)) eqn:Em;
        [exact Hs|].
      apply StronglySorted_snoc; [exact Hs|].
      apply Forall_forall. intros k Hin.
      destruct (Qle_lt_or_eq k (tuple_order t)) as [Hlt|Heq]; [|exact Hlt|].
      * apply Hle; [exact Hin | left; reflexivity].
      * exfalso. assert (Hin' : InA Qeq (tuple_order t) (dict_keys (executionDict self))).
        { apply InA_alt. exists k. split; [symmetry; exact Heq | exact Hin]. }
        apply dict_mem_InA in Hin'. congruence.
    + intros k t' Hin Ht'. rewrite Hk in Hin.
      destruct (dict_mem (tuple_order t) (executionDict self)).
      * apply Hle; [exact Hin | right; exact Ht'].
      * apply in_app_or in Hin as [Hin|[<-|[]]].
        -- apply Hle; [exact Hin | right; exact Ht'].
        -- apply Hall, Ht'.
    + split; [exact Hsorted|]. intros k. rewrite Hkeys, Hmem. split.
      * intros [[H|H]|(t' & Ht' & H)]; eauto.
      * intros [H|(t' & [<-|Ht'] & H)]; eauto.
Qed.

Lemma sorted_ascending (l : list Q) :
  StronglySorted Qlt l -> sorted Qle_bool l = l.
Proof.
  induction 1 as [|a l Hs IH Hall]; simpl; [reflexivity|].
  rewrite IH. destruct l as [|y l]; simpl; [reflexivity|].
  inversion Hall as [|? ? Hay _]; subst.
  apply Qlt_le_weak, Qle_bool_iff in Hay. rewrite Hay. reflexivity.
Qed.

(** X4.  [initializePlugins] allocates one bucket for each distinct
    execution order among the configured plugins, and it allocates them in
    strictly ascending order: the [sorted] of [callCompute] finds the keys of
    the dictionary in order already. *)
Theorem initializePlugins_keys_ascending
    (tuples : list (PluginTuple World Config Schema)) (sch : Schema) self :
  initializePlugins DEFAULT_CATALOGCALCULATION tuples sch = inr self ->
  StronglySorted Qlt (dict_keys (executionDict self)) /\
  sorted Qle_bool (dict_keys (executionDict self)) = dict_keys (executionDict self) /\
  (forall k, InA Qeq k (dict_keys (executionDict self)) <->
             exists t, In t tuples /\ tuple_order t == k).
Proof.
  unfold initializePlugins. intros H.
  destruct (@initialize_loop_ascending
              (sorted (@tuple_leb World Config Schema) tuples)
              {| schema := sch; plugins := []; executionDict := [] |} self
              (sorted_by_order tuples) (SSorted_nil _)) as (Hs & Hk).
  - intros k t [].
  - exact H.
  - split; [exact Hs|]. split; [apply sorted_ascending, Hs|].
    intros k. rewrite Hk. simpl. split.
    + intros [Hnil|(t & Ht & Heq)]; [inversion Hnil|].
      exists t. split; [|exact Heq]. apply sorted_In in Ht. exact Ht.
    + intros (t & Ht & Heq). right. exists t. split; [|exact Heq].
      apply sorted_In, Ht.
Qed.

(** *** Construction, then a run *)

(** X5.  Construct, then run: when no two configured plugins bear the same
    name and no record handle occurs twice in the catalog, no run of the
    constructed task calls [calculate] of the same plugin on the same target
    twice, whether the run returns or raises. *)
Theorem constructed_task_never_repeats
    (tuples : list (PluginTuple World Config Schema)) (sch : Schema) self
    (catalog : list nat) (w : World) :
  Forall (@keeps_name World Config Schema) tuples ->
  NoDup (map (@tuple_name World Config Schema) tuples) ->
  NoDup catalog ->
  initializePlugins DEFAULT_CATALOGCALCULATION tuples sch = inr self ->
  NoDup (invocations (fst (callCompute self catalog w))).
Proof.
  intros Hk Hn Hc Hinit.
  assert (Hs : NoDup (map (@invocation_of World) (schedule self catalog))).
  { apply NoDup_schedule; [| |exact Hc].
    - eapply initializePlugins_keys, Hinit.
    - eapply initializePlugins_names; eassumption. }
  rewrite callCompute_schedule.
  destruct (for_each (schedule self catalog) (@guarded World) w) as [tr [w'|e w']] eqn:E;
    simpl.
  - rewrite (for_each_guarded_Returns _ _ E). exact Hs.
  - destruct (for_each_guarded_Raises _ _ E) as (pre & pc & post & Heq & ->).
    rewrite Heq in Hs.
    change (pre ++ pc :: post) with (pre ++ [pc] ++ post) in Hs.
    rewrite app_assoc, map_app in Hs.
    apply NoDup_app_inv in Hs. tauto.
Qed.

Lemma length_bucket_schedule (b : pluginType World) (catalog : list nat) :
  length (bucket_schedule b catalog) =
    (length (multi b) + length catalog * length (single b))%nat.
Proof.
  unfold bucket_schedule. rewrite length_app, length_map. f_equal.
  induction catalog as [|r c IH]; simpl; [reflexivity|].
  rewrite length_app, length_map, IH. reflexivity.
Qed.

(** X6.  A run of a constructed task that returns has called [calculate]
    once for every catalog plugin and once per record for every record
    plugin: with M catalog plugins, S record plugins and a catalog of n
    records it made M + n * S calls; on an empty catalog, the M calls of the
    catalog plugins only. *)
Theorem returning_run_call_count
    (tuples : list (PluginTuple World Config Schema)) (sch : Schema) self
    (catalog : list nat) (w w' : World) (tr : list Event) :
  initializePlugins DEFAULT_CATALOGCALCULATION tuples sch = inr self ->
  callCompute self catalog w = (tr, Returns w') ->
  length (invocations tr) =
    (length (flat_map (fun kv => multi (snd kv)) (executionDict self)) +
     length catalog *
       length (flat_map (fun kv => single (snd kv)) (executionDict self)))%nat.
Proof.
  intros Hinit Hrun.
  pose proof (@initializePlugins_keys World Config Schema DEFAULT_CATALOGCALCULATION
                tuples sch self Hinit) as Hk.
  rewrite callCompute_schedule in Hrun.
  rewrite (for_each_guarded_Returns _ _ Hrun), length_map.
  rewrite (Permutation_length (schedule_perm self catalog Hk)).
  generalize (executionDict self). intros d.
  induction d as [|[k b] d IH]; simpl; [lia|].
  rewrite !length_app, length_bucket_schedule, IH. simpl. lia.
Qed.

(** *** Runs that survive *)

Lemma guarded_Returns (pc : Plugin World * Target) (w : World) :
  (forall e w1,
     calculate (fst pc) (snd pc) w = Raises e w1 ->
     in_FATAL_EXCEPTIONS (exc_type e) = false /\
     (exc_type e = MeasurementError ->
      exists w2, fail (fst pc) (snd pc) e w1 = Returns w2)) ->
  exists t w', guarded pc w = (t, Returns w').
Proof.
  intros H. unfold guarded, CCContext.
  destruct (calculate (fst pc) (snd pc) w) as [w1|e w1].
  - simpl. eauto.
  - destruct (H e w1 eq_refl) as [Hf Hm]. unfold CCContext_exit. rewrite Hf.
    destruct (ExcType_eqb (exc_type e) MeasurementError) eqn:Em.
    + apply ExcType_eqb_eq in Em. destruct (Hm Em) as [w2 Hw2].
      unfold seq, emit, call. simpl. rewrite Hw2. eauto.
    + unfold emit. eauto.
Qed.

(** X7.  One broken plugin does not end the run: when no [calculate] of
    the schedule raises a [MemoryError] or a [FatalAlgorithmError], and [fail]
    returns whenever it is called for a [MeasurementError], [callCompute]
    returns, and it has made every invocation of the schedule, in order. *)
Theorem run_survives_nonfatal_errors self (catalog : list nat) (w : World) :
  (forall plug cat, In (plug, cat) (schedule self catalog) ->
   forall w0 e w1,
     calculate plug cat w0 = Raises e w1 ->
     in_FATAL_EXCEPTIONS (exc_type e) = false /\
     (exc_type e = MeasurementError -> exists w2, fail plug cat e w1 = Returns w2)) ->
  exists tr w',
    callCompute self catalog w = (tr, Returns w') /\
    invocations tr = map (@invocation_of World) (schedule self catalog).
Proof.
  intros H. rewrite callCompute_schedule.
  assert (Hret : exists tr w',
            for_each (schedule self catalog) (@guarded World) w = (tr, Returns w')).
  { revert w H. generalize (schedule self catalog). intros l.
    induction l as [|[plug cat] l IH]; intros w H; simpl.
    - unfold skip. eauto.
    - destruct (@guarded_Returns (plug, cat) w) as (t & w1 & Hg).
      { intros e w1. apply (H plug cat). left. reflexivity. }
      destruct (IH w1) as (tr & w' & Hl).
      { intros p c Hin. apply H. right. exact Hin. }
      unfold seq. rewrite Hg, Hl. eauto. }
  destruct Hret as (tr & w' & Hrun). exists tr, w'. split; [exact Hrun|].
  exact (for_each_guarded_Returns _ _ Hrun).
Qed.

End SchedulerMore.

(** Runs of the small configuration. *)

Lemma callCompute_raises_only_witness :
  exists pre plug cat post tr1 w1,
    schedule careless [0; 1]%nat = pre ++ (plug, cat) :: post /\
    for_each pre (@guarded World) 0%nat = (tr1, Returns w1) /\
    invocations [Calculated "blend" WholeCatalog;
                 Failed "blend" WholeCatalog bad_measurement] =
      map (@invocation_of World) (pre ++ [(plug, cat)]) /\
    ((calculate plug cat w1 = Raises not_implemented 0%nat /\
      (exc_type not_implemented = MemoryError \/
       exc_type not_implemented = FatalAlgorithmError)) \/
     (exists e0 w2,
        calculate plug cat w1 = Raises e0 w2 /\
        exc_type e0 = MeasurementError /\
        fail plug cat e0 w2 = Raises not_implemented 0%nat)).
Proof.
  apply (@callCompute_raises_only World unit careless [0; 1]%nat 0%nat 0%nat
           [Calculated "blend" WholeCatalog;
            Failed "blend" WholeCatalog bad_measurement] not_implemented).
  reflexivity.
Defined.

(** A configuration with a plugin whose [plugType] is neither 'single'
    nor 'multi'. *)
Definition mixed : list (string * unit * PluginClass World unit unit) :=
  [entry 5 (counting "late" "single");
   entry 4 (counting "odd" "catalog");
   entry 4 (counting "area" "single");
   entry 4 (raising "blend" "multi" bad_measurement)].

Lemma run_survives_nonfatal_errors_witness :
  exists tr w',
    callCompute measuring [0; 1]%nat 0%nat = (tr, Returns w') /\
    invocations tr = map (@invocation_of World) (schedule measuring [0; 1]%nat).
Proof.
  apply (@run_survives_nonfatal_errors World unit measuring [0; 1]%nat 0%nat).
  intros plug cat Hin w0 e w1. simpl in Hin.
  repeat (destruct Hin as [[= <- <-]|Hin]; [simpl; try discriminate|]);
    try contradiction;
    intros [= <- <-]; (split; [reflexivity | intros _; eauto]).
Defined.


Lemma initializePlugins_keys_ascending_witness :
  StronglySorted Qlt (dict_keys (executionDict (task_of mixed))) /\
  sorted Qle_bool (dict_keys (executionDict (task_of mixed))) =
    dict_keys (executionDict (task_of mixed)) /\
  (forall k, InA Qeq k (dict_keys (executionDict (task_of mixed))) <->
             exists t, In t (apply mixed) /\ tuple_order t == k).
Proof.
  apply (@initializePlugins_keys_ascending World unit unit DEFAULT (apply mixed) tt
           (task_of mixed)).
  reflexivity.
Defined.

Lemma constructed_task_never_repeats_witness :
  NoDup (invocations (fst (callCompute (task_of mixed) [0; 1]%nat 0%nat))).
Proof.
  apply (@constructed_task_never_repeats World unit unit DEFAULT (apply mixed) tt
           (task_of mixed) [0; 1]%nat 0%nat).
  - repeat constructor.
  - apply (NoDup_count_occ' string_dec). intros x Hx. simpl in Hx.
    repeat (destruct Hx as [<-|Hx]; [reflexivity|]). destruct Hx.
  - repeat constructor; simpl; intuition discriminate.
  - reflexivity.
Defined.

Lemma returning_run_call_count_witness :
  length (invocations (fst (callCompute (task_of mixed) [0; 1]%nat 0%nat))) =
    (length (flat_map (fun kv => multi (snd kv)) (executionDict (task_of mixed))) +
     length [0; 1]%nat *
       length (flat_map (fun kv => single (snd kv)) (executionDict (task_of mixed))))%nat.
Proof.
  apply (@returning_run_call_count World unit unit DEFAULT (apply mixed) tt
           (task_of mixed) [0; 1]%nat 0%nat 4%nat).
  - reflexivity.
  - reflexivity.
Defined.

End CatalogCalculation.

(* ================================================================== *)
(** * Part II: applyApCorr.py *)
(* ================================================================== *)

Module ApplyApCorr.

(** [UseNaiveFluxErr = True]: scale the flux error by apCorr. *)
Definition UseNaiveFluxErr : bool := true.

(** ** The table *)

(** A key names a column of the table. *)
Definition Key : Type := nat.

Definition Point : Type := (float * float)%type.

(** Modelled from the spec: the source record of the table abstraction,
    which is not part of these sources.  A record has a centroid and named
    typed fields that [get(key)] reads and [set(key, value)] writes in place;
    here it is its centroid, its [float64] columns and its flag columns, by
    key. *)
Record SourceRecord : Type := mkSourceRecord {
  centroid : Point;
  doubles : Key -> float;
  flags : Key -> bool
}.

Definition getCentroid (source : SourceRecord) : Point := centroid source.

(** [source.get(key)] and [source.set(key, value)] on a [float64] column. *)
Definition get (source : SourceRecord) (key : Key) : float := doubles source key.

Definition set (source : SourceRecord) (key : Key) (value : float) : SourceRecord :=
  {| centroid := centroid source;
     doubles := fun k => if Nat.eqb k key then value else doubles source k;
     flags := flags source |}.

(** [source.get(key)] and [source.set(key, value)] on a flag column. *)
Definition getFlag (source : SourceRecord) (key : Key) : bool := flags source key.

Definition setFlag (source : SourceRecord) (key : Key) (value : bool) : SourceRecord :=
  {| centroid := centroid source;
     doubles := doubles source;
     flags := fun k => if Nat.eqb k key then value else flags source k |}.

(** ** The schema *)

Inductive FieldType : Type := Double | Flag.

(** Modelled from the spec: the table/schema abstraction, which is not part
    of these sources.  A schema holds typed, named fields and an alias table;
    [find(name)] gives the key of the field that [name] stands for (an alias
    stands for its target), [addField] appends a field and gives its key,
    [getAliasMap().set(alias, target)] installs an alias, and [name in schema]
    tells whether [find] would succeed.  The key of a field is its column
    number. *)
Record Schema : Type := mkSchema {
  fields : list (string * FieldType);
  aliases : list (string * string)
}.

Fixpoint assoc (A : Type) (n : string) (l : list (string * A)) : option A :=
  match l with
  | [] => None
  | (n', v) :: l' => if String.eqb n' n then Some v else assoc n l'
  end.

Fixpoint field_index (A : Type) (n : string) (l : list (string * A)) : option Key :=
  match l with
  | [] => None
  | (n', _) :: l' =>
      if String.eqb n' n then Some 0%nat
      else option_map S (field_index n l')
  end.

(** Modelled from the spec: the alias table, read.  The name [n] stands
    for: its target when [n] is an alias (the alias installed last wins),
    itself otherwise. *)
Definition AliasMap_apply (schema : Schema) (n : string) : string :=
  match assoc n (aliases schema) with
  | Some target => target
  | None => n
  end.

(** Modelled from the spec: [getAliasMap().set(alias, target)]. *)
Definition AliasMap_set (alias target : string) (schema : Schema) : Schema :=
  {| fields := fields schema; aliases := (alias, target) :: aliases schema |}.

(** Modelled from the spec: [schema.find(n).key].  [None] stands for the
    lookup error. *)
Definition find (schema : Schema) (n : string) : option Key :=
  field_index (AliasMap_apply schema n) (fields schema).

(** Modelled from the spec: the membership test [n in schema]. *)
Definition contains (schema : Schema) (n : string) : bool :=
  match find schema n with Some _ => true | None => false end.

(** Modelled from the spec: [schema.addField(n, doc=..., type=ty)], which
    appends the field and gives its key. *)
Definition addField (schema : Schema) (n : string) (ty : FieldType) : Schema * Key :=
  ({| fields := fields schema ++ [(n, ty)]; aliases := aliases schema |},
   length (fields schema)).

(** ** Construction against a schema: state and lookup errors *)

Inductive SchemaError : Type :=
| NotFound (n : string).

Definition Init (A : Type) : Type :=
  Schema -> (SchemaError * Schema) + (A * Schema).

Definition ret (A : Type) (a : A) : Init A := fun s => inr (a, s).

Definition bind (A B : Type) (c : Init A) (k : A -> Init B) : Init B :=
  fun s =>
    match c s with
    | inl err => inl err
    | inr (a, s') => k a s'
    end.

Notation "x <- c ;; k" := (bind c (fun x => k))
  (at level 61, c at next level, right associativity).

Definition find_key (n : string) : Init Key :=
  fun s =>
    match find s n with
    | Some k => inr (k, s)
    | None => inl (NotFound n, s)
    end.

Definition has_field (n : string) : Init bool :=
  fun s => inr (contains s n, s).

Definition add_field (n : string) (ty : FieldType) : Init Key :=
  fun s => let (s', k) := addField s n ty in inr (k, s').

Definition set_alias (alias target : string) : Init unit :=
  fun s => inr (tt, AliasMap_set alias target s).

(** ** ApCorrInfo *)

Record ApCorrInfo : Type := mkApCorrInfo {
  name : string;
  modelName : string;
  modelSigmaName : string;
  doApCorrColumn : bool;
  instFluxName : string;
  instFluxErrName : string;
  instFluxKey : Key;
  instFluxErrKey : Key;
  fluxFlagKey : Key;
  apCorrKey : Key;
  apCorrErrKey : Key;
  apCorrFlagKey : Key
}.

(** [ApCorrInfo.__init__(self, schema, model, name=None)] *)
Definition ApCorrInfo_init (model : string) (name_arg : option string)
    : Init ApCorrInfo :=
  let name_ := match name_arg with None => model | Some n => n end in
  let modelName_ := (model ++ "_instFlux")%string in
  let modelSigmaName_ := (model ++ "_instFluxErr")%string in
  let instFluxName_ := (name_ ++ "_instFlux")%string in
  let instFluxErrName_ := (name_ ++ "_instFluxErr")%string in
  instFluxKey_ <- find_key instFluxName_ ;;
  instFluxErrKey_ <- find_key instFluxErrName_ ;;
  fluxFlagKey_ <- find_key (name_ ++ "_flag")%string ;;
  model_has_column <- has_field (model ++ "_apCorr")%string ;;
  let doApCorrColumn_ := String.eqb name_ model || negb model_has_column in
  keys <-
    (if doApCorrColumn_ then
       apCorrKey_ <- add_field (name_ ++ "_apCorr")%string Double ;;
       apCorrErrKey_ <- add_field (name_ ++ "_apCorrErr")%string Double ;;
       ret (apCorrKey_, apCorrErrKey_)
     else
       _ <- set_alias (name_ ++ "_apCorr")%string (model ++ "_apCorr")%string ;;
       _ <- set_alias (name_ ++ "_apCorrErr")%string (model ++ "_apCorrErr")%string ;;
       apCorrKey_ <- find_key (name_ ++ "_apCorr")%string ;;
       apCorrErrKey_ <- find_key (name_ ++ "_apCorrErr")%string ;;
       ret (apCorrKey_, apCorrErrKey_)) ;;
  apCorrFlagKey_ <- add_field (name_ ++ "_flag_apCorr")%string Flag ;;
  ret {| name := name_;
         modelName := modelName_;
         modelSigmaName := modelSigmaName_;
         doApCorrColumn := doApCorrColumn_;
         instFluxName := instFluxName_;
         instFluxErrName := instFluxErrName_;
         instFluxKey := instFluxKey_;
         instFluxErrKey := instFluxErrKey_;
         fluxFlagKey := fluxFlagKey_;
         apCorrKey := fst keys;
         apCorrErrKey := snd keys;
         apCorrFlagKey := apCorrFlagKey_ |}.

(** ** The aperture correction map *)

(** Modelled from the spec: what [model.evaluate(center)] does.  It gives
    a scalar, or it raises [lsst.pex.exceptions.DomainError] when the position
    is outside the model's support. *)
Inductive Evaluation : Type :=
| Evaluated (value : float)
| DomainError.

Definition Model : Type := Point -> Evaluation.

Definition evaluate (model : Model) (center : Point) : Evaluation := model center.

(** Modelled from the spec: [apCorrMap.get(fieldName)] gives a model or
    [None]. *)
Definition ApCorrMap : Type := string -> option Model.

(** ** Configuration and task *)

Record ApplyApCorrConfig : Type := mkConfig {
  ignoreList : list string;
  doFlagApCorrFailures : bool;
  proxies : list (string * string)
}.

Record ApplyApCorrTask : Type := mkApplyApCorrTask {
  config : ApplyApCorrConfig;
  apCorrInfoDict : list (string * ApCorrInfo)
}.

(** [self.apCorrInfoDict.values()] *)
Definition values (d : list (string * ApCorrInfo)) : list ApCorrInfo := map snd d.

(** ** Logging *)

Inductive Level : Type := INFO | DEBUG | WARN.

Definition LogRecord : Type := (Level * string)%type.

(** ** ApplyApCorrTask.__init__ *)

(** A [set] of strings is the list of its elements, each once; the order of
    the list is the order in which [for] visits the set. *)
Definition mem (x : string) (s : list string) : bool := existsb (String.eqb x) s.

(** [set(l)] *)
Fixpoint set_of (l : list string) : list string :=
  match l with
  | [] => []
  | x :: l' => if mem x l' then set_of l' else x :: set_of l'
  end.

(** [a - b] *)
Definition difference (a b : list string) : list string :=
  filter (fun x => negb (mem x b)) a.

(** Modelled from the spec: [getApCorrNameSet()] of the registry of
    flux-algorithm names, which is not part of these sources.  It gives the
    set of the names that were registered. *)
Definition getApCorrNameSet (registered : list string) : list string :=
  set_of registered.

(** [d[n] = v] on the dictionary of the task. *)
Fixpoint dict_set (n : string) (v : ApCorrInfo) (d : list (string * ApCorrInfo))
    : list (string * ApCorrInfo) :=
  match d with
  | [] => [(n, v)]
  | (n', v') :: d' =>
      if String.eqb n' n then (n', v) :: d' else (n', v') :: dict_set n v d'
  end.

(** A call [log.warn(format, arg)] with a list of names for argument: the
    logger is handed both and does the formatting. *)
Record LogCall : Type := mkLogCall {
  log_level : Level;
  log_format : string;
  log_arg : list string
}.

(** Lines 177-181: the warning about ignored names that are not
    registered. *)
Definition ignored_warning (config_ : ApplyApCorrConfig) (apCorrNameSet : list string)
    : list LogCall :=
  let ignoreSet := set_of (ignoreList config_) in
  let missingNameSet := difference ignoreSet (set_of apCorrNameSet) in
  match missingNameSet with
  | [] => []
  | _ :: _ =>
      [{| log_level := WARN;
          log_format := "Fields in ignoreList that are not in fluxCorrectList: %s";
          log_arg := CatalogCalculation.sorted String.leb missingNameSet |}]
  end.

(** Lines 182-186: [for name in apCorrNameSet - ignoreSet]. *)
Fixpoint init_registered (names : list string) (d : list (string * ApCorrInfo))
    : Init (list (string * ApCorrInfo)) :=
  match names with
  | [] => ret d
  | name_ :: names' =>
      present <- has_field (name_ ++ "_instFlux")%string ;;
      if negb present then init_registered names' d
      else
        apCorrInfo <- ApCorrInfo_init name_ None ;;
        init_registered names' (dict_set name_ apCorrInfo d)
  end.

(** Lines 188-195: [for name, model in self.config.proxies.items()]. *)
Fixpoint init_proxies (apCorrNameSet : list string) (items : list (string * string))
    (d : list (string * ApCorrInfo)) : Init (list (string * ApCorrInfo)) :=
  match items with
  | [] => ret d
  | (name_, model) :: items' =>
      if mem name_ apCorrNameSet then init_proxies apCorrNameSet items' d
      else
        present <- has_field (name_ ++ "_instFlux")%string ;;
        if negb present then init_proxies apCorrNameSet items' d
        else
          apCorrInfo <- ApCorrInfo_init model (Some name_) ;;
          init_proxies apCorrNameSet items' (dict_set name_ apCorrInfo d)
  end.

(** [ApplyApCorrTask.__init__(self, schema)], with the configuration of
    the task and the names of the registry: what it logs, and the task and
    the schema it leaves, or the lookup error that ended it. *)
Definition ApplyApCorrTask_init (config_ : ApplyApCorrConfig) (registered : list string)
    (schema : Schema)
    : list LogCall * ((SchemaError * Schema) + (ApplyApCorrTask * Schema)) :=
  let apCorrNameSet := getApCorrNameSet registered in
  let ignoreSet := set_of (ignoreList config_) in
  (ignored_warning config_ apCorrNameSet,
   (d <- init_registered (difference apCorrNameSet ignoreSet) [] ;;
    d <- init_proxies apCorrNameSet (proxies config_) d ;;
    ret {| config := config_; apCorrInfoDict := d |}) schema).

(** ** Exceptions of the arithmetic *)

Inductive PyError : Type :=
| ZeroDivisionError
| ValueError.

Inductive Outcome (A : Type) : Type :=
| Done (a : A)
| Raised (e : PyError) (a : A).

Arguments Done {A} a.
Arguments Raised {A} e a.

(** [x / y] on Python floats. *)
Definition py_div (x y : float) : PyError + float :=
  if (y =? 0)%float then inl ZeroDivisionError else inr (x / y)%float.

(** [math.sqrt(x)] *)
Definition py_sqrt (x : float) : PyError + float :=
  if (x <? 0)%float then inl ValueError else inr (sqrt x).

(** ** run: one source *)

(** The local variables [apCorr] and [apCorrErr]. *)
Record Locals : Type := mkLocals {
  apCorr : float;
  apCorrErr : float
}.

(** Lines 239-246: the two assignments and the [try] block.  The boolean
    tells whether [DomainError] was caught (the [except] branch, which
    [continue]s). *)
Definition try_evaluate (naive : bool) (apCorrModel apCorrErrModel : Model)
    (center : Point) : Locals * bool :=
  let apCorr0 := 1%float in
  let apCorrErr0 := 0%float in
  match evaluate apCorrModel center with
  | DomainError => ({| apCorr := apCorr0; apCorrErr := apCorrErr0 |}, true)
  | Evaluated apCorr1 =>
      if negb naive then
        match evaluate apCorrErrModel center with
        | DomainError => ({| apCorr := apCorr1; apCorrErr := apCorrErr0 |}, true)
        | Evaluated apCorrErr1 =>
            ({| apCorr := apCorr1; apCorrErr := apCorrErr1 |}, false)
        end
      else ({| apCorr := apCorr1; apCorrErr := apCorrErr0 |}, false)
  end.

(** Lines 264-266: the flags when the correction succeeded. *)
Definition succeed (config_ : ApplyApCorrConfig) (apCorrInfo : ApCorrInfo)
    (oldFluxFlagState : bool) (source : SourceRecord) : SourceRecord :=
  let source := setFlag source (apCorrFlagKey apCorrInfo) false in
  if doFlagApCorrFailures config_ then
    setFlag source (fluxFlagKey apCorrInfo) oldFluxFlagState
  else source.

(** The flux error in the mode that is not the naive one (lines 261-263). *)
Definition complex_fluxErr (instFlux instFluxErr apCorr_ apCorrErr_ : float)
    : PyError + float :=
  match py_div instFluxErr instFlux with
  | inl e => inl e
  | inr a =>
      match py_div apCorrErr_ apCorr_ with
      | inl e => inl e
      | inr b =>
          match py_sqrt (a * a + b * b)%float with
          | inl e => inl e
          | inr r => inr (abs (instFlux * apCorr_) * r)%float
          end
      end
  end.

(** The body of [for source in catalog] (lines 231-266). *)
Definition correct_source (naive : bool) (config_ : ApplyApCorrConfig)
    (apCorrInfo : ApCorrInfo) (apCorrModel apCorrErrModel : Model)
    (source : SourceRecord) : Outcome SourceRecord :=
  let center := getCentroid source in
  let source := setFlag source (apCorrFlagKey apCorrInfo) true in
  let oldFluxFlagState :=
    if doFlagApCorrFailures config_ then getFlag source (fluxFlagKey apCorrInfo)
    else false in
  let source :=
    if doFlagApCorrFailures config_ then setFlag source (fluxFlagKey apCorrInfo) true
    else source in
  let (locals, caught) := try_evaluate naive apCorrModel apCorrErrModel center in
  if caught then Done source
  else
    let source :=
      if doApCorrColumn apCorrInfo then
        set (set source (apCorrKey apCorrInfo) (apCorr locals))
            (apCorrErrKey apCorrInfo) (apCorrErr locals)
      else source in
    if ((apCorr locals <=? 0) || (apCorrErr locals <? 0))%float then Done source
    else
      let instFlux := get source (instFluxKey apCorrInfo) in
      let instFluxErr := get source (instFluxErrKey apCorrInfo) in
      let source := set source (instFluxKey apCorrInfo) (instFlux * apCorr locals)%float in
      if naive then
        Done (succeed config_ apCorrInfo oldFluxFlagState
                (set source (instFluxErrKey apCorrInfo)
                     (instFluxErr * apCorr locals)%float))
      else
        match complex_fluxErr instFlux instFluxErr (apCorr locals) (apCorrErr locals) with
        | inl e => Raised e source
        | inr sigma =>
            Done (succeed config_ apCorrInfo oldFluxFlagState
                    (set source (instFluxErrKey apCorrInfo) sigma))
        end.

(** ** run: one field, then all of them *)

(** [for source in catalog]: an exception leaves the loop, with the
    sources before it corrected and the ones after it untouched. *)
Fixpoint correct_sources (naive : bool) (config_ : ApplyApCorrConfig)
    (apCorrInfo : ApCorrInfo) (apCorrModel apCorrErrModel : Model)
    (catalog : list SourceRecord) : Outcome (list SourceRecord) :=
  match catalog with
  | [] => Done []
  | source :: rest =>
      match correct_source naive config_ apCorrInfo apCorrModel apCorrErrModel source with
      | Raised e source' => Raised e (source' :: rest)
      | Done source' =>
          match correct_sources naive config_ apCorrInfo apCorrModel apCorrErrModel rest with
          | Done rest' => Done (source' :: rest')
          | Raised e rest' => Raised e (source' :: rest')
          end
      end
  end.

(** Lines 222-223: the names that are not in the map. *)
Definition missingNames (apCorrInfo : ApCorrInfo)
    (apCorrModel apCorrErrModel : option Model) : list string :=
  (match apCorrModel with None => [modelName apCorrInfo] | Some _ => [] end) ++
  (match apCorrErrModel with None => [modelSigmaName apCorrInfo] | Some _ => [] end).

(** Lines 224-225: the text of the warning. *)
Definition missing_message (apCorrInfo : ApCorrInfo)
    (apCorrModel apCorrErrModel : option Model) : string :=
  ("Cannot aperture correct " ++ name apCorrInfo ++ " because could not find " ++
   String.concat " or " (missingNames apCorrInfo apCorrModel apCorrErrModel) ++
   " in apCorrMap")%string.

(** The body of [for apCorrInfo in self.apCorrInfoDict.values()] (lines
    219-266), for a logger whose level is above DEBUG: the statistics of
    lines 268-275, which read the catalog and log one record at debug level
    when the logger is at DEBUG or below, are in [apply_field_at]. *)
Definition apply_field (naive : bool) (config_ : ApplyApCorrConfig)
    (apCorrMap : ApCorrMap) (apCorrInfo : ApCorrInfo)
    (log : list LogRecord) (catalog : list SourceRecord)
    : list LogRecord * Outcome (list SourceRecord) :=
  let apCorrModel := apCorrMap (modelName apCorrInfo) in
  let apCorrErrModel := apCorrMap (modelSigmaName apCorrInfo) in
  match apCorrModel, apCorrErrModel with
  | Some m, Some me =>
      (log, correct_sources naive config_ apCorrInfo m me catalog)
  | _, _ =>
      (log ++ [(WARN, missing_message apCorrInfo apCorrModel apCorrErrModel)],
       Done (map (fun source => setFlag source (apCorrFlagKey apCorrInfo) true) catalog))
  end.

Fixpoint apply_fields (naive : bool) (config_ : ApplyApCorrConfig)
    (apCorrMap : ApCorrMap) (infos : list ApCorrInfo)
    (log : list LogRecord) (catalog : list SourceRecord)
    : list LogRecord * Outcome (list SourceRecord) :=
  match infos with
  | [] => (log, Done catalog)
  | apCorrInfo :: infos' =>
      match apply_field naive config_ apCorrMap apCorrInfo log catalog with
      | (log', Done catalog') => apply_fields naive config_ apCorrMap infos' log' catalog'
      | (log', Raised e catalog') => (log', Raised e catalog')
      end
  end.

(** Lines 212-217: what is logged before the loop. *)
Definition preamble (naive : bool) (self : ApplyApCorrTask) : list LogRecord :=
  [(INFO, ("Applying aperture corrections to " ++
           NilZero.string_of_uint (Nat.to_uint (length (apCorrInfoDict self))) ++
           " instFlux fields")%string);
   (DEBUG, if naive then "Use naive instFlux sigma computation"%string
           else ("Use complex instFlux sigma computation that double-counts photon noise " ++
                 "and thus over-estimates instFlux uncertainty")%string)].

(** [run(self, catalog, apCorrMap)], for either value of the module's
    [UseNaiveFluxErr]. *)
Definition run_with (naive : bool) (self : ApplyApCorrTask)
    (catalog : list SourceRecord) (apCorrMap : ApCorrMap) (log : list LogRecord)
    : list LogRecord * Outcome (list SourceRecord) :=
  apply_fields naive (config self) apCorrMap (values (apCorrInfoDict self))
    (log ++ preamble naive self) catalog.

(** [ApplyApCorrTask.run], as the module stands. *)
Definition run (self : ApplyApCorrTask) (catalog : list SourceRecord)
    (apCorrMap : ApCorrMap) (log : list LogRecord)
    : list LogRecord * Outcome (list SourceRecord) :=
  run_with UseNaiveFluxErr self catalog apCorrMap log.

(** ** run, with the level of the logger *)

(** Lines 268-275.  [debugging] is [self.log.getLevel() <= self.log.DEBUG],
    and [statistics apCorrInfo catalog] is the text of the record that
    [self.log.debug] is called with in lines 272-275: the name of the field,
    the means and standard deviations of its apCorr and apCorrErr columns as
    numpy computes and formats them, and the number of sources. *)
Definition log_statistics (debugging : bool)
    (statistics : ApCorrInfo -> list SourceRecord -> string)
    (apCorrInfo : ApCorrInfo) (log : list LogRecord) (catalog : list SourceRecord)
    : list LogRecord :=
  if debugging then log ++ [(DEBUG, statistics apCorrInfo catalog)] else log.

(** The body of [for apCorrInfo in self.apCorrInfoDict.values()] (lines
    219-275).  A field with a model missing [continue]s before the
    statistics; an exception of the loop over the sources leaves before
    them. *)
Definition apply_field_at (debugging : bool)
    (statistics : ApCorrInfo -> list SourceRecord -> string)
    (naive : bool) (config_ : ApplyApCorrConfig)
    (apCorrMap : ApCorrMap) (apCorrInfo : ApCorrInfo)
    (log : list LogRecord) (catalog : list SourceRecord)
    : list LogRecord * Outcome (list SourceRecord) :=
  let apCorrModel := apCorrMap (modelName apCorrInfo) in
  let apCorrErrModel := apCorrMap (modelSigmaName apCorrInfo) in
  match apCorrModel, apCorrErrModel with
  | Some m, Some me =>
      match correct_sources naive config_ apCorrInfo m me catalog with
      | Done catalog' =>
          (log_statistics debugging statistics apCorrInfo log catalog', Done catalog')
      | Raised e catalog' => (log, Raised e catalog')
      end
  | _, _ =>
      (log ++ [(WARN, missing_message apCorrInfo apCorrModel apCorrErrModel)],
       Done (map (fun source => setFlag source (apCorrFlagKey apCorrInfo) true) catalog))
  end.

Fixpoint apply_fields_at (debugging : bool)
    (statistics : ApCorrInfo -> list SourceRecord -> string)
    (naive : bool) (config_ : ApplyApCorrConfig)
    (apCorrMap : ApCorrMap) (infos : list ApCorrInfo)
    (log : list LogRecord) (catalog : list SourceRecord)
    : list LogRecord * Outcome (list SourceRecord) :=
  match infos with
  | [] => (log, Done catalog)
  | apCorrInfo :: infos' =>
      match apply_field_at debugging statistics naive config_ apCorrMap apCorrInfo
              log catalog with
      | (log', Done catalog') =>
          apply_fields_at debugging statistics naive config_ apCorrMap infos' log' catalog'
      | (log', Raised e catalog') => (log', Raised e catalog')
      end
  end.

(** [run(self, catalog, apCorrMap)] (lines 212-275), for either value of
    the module's [UseNaiveFluxErr] and any level of the logger. *)
Definition run_at (debugging : bool)
    (statistics : ApCorrInfo -> list SourceRecord -> string)
    (naive : bool) (self : ApplyApCorrTask)
    (catalog : list SourceRecord) (apCorrMap : ApCorrMap) (log : list LogRecord)
    : list LogRecord * Outcome (list SourceRecord) :=
  apply_fields_at debugging statistics naive (config self) apCorrMap
    (values (apCorrInfoDict self)) (log ++ preamble naive self) catalog.

(** The records of a log that were logged at WARN. *)
Definition warned (log : list LogRecord) : list LogRecord :=
  filter (fun r => match fst r with WARN => true | _ => false end) log.

(** ** What the theorems speak of *)

(** Lines 233-237: the source marked as failed before anything is tried. *)
Definition mark_failed (config_ : ApplyApCorrConfig) (apCorrInfo : ApCorrInfo)
    (source : SourceRecord) : SourceRecord :=
  let source := setFlag source (apCorrFlagKey apCorrInfo) true in
  if doFlagApCorrFailures config_ then setFlag source (fluxFlagKey apCorrInfo) true
  else source.

(** The columns a field reads or writes. *)
Definition keysD (apCorrInfo : ApCorrInfo) : list Key :=
  instFluxKey apCorrInfo :: instFluxErrKey apCorrInfo ::
  (if doApCorrColumn apCorrInfo
   then [apCorrKey apCorrInfo; apCorrErrKey apCorrInfo] else []).

Definition keysF (apCorrInfo : ApCorrInfo) : list Key :=
  [apCorrFlagKey apCorrInfo; fluxFlagKey apCorrInfo].

(** The keys of one field are pairwise different. *)
Definition wf_info (apCorrInfo : ApCorrInfo) : Prop :=
  NoDup (keysD apCorrInfo) /\ NoDup (keysF apCorrInfo).

(** Two fields that share no column. *)
Definition independent (apCorrInfo other : ApCorrInfo) : Prop :=
  (forall k, In k (keysD apCorrInfo) -> ~ In k (keysD other)) /\
  (forall k, In k (keysF apCorrInfo) -> ~ In k (keysF other)).

(** Two records that a field cannot tell apart. *)
Definition agree (apCorrInfo : ApCorrInfo) (s1 s2 : SourceRecord) : Prop :=
  centroid s1 = centroid s2 /\
  (forall k, In k (keysD apCorrInfo) -> get s1 k = get s2 k) /\
  (forall k, In k (keysF apCorrInfo) -> getFlag s1 k = getFlag s2 k).

Definition payload (A : Type) (o : Outcome A) : A :=
  match o with Done a => a | Raised _ a => a end.

(** The record [other] may have turned [s] into: same centroid, same
    values outside the columns of [other]. *)
Definition unchanged_outside (other : ApCorrInfo) (s s' : SourceRecord) : Prop :=
  centroid s' = centroid s /\
  (forall k, ~ In k (keysD other) -> get s' k = get s k) /\
  (forall k, ~ In k (keysF other) -> getFlag s' k = getFlag s k).

(** Two outcomes that a field cannot tell apart. *)
Definition same_outcome (apCorrInfo : ApCorrInfo)
    (o1 o2 : Outcome (list SourceRecord)) : Prop :=
  match o1, o2 with
  | Done a, Done b => Forall2 (agree apCorrInfo) a b
  | Raised e a, Raised e' b => e = e' /\ Forall2 (agree apCorrInfo) a b
  | _, _ => False
  end.

(** The warnings a run logs: one for each field with a model missing. *)
Definition warnings (apCorrMap : ApCorrMap) (infos : list ApCorrInfo) : list LogRecord :=
  flat_map (fun apCorrInfo =>
              match apCorrMap (modelName apCorrInfo),
                    apCorrMap (modelSigmaName apCorrInfo) with
              | Some _, Some _ => []
              | apCorrModel, apCorrErrModel =>
                  [(WARN, missing_message apCorrInfo apCorrModel apCorrErrModel)]
              end)
           infos.

(** [n] names a field of its own (it is no alias), stored under key [k]. *)
Definition has_column (schema : Schema) (n : string) (k : Key) : Prop :=
  assoc n (aliases schema) = None /\ field_index n (fields schema) = Some k.

(** ** Records *)

Lemma get_set_same (s : SourceRecord) (k : Key) (v : float) : get (set s k v) k = v.
Proof. unfold get, set. simpl. rewrite Nat.eqb_refl. reflexivity. Qed.

Lemma get_set_other (s : SourceRecord) (k k' : Key) (v : float) :
  k' <> k -> get (set s k v) k' = get s k'.
Proof.
  intros H. unfold get, set. simpl.
  destruct (Nat.eqb_spec k' k); [contradiction | reflexivity].
Qed.

Lemma getFlag_setFlag_same (s : SourceRecord) (k : Key) (b : bool) :
  getFlag (setFlag s k b) k = b.
Proof. unfold getFlag, setFlag. simpl. rewrite Nat.eqb_refl. reflexivity. Qed.

Lemma getFlag_setFlag_other (s : SourceRecord) (k k' : Key) (b : bool) :
  k' <> k -> getFlag (setFlag s k b) k' = getFlag s k'.
Proof.
  intros H. unfold getFlag, setFlag. simpl.
  destruct (Nat.eqb_spec k' k); [contradiction | reflexivity].
Qed.

Lemma get_setFlag (s : SourceRecord) (k k' : Key) (b : bool) :
  get (setFlag s k b) k' = get s k'.
Proof. reflexivity. Qed.

Lemma getFlag_set (s : SourceRecord) (k k' : Key) (v : float) :
  getFlag (set s k v) k' = getFlag s k'.
Proof. reflexivity. Qed.

(** ** Comparisons of floats *)

Lemma ltb_0_not_leb_0 (a : float) :
  (0 <? a)%float = true -> (a <=? 0)%float = false.
Proof.
  rewrite ltb_spec, leb_spec.
  destruct (Prim2SF a) as [[|]|[|]| |[|] m e]; vm_compute; congruence.
Qed.

(** ** Records that a field cannot tell apart *)

Lemma agree_refl (info : ApCorrInfo) (s : SourceRecord) : agree info s s.
Proof. repeat split. Qed.

Lemma agree_trans (info : ApCorrInfo) (s1 s2 s3 : SourceRecord) :
  agree info s1 s2 -> agree info s2 s3 -> agree info s1 s3.
Proof.
  intros (H1 & H2 & H3) (H1' & H2' & H3'). repeat split.
  - rewrite H1. exact H1'.
  - intros k Hk. rewrite (H2 k Hk). apply H2', Hk.
  - intros k Hk. rewrite (H3 k Hk). apply H3', Hk.
Qed.

Lemma agree_set (info : ApCorrInfo) (s1 s2 : SourceRecord) (k : Key) (v : float) :
  agree info s1 s2 -> agree info (set s1 k v) (set s2 k v).
Proof.
  intros (H1 & H2 & H3). repeat split; [exact H1 | | exact H3].
  intros k' Hk'. unfold get, set. simpl.
  destruct (Nat.eqb k' k); [reflexivity | apply H2, Hk'].
Qed.

Lemma agree_setFlag (info : ApCorrInfo) (s1 s2 : SourceRecord) (k : Key) (b : bool) :
  agree info s1 s2 -> agree info (setFlag s1 k b) (setFlag s2 k b).
Proof.
  intros (H1 & H2 & H3). repeat split; [exact H1 | exact H2 |].
  intros k' Hk'. unfold getFlag, setFlag. simpl.
  destruct (Nat.eqb k' k); [reflexivity | apply H3, Hk'].
Qed.

Lemma Forall2_agree_refl (info : ApCorrInfo) (c : list SourceRecord) :
  Forall2 (agree info) c c.
Proof. induction c; constructor; [apply agree_refl | assumption]. Qed.

Lemma Forall2_agree_trans (info : ApCorrInfo) (c1 c2 c3 : list SourceRecord) :
  Forall2 (agree info) c1 c2 -> Forall2 (agree info) c2 c3 ->
  Forall2 (agree info) c1 c3.
Proof.
  intros H. revert c3. induction H as [|a b l l' Hab _ IH]; intros c3 H'.
  - inversion H'. constructor.
  - inversion H' as [|? c ? l'' Hbc Hll]; subst.
    constructor; [eapply agree_trans; eassumption | apply IH, Hll].
Qed.

Lemma unchanged_outside_agree (info other : ApCorrInfo) (s s' : SourceRecord) :
  independent info other -> unchanged_outside other s s' -> agree info s s'.
Proof.
  intros (Hd & Hf) (H1 & H2 & H3). repeat split.
  - symmetry. exact H1.
  - intros k Hk. symmetry. apply H2, Hd, Hk.
  - intros k Hk. symmetry. apply H3, Hf, Hk.
Qed.

(** ** One source: what is left alone *)

Lemma unchanged_outside_refl (info : ApCorrInfo) (s : SourceRecord) :
  unchanged_outside info s s.
Proof. repeat split. Qed.

Lemma unchanged_outside_set (info : ApCorrInfo) (s s' : SourceRecord) (k : Key)
    (v : float) :
  In k (keysD info) -> unchanged_outside info s s' ->
  unchanged_outside info s (set s' k v).
Proof.
  intros Hk (H1 & H2 & H3). repeat split; [exact H1 | | exact H3].
  intros k' Hk'. rewrite get_set_other; [apply H2, Hk' | congruence].
Qed.

Lemma unchanged_outside_setFlag (info : ApCorrInfo) (s s' : SourceRecord) (k : Key)
    (b : bool) :
  In k (keysF info) -> unchanged_outside info s s' ->
  unchanged_outside info s (setFlag s' k b).
Proof.
  intros Hk (H1 & H2 & H3). repeat split; [exact H1 | exact H2 |].
  intros k' Hk'. rewrite getFlag_setFlag_other; [apply H3, Hk' | congruence].
Qed.

Lemma In_keysD_flux (info : ApCorrInfo) : In (instFluxKey info) (keysD info).
Proof. left. reflexivity. Qed.

Lemma In_keysD_fluxErr (info : ApCorrInfo) : In (instFluxErrKey info) (keysD info).
Proof. right. left. reflexivity. Qed.

Lemma In_keysD_apCorr (info : ApCorrInfo) :
  doApCorrColumn info = true -> In (apCorrKey info) (keysD info).
Proof. intros H. unfold keysD. rewrite H. simpl. tauto. Qed.

Lemma In_keysD_apCorrErr (info : ApCorrInfo) :
  doApCorrColumn info = true -> In (apCorrErrKey info) (keysD info).
Proof. intros H. unfold keysD. rewrite H. simpl. tauto. Qed.

Lemma In_keysF_apCorrFlag (info : ApCorrInfo) : In (apCorrFlagKey info) (keysF info).
Proof. left. reflexivity. Qed.

Lemma In_keysF_fluxFlag (info : ApCorrInfo) : In (fluxFlagKey info) (keysF info).
Proof. right. left. reflexivity. Qed.

Create HintDb apcorr.

#[local] Hint Resolve In_keysD_flux In_keysD_fluxErr In_keysD_apCorr
  In_keysD_apCorrErr In_keysF_apCorrFlag In_keysF_fluxFlag
  unchanged_outside_refl unchanged_outside_set unchanged_outside_setFlag
  agree_set agree_setFlag : apcorr.

Ltac break_body :=
  repeat match goal with
  | |- context [let (_, _) := ?x in _] => destruct x eqn:?
  | |- context [match ?x with _ => _ end] => destruct x eqn:?
  end.

(** A field touches only its own columns of a source, whatever the outcome. *)
Lemma correct_source_frame (naive : bool) (cfg : ApplyApCorrConfig)
    (info : ApCorrInfo) (m me : Model) (s : SourceRecord) :
  unchanged_outside info s (payload (correct_source naive cfg info m me s)).
Proof.
  unfold correct_source, succeed. cbv zeta.
  break_body; simpl payload; auto 10 with apcorr.
Qed.

(** ** One source: what the outcome depends on *)

Lemma correct_source_agree (naive : bool) (cfg : ApplyApCorrConfig)
    (info : ApCorrInfo) (m me : Model) (s1 s2 : SourceRecord) :
  agree info s1 s2 ->
  match correct_source naive cfg info m me s1,
        correct_source naive cfg info m me s2 with
  | Done a, Done b => agree info a b
  | Raised e a, Raised e' b => e = e' /\ agree info a b
  | _, _ => False
  end.
Proof.
  intros Hag. unfold correct_source. cbv zeta.
  assert (Hc : getCentroid s1 = getCentroid s2) by apply Hag. rewrite Hc.
  set (a1 := setFlag s1 (apCorrFlagKey info) true).
  set (a2 := setFlag s2 (apCorrFlagKey info) true).
  assert (A : agree info a1 a2) by (apply agree_setFlag, Hag).
  assert (Eold : getFlag a1 (fluxFlagKey info) = getFlag a2 (fluxFlagKey info)).
  { apply A. auto with apcorr. }
  rewrite Eold.
  set (b1 := if doFlagApCorrFailures cfg then setFlag a1 (fluxFlagKey info) true else a1).
  set (b2 := if doFlagApCorrFailures cfg then setFlag a2 (fluxFlagKey info) true else a2).
  assert (B : agree info b1 b2).
  { subst b1 b2. destruct (doFlagApCorrFailures cfg); auto with apcorr. }
  destruct (try_evaluate naive m me (getCentroid s2)) as [locals caught].
  destruct caught; [exact B|].
  set (c1 := if doApCorrColumn info
             then set (set b1 (apCorrKey info) (apCorr locals))
                      (apCorrErrKey info) (apCorrErr locals)
             else b1).
  set (c2 := if doApCorrColumn info
             then set (set b2 (apCorrKey info) (apCorr locals))
                      (apCorrErrKey info) (apCorrErr locals)
             else b2).
  assert (C : agree info c1 c2).
  { subst c1 c2. destruct (doApCorrColumn info); auto with apcorr. }
  destruct ((apCorr locals <=? 0)%float || (apCorrErr locals <? 0)%float);
    [exact C|].
  assert (E1 : get c1 (instFluxKey info) = get c2 (instFluxKey info)).
  { apply C. auto with apcorr. }
  assert (E2 : get c1 (instFluxErrKey info) = get c2 (instFluxErrKey info)).
  { apply C. auto with apcorr. }
  rewrite E1, E2.
  destruct naive.
  - unfold succeed. destruct (doFlagApCorrFailures cfg); auto 10 with apcorr.
  - destruct (complex_fluxErr _ _ _ _).
    + split; [reflexivity | auto with apcorr].
    + unfold succeed. destruct (doFlagApCorrFailures cfg); auto 10 with apcorr.
Qed.

(** ** One field over the catalog *)

(** When the loop over the sources returns, every source has been
    corrected. *)
Lemma correct_sources_Done (naive : bool) (cfg : ApplyApCorrConfig)
    (info : ApCorrInfo) (m me : Model) (c c' : list SourceRecord) :
  correct_sources naive cfg info m me c = Done c' ->
  Forall2 (fun s s' => correct_source naive cfg info m me s = Done s') c c'.
Proof.
  revert c'. induction c as [|s c IH]; simpl; intros c'.
  - intros [= <-]. constructor.
  - destruct (correct_source naive cfg info m me s) as [s'|e s'] eqn:E; [|discriminate].
    destruct (correct_sources naive cfg info m me c) as [r|e r]; [|discriminate].
    intros [= <-]. constructor; [exact E | apply IH; reflexivity].
Qed.

Lemma correct_sources_frame (naive : bool) (cfg : ApplyApCorrConfig)
    (other : ApCorrInfo) (m me : Model) (c : list SourceRecord) :
  Forall2 (unchanged_outside other) c
    (payload (correct_sources naive cfg other m me c)).
Proof.
  induction c as [|s c IH]; simpl; [constructor|].
  pose proof (correct_source_frame naive cfg other m me s) as Hs.
  destruct (correct_source naive cfg other m me s) as [s'|e s']; simpl in Hs.
  - destruct (correct_sources naive cfg other m me c) as [r|e r]; simpl in *;
      constructor; assumption.
  - simpl. constructor; [exact Hs|].
    clear. induction c; constructor; [apply unchanged_outside_refl | assumption].
Qed.

Lemma correct_sources_agree (naive : bool) (cfg : ApplyApCorrConfig)
    (info : ApCorrInfo) (m me : Model) (c1 c2 : list SourceRecord) :
  Forall2 (agree info) c1 c2 ->
  same_outcome info (correct_sources naive cfg info m me c1)
                    (correct_sources naive cfg info m me c2).
Proof.
  induction 1 as [|s1 s2 c1 c2 Hs Hc IH]; simpl; [constructor|].
  pose proof (correct_source_agree naive cfg m me Hs) as H.
  destruct (correct_source naive cfg info m me s1) as [a|e a],
           (correct_source naive cfg info m me s2) as [b|e' b]; try contradiction.
  - unfold same_outcome in IH.
    destruct (correct_sources naive cfg info m me c1) as [r1|e1 r1],
             (correct_sources naive cfg info m me c2) as [r2|e2 r2];
      try contradiction; simpl.
    + constructor; assumption.
    + destruct IH as [-> IH]. split; [reflexivity|]. constructor; assumption.
  - destruct H as [-> H]. simpl. split; [reflexivity|]. constructor; assumption.
Qed.

Lemma apply_field_frame (naive : bool) (cfg : ApplyApCorrConfig)
    (apCorrMap : ApCorrMap) (other : ApCorrInfo) (log : list LogRecord)
    (c : list SourceRecord) :
  Forall2 (unchanged_outside other) c
    (payload (snd (apply_field naive cfg apCorrMap other log c))).
Proof.
  unfold apply_field.
  assert (Hflag : Forall2 (unchanged_outside other) c
            (map (fun source => setFlag source (apCorrFlagKey other) true) c)).
  { induction c; simpl; constructor; auto with apcorr. }
  destruct (apCorrMap (modelName other)), (apCorrMap (modelSigmaName other));
    simpl; try exact Hflag.
  apply correct_sources_frame.
Qed.

Lemma apply_field_agree (naive : bool) (cfg : ApplyApCorrConfig)
    (apCorrMap : ApCorrMap) (info : ApCorrInfo) (l1 l2 : list LogRecord)
    (c1 c2 : list SourceRecord) :
  Forall2 (agree info) c1 c2 ->
  same_outcome info (snd (apply_field naive cfg apCorrMap info l1 c1))
                    (snd (apply_field naive cfg apCorrMap info l2 c2)).
Proof.
  intros H. unfold apply_field.
  assert (Hflag : Forall2 (agree info)
            (map (fun source => setFlag source (apCorrFlagKey info) true) c1)
            (map (fun source => setFlag source (apCorrFlagKey info) true) c2)).
  { induction H; simpl; constructor; auto with apcorr. }
  destruct (apCorrMap (modelName info)), (apCorrMap (modelSigmaName info));
    simpl; try exact Hflag.
  apply correct_sources_agree, H.
Qed.

Lemma Forall2_unchanged_agree (info other : ApCorrInfo) (c c' : list SourceRecord) :
  independent info other ->
  Forall2 (unchanged_outside other) c c' -> Forall2 (agree info) c c'.
Proof.
  intros Hi. induction 1; constructor;
    [eapply unchanged_outside_agree; eassumption | assumption].
Qed.

(** ** All the fields *)

Lemma apply_fields_app (naive : bool) (cfg : ApplyApCorrConfig)
    (apCorrMap : ApCorrMap) (l1 l2 : list ApCorrInfo) (log : list LogRecord)
    (c : list SourceRecord) :
  apply_fields naive cfg apCorrMap (l1 ++ l2) log c =
  match apply_fields naive cfg apCorrMap l1 log c with
  | (log', Done c') => apply_fields naive cfg apCorrMap l2 log' c'
  | (log', Raised e c') => (log', Raised e c')
  end.
Proof.
  revert log c. induction l1 as [|i l1 IH]; intros log c; simpl; [reflexivity|].
  destruct (apply_field naive cfg apCorrMap i log c) as [log' [c'|e c']];
    [apply IH | reflexivity].
Qed.

(** Fields that share no column with [info] leave what [info] sees alone. *)
Lemma apply_fields_frame (naive : bool) (cfg : ApplyApCorrConfig)
    (apCorrMap : ApCorrMap) (info : ApCorrInfo) (others : list ApCorrInfo)
    (log : list LogRecord) (c : list SourceRecord) :
  Forall (independent info) others ->
  Forall2 (agree info) c
    (payload (snd (apply_fields naive cfg apCorrMap others log c))).
Proof.
  intros H. revert log c. induction H as [|o others Ho _ IH]; intros log c; simpl.
  - apply Forall2_agree_refl.
  - pose proof (apply_field_frame naive cfg apCorrMap o log c) as Hf.
    apply (Forall2_unchanged_agree Ho) in Hf.
    destruct (apply_field naive cfg apCorrMap o log c) as [log' [c'|e c']];
      simpl in Hf.
    + eapply Forall2_agree_trans; [exact Hf | apply IH].
    + exact Hf.
Qed.

(** A run that returns has logged one warning for each field with a model
    missing, and nothing else. *)
Lemma apply_fields_log (naive : bool) (cfg : ApplyApCorrConfig)
    (apCorrMap : ApCorrMap) (infos : list ApCorrInfo) (log log' : list LogRecord)
    (c c' : list SourceRecord) :
  apply_fields naive cfg apCorrMap infos log c = (log', Done c') ->
  log' = log ++ warnings apCorrMap infos.
Proof.
  revert log c. induction infos as [|i infos IH]; intros log c; simpl.
  - intros [= <- _]. rewrite app_nil_r. reflexivity.
  - unfold apply_field.
    destruct (apCorrMap (modelName i)) as [m|],
             (apCorrMap (modelSigmaName i)) as [me|]; simpl.
    + destruct (correct_sources naive cfg i m me c) as [c1|e c1]; [|discriminate].
      apply IH.
    + intros H. apply IH in H. rewrite H, <- app_assoc. reflexivity.
    + intros H. apply IH in H. rewrite H, <- app_assoc. reflexivity.
    + intros H. apply IH in H. rewrite H, <- app_assoc. reflexivity.
Qed.

(** What a run that returns has done to the columns of one of its fields
    is what that field alone does to the catalog it was given. *)
Lemma run_with_view (naive : bool) (self : ApplyApCorrTask)
    (catalog catalog' : list SourceRecord) (apCorrMap : ApCorrMap)
    (log log' : list LogRecord) (before after : list ApCorrInfo) (info : ApCorrInfo) :
  values (apCorrInfoDict self) = before ++ info :: after ->
  Forall (independent info) (before ++ after) ->
  run_with naive self catalog apCorrMap log = (log', Done catalog') ->
  exists alone,
    snd (apply_field naive (config self) apCorrMap info [] catalog) = Done alone /\
    Forall2 (agree info) alone catalog' /\
    log' = log ++ preamble naive self ++ warnings apCorrMap before ++
           warnings apCorrMap [info] ++ warnings apCorrMap after.
Proof.
  intros Hv Hind Hrun. unfold run_with in Hrun.
  pose proof (apply_fields_log _ _ _ _ _ _ Hrun) as Hlog.
  rewrite Hv in Hrun, Hlog.
  apply Forall_app in Hind as [Hb Ha].
  rewrite apply_fields_app in Hrun.
  pose proof (apply_fields_frame naive (config self) apCorrMap
                (log ++ preamble naive self) catalog Hb) as Fb.
  destruct (apply_fields naive (config self) apCorrMap before
              (log ++ preamble naive self) catalog) as [lb [cb|e cb]];
    [|discriminate].
  simpl in Fb. simpl in Hrun.
  pose proof (apply_field_agree naive (config self) apCorrMap [] lb Fb) as Hi.
  destruct (apply_field naive (config self) apCorrMap info lb cb)
    as [li [ci|e ci]]; [|discriminate].
  simpl in Hi.
  destruct (snd (apply_field naive (config self) apCorrMap info [] catalog))
    as [alone|e alone]; [|contradiction].
  simpl in Hi.
  pose proof (apply_fields_frame naive (config self) apCorrMap li ci Ha) as Fa.
  rewrite Hrun in Fa. simpl in Fa.
  exists alone. split; [reflexivity|]. split.
  - eapply Forall2_agree_trans; eassumption.
  - rewrite Hlog. unfold warnings. rewrite flat_map_app. simpl.
    rewrite app_nil_r, <- !app_assoc. reflexivity.
Qed.

(** ** The naive mode never raises *)

Lemma correct_source_naive (cfg : ApplyApCorrConfig) (info : ApCorrInfo)
    (m me : Model) (s : SourceRecord) :
  exists s', correct_source true cfg info m me s = Done s'.
Proof.
  unfold correct_source. cbv zeta. break_body; eauto.
Qed.

Lemma correct_sources_naive (cfg : ApplyApCorrConfig) (info : ApCorrInfo)
    (m me : Model) (c : list SourceRecord) :
  exists c', correct_sources true cfg info m me c = Done c'.
Proof.
  induction c as [|s c [c' IH]]; simpl; [eauto|].
  destruct (correct_source_naive cfg info m me s) as [s' ->].
  rewrite IH. eauto.
Qed.

Lemma apply_fields_naive (cfg : ApplyApCorrConfig) (apCorrMap : ApCorrMap)
    (infos : list ApCorrInfo) (log : list LogRecord) (c : list SourceRecord) :
  exists log' c', apply_fields true cfg apCorrMap infos log c = (log', Done c').
Proof.
  revert log c. induction infos as [|i infos IH]; intros log c; simpl; [eauto|].
  unfold apply_field.
  destruct (apCorrMap (modelName i)) as [m|],
           (apCorrMap (modelSigmaName i)) as [me|]; try apply IH.
  destruct (correct_sources_naive cfg i m me c) as [c' ->]. apply IH.
Qed.

(** [run] returns, whatever the catalog and the map. *)
Lemma run_returns (self : ApplyApCorrTask) (catalog : list SourceRecord)
    (apCorrMap : ApCorrMap) (log : list LogRecord) :
  exists log' catalog', run self catalog apCorrMap log = (log', Done catalog').
Proof. unfold run, run_with. apply apply_fields_naive. Qed.

(** ** One source: the three ways through the body *)

Lemma wf_info_facts (info : ApCorrInfo) :
  wf_info info ->
  instFluxKey info <> instFluxErrKey info /\
  apCorrFlagKey info <> fluxFlagKey info /\
  (doApCorrColumn info = true ->
     apCorrKey info <> instFluxKey info /\
     apCorrKey info <> instFluxErrKey info /\
     apCorrErrKey info <> instFluxKey info /\
     apCorrErrKey info <> instFluxErrKey info /\
     apCorrKey info <> apCorrErrKey info).
Proof.
  unfold wf_info, keysD, keysF. intros [HD HF].
  split; [|split].
  - inversion HD as [|? ? H _]; subst. intros E. apply H. left. auto.
  - inversion HF as [|? ? H _]; subst. intros E. apply H. left. auto.
  - intros Hown. rewrite Hown in HD.
    inversion HD as [|? ? H1 HD1]; subst.
    inversion HD1 as [|? ? H2 HD2]; subst.
    inversion HD2 as [|? ? H3 _]; subst.
    simpl in H1, H2, H3. intuition congruence.
Qed.

Lemma try_evaluate_DomainError (naive : bool) (m me : Model) (center : Point) :
  evaluate m center = DomainError ->
  try_evaluate naive m me center = ({| apCorr := 1; apCorrErr := 0 |}, true).
Proof. intros H. unfold try_evaluate. rewrite H. reflexivity. Qed.

Lemma try_evaluate_Evaluated (naive : bool) (m me : Model) (center : Point)
    (a e : float) :
  evaluate m center = Evaluated a ->
  (if naive then e = 0%float else evaluate me center = Evaluated e) ->
  try_evaluate naive m me center = ({| apCorr := a; apCorrErr := e |}, false).
Proof.
  intros H He. unfold try_evaluate. rewrite H.
  destruct naive; simpl; [subst e | rewrite He]; reflexivity.
Qed.

Lemma mark_failed_facts (cfg : ApplyApCorrConfig) (info : ApCorrInfo)
    (s : SourceRecord) :
  centroid (mark_failed cfg info s) = centroid s /\
  (forall k, get (mark_failed cfg info s) k = get s k) /\
  getFlag (mark_failed cfg info s) (apCorrFlagKey info) = true.
Proof.
  unfold mark_failed. cbv zeta.
  destruct (doFlagApCorrFailures cfg); repeat split; try reflexivity.
  - destruct (Nat.eq_dec (apCorrFlagKey info) (fluxFlagKey info)) as [E|E].
    + rewrite E. apply getFlag_setFlag_same.
    + rewrite getFlag_setFlag_other by exact E. apply getFlag_setFlag_same.
  - apply getFlag_setFlag_same.
Qed.

(** The [except] branch. *)
Lemma correct_source_caught (naive : bool) (cfg : ApplyApCorrConfig)
    (info : ApCorrInfo) (m me : Model) (s : SourceRecord) (locals : Locals) :
  try_evaluate naive m me (getCentroid s) = (locals, true) ->
  correct_source naive cfg info m me s = Done (mark_failed cfg info s).
Proof.
  intros H. unfold correct_source, mark_failed. cbv zeta. rewrite H. reflexivity.
Qed.

(** Line 253: the correction is rejected. *)
Lemma correct_source_rejected (naive : bool) (cfg : ApplyApCorrConfig)
    (info : ApCorrInfo) (m me : Model) (s : SourceRecord) (a e : float) :
  wf_info info ->
  try_evaluate naive m me (getCentroid s) = ({| apCorr := a; apCorrErr := e |}, false) ->
  ((a <=? 0) || (e <? 0))%float = true ->
  exists s',
    correct_source naive cfg info m me s = Done s' /\
    centroid s' = centroid s /\
    get s' (instFluxKey info) = get s (instFluxKey info) /\
    get s' (instFluxErrKey info) = get s (instFluxErrKey info) /\
    getFlag s' (apCorrFlagKey info) = true /\
    (doApCorrColumn info = true ->
       get s' (apCorrKey info) = a /\ get s' (apCorrErrKey info) = e).
Proof.
  intros Hwf Ht Hbad.
  destruct (wf_info_facts Hwf) as (_ & _ & Hown).
  destruct (mark_failed_facts cfg info s) as (Hc & Hg & Hf).
  unfold correct_source. cbv zeta. rewrite Ht. cbv iota beta.
  fold (mark_failed cfg info s). simpl apCorr. simpl apCorrErr. rewrite Hbad.
  eexists. split; [reflexivity|].
  destruct (doApCorrColumn info) eqn:Eown.
  - destruct (Hown eq_refl) as (H1 & H2 & H3 & H4 & H5).
    repeat split.
    + exact Hc.
    + rewrite !get_set_other by congruence. apply Hg.
    + rewrite !get_set_other by congruence. apply Hg.
    + exact Hf.
    + rewrite get_set_other by congruence. apply get_set_same.
    + apply get_set_same.
  - repeat split; auto; discriminate.
Qed.

(** Lines 255-266 in the naive mode: the correction is applied. *)
Lemma correct_source_applied (cfg : ApplyApCorrConfig) (info : ApCorrInfo)
    (m me : Model) (s : SourceRecord) (a : float) :
  wf_info info ->
  evaluate m (getCentroid s) = Evaluated a ->
  (0 <? a)%float = true ->
  exists s',
    correct_source true cfg info m me s = Done s' /\
    centroid s' = centroid s /\
    get s' (instFluxKey info) = (get s (instFluxKey info) * a)%float /\
    get s' (instFluxErrKey info) = (get s (instFluxErrKey info) * a)%float /\
    getFlag s' (apCorrFlagKey info) = false /\
    getFlag s' (fluxFlagKey info) = getFlag s (fluxFlagKey info).
Proof.
  intros Hwf Hev Hpos.
  destruct (wf_info_facts Hwf) as (Hfe & Hff & Hown).
  unfold correct_source. cbv zeta.
  rewrite (@try_evaluate_Evaluated true m me _ a 0%float Hev eq_refl).
  cbv iota beta. simpl apCorr. simpl apCorrErr.
  rewrite (ltb_0_not_leb_0 Hpos).
  change ((0 <? 0)%float) with false. cbv iota beta. simpl orb. cbv iota.
  eexists. split; [reflexivity|].
  unfold succeed.
  destruct (doFlagApCorrFailures cfg), (doApCorrColumn info) eqn:Eown;
    try (destruct (Hown eq_refl) as (H1 & H2 & H3 & H4 & H5));
    repeat split;
    repeat first
      [ rewrite getFlag_setFlag_same
      | rewrite get_set_same
      | rewrite getFlag_setFlag_other by congruence
      | rewrite get_set_other by congruence
      | rewrite get_setFlag
      | rewrite getFlag_set ];
    reflexivity.
Qed.

(** ** One source of a run *)

Lemma Forall2_nth_error (A B : Type) (R : A -> B -> Prop) (l : list A) (l' : list B)
    (i : nat) (a : A) :
  Forall2 R l l' -> nth_error l i = Some a ->
  exists b, nth_error l' i = Some b /\ R a b.
Proof.
  intros H. revert i. induction H as [|x y l l' Hxy _ IH]; intros [|i]; simpl;
    try discriminate.
  - intros [= <-]. eauto.
  - apply IH.
Qed.

(** In a run that returns, the columns of a field whose models are in the
    map hold, for each source, what the body of the loop made of that
    source. *)
Lemma run_with_source (naive : bool) (self : ApplyApCorrTask)
    (catalog catalog' : list SourceRecord) (apCorrMap : ApCorrMap)
    (log log' : list LogRecord) (before after : list ApCorrInfo) (info : ApCorrInfo)
    (m me : Model) (i : nat) (s : SourceRecord) :
  values (apCorrInfoDict self) = before ++ info :: after ->
  Forall (independent info) (before ++ after) ->
  apCorrMap (modelName info) = Some m ->
  apCorrMap (modelSigmaName info) = Some me ->
  run_with naive self catalog apCorrMap log = (log', Done catalog') ->
  nth_error catalog i = Some s ->
  exists s_a s',
    correct_source naive (config self) info m me s = Done s_a /\
    nth_error catalog' i = Some s' /\
    agree info s_a s'.
Proof.
  intros Hv Hind Hm Hme Hrun Hi.
  destruct (@run_with_view naive self catalog catalog' apCorrMap log log'
              before after info Hv Hind Hrun) as (alone & Halone & Hag & _).
  unfold apply_field in Halone. rewrite Hm, Hme in Halone. simpl in Halone.
  apply correct_sources_Done in Halone.
  destruct (@Forall2_nth_error _ _ _ _ _ i s Halone Hi) as (s_a & Ha & Hs).
  destruct (@Forall2_nth_error _ _ _ _ _ i s_a Hag Ha) as (s' & Hs' & Hag').
  eauto.
Qed.

(** In a run that returns, a field with a model missing has had its flag
    set on every source, and the run has logged one warning for it. *)
Lemma run_with_missing (naive : bool) (self : ApplyApCorrTask)
    (catalog catalog' : list SourceRecord) (apCorrMap : ApCorrMap)
    (log log' : list LogRecord) (before after : list ApCorrInfo) (info : ApCorrInfo) :
  values (apCorrInfoDict self) = before ++ info :: after ->
  Forall (independent info) (before ++ after) ->
  apCorrMap (modelName info) = None \/ apCorrMap (modelSigmaName info) = None ->
  run_with naive self catalog apCorrMap log = (log', Done catalog') ->
  Forall2 (fun s s' => agree info (setFlag s (apCorrFlagKey info) true) s')
          catalog catalog' /\
  log' = log ++ preamble naive self ++ warnings apCorrMap before ++
         [(WARN, missing_message info (apCorrMap (modelName info))
                   (apCorrMap (modelSigmaName info)))] ++
         warnings apCorrMap after.
Proof.
  intros Hv Hind Hmiss Hrun.
  destruct (@run_with_view naive self catalog catalog' apCorrMap log log'
              before after info Hv Hind Hrun) as (alone & Halone & Hag & Hlog).
  assert (Hw : warnings apCorrMap [info] =
               [(WARN, missing_message info (apCorrMap (modelName info))
                         (apCorrMap (modelSigmaName info)))]).
  { unfold warnings. simpl.
    destruct (apCorrMap (modelName info)), (apCorrMap (modelSigmaName info));
      try reflexivity.
    destruct Hmiss; discriminate. }
  rewrite Hw in Hlog. split; [|exact Hlog].
  assert (Ha : alone = map (fun source => setFlag source (apCorrFlagKey info) true) catalog).
  { unfold apply_field in Halone.
    destruct (apCorrMap (modelName info)), (apCorrMap (modelSigmaName info));
      simpl in Halone; try (injection Halone as <-; reflexivity).
    destruct Hmiss; discriminate. }
  subst alone. clear - Hag.
  remember (map (fun source => setFlag source (apCorrFlagKey info) true) catalog)
    as l eqn:El.
  revert catalog El. induction Hag as [|x y l l' Hxy _ IH]; intros [|s c]; simpl;
    try discriminate; intros El.
  - constructor.
  - injection El as -> ->. constructor; [exact Hxy | apply IH; reflexivity].
Qed.

Lemma run_corrects_source (self : ApplyApCorrTask)
    (catalog : list SourceRecord) (apCorrMap : ApCorrMap) (log : list LogRecord)
    (before after : list ApCorrInfo) (info : ApCorrInfo) (m me : Model)
    (i : nat) (source : SourceRecord) (a : float) :
  values (apCorrInfoDict self) = before ++ info :: after ->
  Forall (independent info) (before ++ after) ->
  wf_info info ->
  apCorrMap (modelName info) = Some m ->
  apCorrMap (modelSigmaName info) = Some me ->
  nth_error catalog i = Some source ->
  evaluate m (getCentroid source) = Evaluated a ->
  (0 <? a)%float = true ->
  exists log' catalog' source',
    run self catalog apCorrMap log = (log', Done catalog') /\
    nth_error catalog' i = Some source' /\
    centroid source' = centroid source /\
    get source' (instFluxKey info) = (get source (instFluxKey info) * a)%float /\
    get source' (instFluxErrKey info) = (get source (instFluxErrKey info) * a)%float /\
    getFlag source' (apCorrFlagKey info) = false /\
    getFlag source' (fluxFlagKey info) = getFlag source (fluxFlagKey info).
Proof.
  intros Hv Hind Hwf Hm Hme Hi Hev Hpos.
  destruct (run_returns self catalog apCorrMap log) as (log' & catalog' & Hrun).
  destruct (@run_with_source UseNaiveFluxErr self catalog catalog' apCorrMap log log'
              before after info m me i source Hv Hind Hm Hme Hrun Hi)
    as (s_a & s' & Hsa & Hs' & (Hc & HD & HF)).
  destruct (@correct_source_applied (config self) info m me source a Hwf Hev Hpos)
    as (s_a' & Hsa' & F1 & F2 & F3 & F4 & F5).
  change UseNaiveFluxErr with true in Hsa. rewrite Hsa in Hsa'.
  injection Hsa' as <-.
  exists log', catalog', s'. split; [exact Hrun|]. split; [exact Hs'|].
  rewrite <- Hc, <- !HD, <- !HF by auto with apcorr. auto.
Qed.

(** C4, as the code has it.  In the naive mode, for a source whose value
    model evaluates to a positive apCorr, [run] multiplies the flux and the
    flux error by apCorr, clears the apCorr flag and leaves the general
    failure flag as it found it.  In particular a flux of 100.0 with error 5.0
    and an apCorr of 1.1 give the flux 110.00000000000001, the first float
    above 110.0, and the error 5.5. *)
Theorem run_applies_valid_correction (self : ApplyApCorrTask)
    (catalog : list SourceRecord) (apCorrMap : ApCorrMap) (log : list LogRecord)
    (before after : list ApCorrInfo) (info : ApCorrInfo) (m me : Model)
    (i : nat) (source : SourceRecord) (a : float) :
  values (apCorrInfoDict self) = before ++ info :: after ->
  Forall (independent info) (before ++ after) ->
  wf_info info ->
  apCorrMap (modelName info) = Some m ->
  apCorrMap (modelSigmaName info) = Some me ->
  nth_error catalog i = Some source ->
  evaluate m (getCentroid source) = Evaluated a ->
  (0 <? a)%float = true ->
  exists log' catalog' source',
    run self catalog apCorrMap log = (log', Done catalog') /\
    nth_error catalog' i = Some source' /\
    get source' (instFluxKey info) = (get source (instFluxKey info) * a)%float /\
    get source' (instFluxErrKey info) = (get source (instFluxErrKey info) * a)%float /\
    getFlag source' (apCorrFlagKey info) = false /\
    getFlag source' (fluxFlagKey info) = getFlag source (fluxFlagKey info) /\
    (get source (instFluxKey info) = 100%float ->
     get source (instFluxErrKey info) = 5%float ->
     a = 0x1.199999999999ap+0%float ->
     get source' (instFluxKey info) = 0x1.b800000000001p+6%float /\
     get source' (instFluxErrKey info) = 5.5%float).
Proof.
  intros Hv Hind Hwf Hm Hme Hi Hev Hpos.
  destruct (@run_corrects_source self catalog apCorrMap log before after info m me
              i source a Hv Hind Hwf Hm Hme Hi Hev Hpos)
    as (log' & catalog' & s' & H1 & H2 & _ & H3 & H4 & H5 & H6).
  exists log', catalog', s'.
  do 6 (split; [assumption|]).
  intros Hflux Herr Ha. rewrite H3, H4, Hflux, Herr, Ha. split; reflexivity.
Qed.

(** C9, as the code has it.  Two runs with the same map multiply twice:
    after the second run the flux is (flux * apCorr) * apCorr, each product
    rounded as floats are.  For a flux of 100.0 and an apCorr of 1.1 the
    second run changes the flux once more (121.00000000000003 after
    110.00000000000001); for a flux of 0.0 and an apCorr of 2.0 it does not. *)
Theorem run_twice_multiplies_twice (self : ApplyApCorrTask)
    (catalog : list SourceRecord) (apCorrMap : ApCorrMap) (log : list LogRecord)
    (before after : list ApCorrInfo) (info : ApCorrInfo) (m me : Model)
    (i : nat) (source : SourceRecord) (a : float) :
  values (apCorrInfoDict self) = before ++ info :: after ->
  Forall (independent info) (before ++ after) ->
  wf_info info ->
  apCorrMap (modelName info) = Some m ->
  apCorrMap (modelSigmaName info) = Some me ->
  nth_error catalog i = Some source ->
  evaluate m (getCentroid source) = Evaluated a ->
  (0 <? a)%float = true ->
  exists log1 catalog1 log2 catalog2 s1 s2,
    run self catalog apCorrMap log = (log1, Done catalog1) /\
    run self catalog1 apCorrMap log1 = (log2, Done catalog2) /\
    nth_error catalog1 i = Some s1 /\
    nth_error catalog2 i = Some s2 /\
    get s1 (instFluxKey info) = (get source (instFluxKey info) * a)%float /\
    get s2 (instFluxKey info) = (get source (instFluxKey info) * a * a)%float /\
    get s1 (instFluxErrKey info) = (get source (instFluxErrKey info) * a)%float /\
    get s2 (instFluxErrKey info) = (get source (instFluxErrKey info) * a * a)%float /\
    (get source (instFluxKey info) = 100%float -> a = 0x1.199999999999ap+0%float ->
     get s1 (instFluxKey info) = 0x1.b800000000001p+6%float /\
     get s2 (instFluxKey info) = 0x1.e400000000002p+6%float /\
     (get s2 (instFluxKey info) =? get s1 (instFluxKey info))%float = false) /\
    (get source (instFluxKey info) = 0%float -> a = 2%float ->
     get s1 (instFluxKey info) = 0%float /\
     get s2 (instFluxKey info) = 0%float).
Proof.
  intros Hv Hind Hwf Hm Hme Hi Hev Hpos.
  destruct (@run_corrects_source self catalog apCorrMap log before after info m me
              i source a Hv Hind Hwf Hm Hme Hi Hev Hpos)
    as (log1 & catalog1 & s1 & R1 & N1 & C1 & F1 & E1 & _).
  assert (Hev1 : evaluate m (getCentroid s1) = Evaluated a).
  { unfold getCentroid in *. rewrite C1. exact Hev. }
  destruct (@run_corrects_source self catalog1 apCorrMap log1 before after info m me
              i s1 a Hv Hind Hwf Hm Hme N1 Hev1 Hpos)
    as (log2 & catalog2 & s2 & R2 & N2 & _ & F2 & E2 & _).
  exists log1, catalog1, log2, catalog2, s1, s2.
  rewrite F2, E2, F1, E1.
  split; [exact R1|]. split; [exact R2|]. split; [exact N1|]. split; [exact N2|].
  do 4 (split; [reflexivity|]).
  split; intros Hflux Ha; rewrite Hflux, Ha; repeat split; reflexivity.
Qed.

(** C5.  For a source whose evaluated apCorr is not positive, or whose
    evaluated apCorrErr is negative, a run that returns has left the flux and
    the flux error of that source as they were and the apCorr flag set, and,
    when the field owns its apCorr columns, has written the evaluated values
    into them.  [run] itself (the naive mode) always returns. *)
Theorem run_rejects_invalid_correction (naive : bool) (self : ApplyApCorrTask)
    (catalog : list SourceRecord) (apCorrMap : ApCorrMap) (log : list LogRecord)
    (before after : list ApCorrInfo) (info : ApCorrInfo) (m me : Model)
    (i : nat) (source : SourceRecord) (a e : float) :
  values (apCorrInfoDict self) = before ++ info :: after ->
  Forall (independent info) (before ++ after) ->
  wf_info info ->
  apCorrMap (modelName info) = Some m ->
  apCorrMap (modelSigmaName info) = Some me ->
  nth_error catalog i = Some source ->
  evaluate m (getCentroid source) = Evaluated a ->
  (if naive then e = 0%float else evaluate me (getCentroid source) = Evaluated e) ->
  (a <=? 0)%float = true \/ (e <? 0)%float = true ->
  (naive = UseNaiveFluxErr ->
     exists log' catalog',
       run_with naive self catalog apCorrMap log = (log', Done catalog')) /\
  (forall log' catalog',
     run_with naive self catalog apCorrMap log = (log', Done catalog') ->
     exists source',
       nth_error catalog' i = Some source' /\
       get source' (instFluxKey info) = get source (instFluxKey info) /\
       get source' (instFluxErrKey info) = get source (instFluxErrKey info) /\
       getFlag source' (apCorrFlagKey info) = true /\
       (doApCorrColumn info = true ->
          get source' (apCorrKey info) = a /\
          get source' (apCorrErrKey info) = e)).
Proof.
  intros Hv Hind Hwf Hm Hme Hi Hev Hee Hbad. split.
  - intros ->. apply run_returns.
  - intros log' catalog' Hrun.
    destruct (@run_with_source naive self catalog catalog' apCorrMap log log'
                before after info m me i source Hv Hind Hm Hme Hrun Hi)
      as (s_a & s' & Hsa & Hs' & (Hc & HD & HF)).
    assert (Hor : ((a <=? 0) || (e <? 0))%float = true).
    { apply orb_true_iff. exact Hbad. }
    destruct (@correct_source_rejected naive (config self) info m me source a e Hwf
                (@try_evaluate_Evaluated naive m me (getCentroid source) a e Hev Hee)
                Hor)
      as (s_a' & Hsa' & _ & F1 & F2 & F3 & F4).
    rewrite Hsa in Hsa'. injection Hsa' as <-.
    exists s'. split; [exact Hs'|].
    rewrite <- !HD, <- HF by auto with apcorr.
    repeat split; auto.
    + rewrite <- HD by auto with apcorr. apply F4. assumption.
    + rewrite <- HD by auto with apcorr. apply F4. assumption.
Qed.

(** C6.  For a source at whose centroid the value model raises
    [DomainError], the local variables stay at apCorr = 1.0 and
    apCorrErr = 0.0, the body of the loop ends with the source only marked as
    failed (the loop goes on with the next source), and a run that returns has
    left the flux, the flux error and, when the field owns them, the apCorr
    columns of that source as they were, with the apCorr flag set.  [run]
    itself always returns. *)
Theorem run_skips_domain_error (naive : bool) (self : ApplyApCorrTask)
    (catalog : list SourceRecord) (apCorrMap : ApCorrMap) (log : list LogRecord)
    (before after : list ApCorrInfo) (info : ApCorrInfo) (m me : Model)
    (i : nat) (source : SourceRecord) :
  values (apCorrInfoDict self) = before ++ info :: after ->
  Forall (independent info) (before ++ after) ->
  apCorrMap (modelName info) = Some m ->
  apCorrMap (modelSigmaName info) = Some me ->
  nth_error catalog i = Some source ->
  evaluate m (getCentroid source) = DomainError ->
  try_evaluate naive m me (getCentroid source) =
    ({| apCorr := 1; apCorrErr := 0 |}, true) /\
  correct_source naive (config self) info m me source =
    Done (mark_failed (config self) info source) /\
  (naive = UseNaiveFluxErr ->
     exists log' catalog',
       run_with naive self catalog apCorrMap log = (log', Done catalog')) /\
  (forall log' catalog',
     run_with naive self catalog apCorrMap log = (log', Done catalog') ->
     exists source',
       nth_error catalog' i = Some source' /\
       get source' (instFluxKey info) = get source (instFluxKey info) /\
       get source' (instFluxErrKey info) = get source (instFluxErrKey info) /\
       getFlag source' (apCorrFlagKey info) = true /\
       (doApCorrColumn info = true ->
          get source' (apCorrKey info) = get source (apCorrKey info) /\
          get source' (apCorrErrKey info) = get source (apCorrErrKey info))).
Proof.
  intros Hv Hind Hm Hme Hi Hev.
  pose proof (@try_evaluate_DomainError naive m me (getCentroid source) Hev) as Ht.
  pose proof (@correct_source_caught naive (config self) info m me source _ Ht) as Hb.
  split; [exact Ht|]. split; [exact Hb|]. split.
  - intros ->. apply run_returns.
  - intros log' catalog' Hrun.
    destruct (@run_with_source naive self catalog catalog' apCorrMap log log'
                before after info m me i source Hv Hind Hm Hme Hrun Hi)
      as (s_a & s' & Hsa & Hs' & (Hc & HD & HF)).
    rewrite Hb in Hsa. injection Hsa as <-.
    destruct (mark_failed_facts (config self) info source) as (_ & Hg & Hf).
    exists s'. split; [exact Hs'|].
    rewrite <- !HD, <- HF by auto with apcorr.
    repeat split; auto; rewrite <- HD by auto with apcorr; apply Hg.
Qed.

(** *** The level of the logger *)

Lemma warned_app (l1 l2 : list LogRecord) : warned (l1 ++ l2) = warned l1 ++ warned l2.
Proof. apply filter_app. Qed.

Lemma warned_warnings (apCorrMap : ApCorrMap) (infos : list ApCorrInfo) :
  warned (warnings apCorrMap infos) = warnings apCorrMap infos.
Proof.
  induction infos as [|i infos IH]; simpl; [reflexivity|].
  rewrite warned_app, IH. f_equal.
  destruct (apCorrMap (modelName i)), (apCorrMap (modelSigmaName i)); reflexivity.
Qed.

Lemma warned_preamble (naive : bool) (self : ApplyApCorrTask) :
  warned (preamble naive self) = [].
Proof. reflexivity. Qed.

(** Whatever the level of the logger, the body of the loop over the fields
    leaves the catalog that [apply_field] leaves, and logs the same
    warnings; above DEBUG it logs the same records. *)
Lemma apply_field_at_level (debugging : bool)
    (statistics : ApCorrInfo -> list SourceRecord -> string)
    (naive : bool) (cfg : ApplyApCorrConfig) (apCorrMap : ApCorrMap)
    (info : ApCorrInfo) (l1 l2 : list LogRecord) (c : list SourceRecord) :
  warned l1 = warned l2 ->
  snd (apply_field_at debugging statistics naive cfg apCorrMap info l1 c) =
    snd (apply_field naive cfg apCorrMap info l2 c) /\
  warned (fst (apply_field_at debugging statistics naive cfg apCorrMap info l1 c)) =
    warned (fst (apply_field naive cfg apCorrMap info l2 c)).
Proof.
  intros Hw. unfold apply_field_at, apply_field, log_statistics.
  destruct (apCorrMap (modelName info)) as [m|],
           (apCorrMap (modelSigmaName info)) as [me|]; simpl;
    try (split; [reflexivity | rewrite !warned_app, Hw; reflexivity]).
  destruct (correct_sources naive cfg info m me c) as [c'|e c']; simpl;
    [|split; [reflexivity | exact Hw]].
  split; [reflexivity|].
  destruct debugging; [|exact Hw].
  rewrite warned_app, Hw. simpl. apply app_nil_r.
Qed.

Lemma apply_fields_at_level (debugging : bool)
    (statistics : ApCorrInfo -> list SourceRecord -> string)
    (naive : bool) (cfg : ApplyApCorrConfig) (apCorrMap : ApCorrMap)
    (infos : list ApCorrInfo) (l1 l2 : list LogRecord) (c : list SourceRecord) :
  warned l1 = warned l2 ->
  snd (apply_fields_at debugging statistics naive cfg apCorrMap infos l1 c) =
    snd (apply_fields naive cfg apCorrMap infos l2 c) /\
  warned (fst (apply_fields_at debugging statistics naive cfg apCorrMap infos l1 c)) =
    warned (fst (apply_fields naive cfg apCorrMap infos l2 c)).
Proof.
  revert l1 l2 c. induction infos as [|i infos IH]; intros l1 l2 c Hw; simpl.
  - split; [reflexivity | exact Hw].
  - destruct (@apply_field_at_level debugging statistics naive cfg apCorrMap i l1 l2 c Hw)
      as [Hs Hl].
    destruct (apply_field_at debugging statistics naive cfg apCorrMap i l1 c)
      as [la oa], (apply_field naive cfg apCorrMap i l2 c) as [lb ob].
    simpl in Hs, Hl. subst ob.
    destruct oa as [c'|e c']; [apply IH, Hl | split; [reflexivity | exact Hl]].
Qed.

(** At every level of the logger a run leaves the catalog that [run_with]
    leaves and logs the warnings that [run_with] logs. *)
Lemma run_at_level (debugging : bool)
    (statistics : ApCorrInfo -> list SourceRecord -> string)
    (naive : bool) (self : ApplyApCorrTask) (catalog : list SourceRecord)
    (apCorrMap : ApCorrMap) (log : list LogRecord) :
  snd (run_at debugging statistics naive self catalog apCorrMap log) =
    snd (run_with naive self catalog apCorrMap log) /\
  warned (fst (run_at debugging statistics naive self catalog apCorrMap log)) =
    warned (fst (run_with naive self catalog apCorrMap log)).
Proof. unfold run_at, run_with. apply apply_fields_at_level. reflexivity. Qed.

(** Above DEBUG, the run is [run_with], record for record. *)
Lemma run_at_quiet (statistics : ApCorrInfo -> list SourceRecord -> string)
    (naive : bool) (self : ApplyApCorrTask) (catalog : list SourceRecord)
    (apCorrMap : ApCorrMap) (log : list LogRecord) :
  run_at false statistics naive self catalog apCorrMap log =
    run_with naive self catalog apCorrMap log.
Proof.
  unfold run_at, run_with.
  generalize (log ++ preamble naive self). generalize (values (apCorrInfoDict self)).
  intros infos. revert catalog. induction infos as [|i infos IH]; intros c l; simpl;
    [reflexivity|].
  assert (E : apply_field_at false statistics naive (config self) apCorrMap i l c =
              apply_field naive (config self) apCorrMap i l c).
  { unfold apply_field_at, apply_field, log_statistics.
    destruct (apCorrMap (modelName i)), (apCorrMap (modelSigmaName i)); try reflexivity.
    destruct (correct_sources naive (config self) i m m0 c); reflexivity. }
  rewrite E.
  destruct (apply_field naive (config self) apCorrMap i l c) as [l' [c'|e c']];
    [apply IH | reflexivity].
Qed.

(** C7.  For a field whose value model or error model is not in the map,
    whatever the level of the logger: the body of the loop over the fields
    logs one warning, sets the apCorr flag of every source and does nothing
    else (the statistics of the debug level are not reached); and a run that
    returns has logged, at WARN, that one warning for the field, between the
    warnings of the fields before it and of those after it, and no other
    warning, and has left every source with the apCorr flag of the field set
    and its flux and flux error as they were.  [run] itself always
    returns. *)
Theorem run_flags_missing_model (debugging : bool)
    (statistics : ApCorrInfo -> list SourceRecord -> string)
    (naive : bool) (self : ApplyApCorrTask)
    (catalog : list SourceRecord) (apCorrMap : ApCorrMap) (log : list LogRecord)
    (before after : list ApCorrInfo) (info : ApCorrInfo) :
  values (apCorrInfoDict self) = before ++ info :: after ->
  Forall (independent info) (before ++ after) ->
  apCorrMap (modelName info) = None \/ apCorrMap (modelSigmaName info) = None ->
  let warning :=
    (WARN, missing_message info (apCorrMap (modelName info))
             (apCorrMap (modelSigmaName info))) in
  (forall log0 catalog0,
     apply_field_at debugging statistics naive (config self) apCorrMap info
       log0 catalog0 =
       (log0 ++ [warning],
        Done (map (fun source => setFlag source (apCorrFlagKey info) true) catalog0))) /\
  (naive = UseNaiveFluxErr ->
     exists log' catalog',
       run_at debugging statistics naive self catalog apCorrMap log =
         (log', Done catalog')) /\
  (forall log' catalog',
     run_at debugging statistics naive self catalog apCorrMap log =
       (log', Done catalog') ->
     warned log' = warned log ++ warnings apCorrMap before ++
                   [warning] ++ warnings apCorrMap after /\
     Forall2 (fun source source' =>
                getFlag source' (apCorrFlagKey info) = true /\
                get source' (instFluxKey info) = get source (instFluxKey info) /\
                get source' (instFluxErrKey info) = get source (instFluxErrKey info))
             catalog catalog').
Proof.
  intros Hv Hind Hmiss warning.
  destruct (@run_at_level debugging statistics naive self catalog apCorrMap log)
    as [Hsnd Hwarn].
  split; [|split].
  - intros log0 catalog0. unfold apply_field_at, warning.
    destruct (apCorrMap (modelName info)), (apCorrMap (modelSigmaName info));
      try reflexivity.
    destruct Hmiss; discriminate.
  - intros ->. destruct (run_returns self catalog apCorrMap log) as (l & c & Hrun).
    unfold run in Hrun. rewrite Hrun in Hsnd. simpl in Hsnd.
    destruct (run_at debugging statistics UseNaiveFluxErr self catalog apCorrMap log)
      as [l' o]. simpl in Hsnd. subst o. eauto.
  - intros log' catalog' Hrun. rewrite Hrun in Hsnd, Hwarn. simpl in Hsnd, Hwarn.
    destruct (run_with naive self catalog apCorrMap log) as [lp op] eqn:Hplain.
    simpl in Hsnd, Hwarn. subst op.
    destruct (@run_with_missing naive self catalog catalog' apCorrMap log lp
                before after info Hv Hind Hmiss Hplain) as (Hag & Hlog).
    split.
    + rewrite Hwarn, Hlog, !warned_app, warned_preamble, !warned_warnings.
      reflexivity.
    + eapply Forall2_impl; [|exact Hag].
      intros s s' (Hc & HD & HF). simpl in *.
      rewrite <- HF, <- !HD by auto with apcorr.
      repeat split. apply getFlag_setFlag_same.
Qed.

(** ** Construction of ApCorrInfo *)

Lemma append_inj (p a b : string) : (p ++ a)%string = (p ++ b)%string -> a = b.
Proof.
  induction p as [|c p IH]; simpl; [auto|]. intros [= H]. apply IH, H.
Qed.

Lemma length_append (a b : string) :
  String.length (a ++ b) = (String.length a + String.length b)%nat.
Proof. induction a as [|c a IH]; simpl; [reflexivity | rewrite IH; reflexivity]. Qed.

(** No name of an apCorrErr column is the name of an apCorr column. *)
Lemma apCorr_names_differ (p q : string) :
  (p ++ "_apCorrErr")%string <> (q ++ "_apCorr")%string.
Proof.
  revert q. induction p as [|c p IH]; intros q; simpl.
  - destruct q as [|c1 [|c2 [|c3 [|c4 q]]]]; simpl; try discriminate.
    intros H. apply (f_equal String.length) in H. simpl in H.
    rewrite length_append in H. simpl in H. lia.
  - destruct q as [|c1 q]; simpl.
    + intros H. apply (f_equal String.length) in H. simpl in H.
      rewrite length_append in H. simpl in H. lia.
    + intros [= _ H]. exact (IH q H).
Qed.

Lemma field_index_lt (A : Type) (n : string) (l : list (string * A)) (k : Key) :
  field_index n l = Some k -> (k < length l)%nat.
Proof.
  revert k. induction l as [|[n' v] l IH]; simpl; intros k; [discriminate|].
  destruct (String.eqb n' n).
  - intros [= <-]. lia.
  - destruct (field_index n l) as [k'|]; simpl; [|discriminate].
    intros [= <-]. specialize (IH k' eq_refl). lia.
Qed.

Lemma field_index_app (A : Type) (n : string) (l l' : list (string * A)) (k : Key) :
  field_index n l = Some k -> field_index n (l ++ l') = Some k.
Proof.
  revert k. induction l as [|[n' v] l IH]; simpl; intros k; [discriminate|].
  destruct (String.eqb n' n); [auto|].
  destruct (field_index n l) as [k'|]; simpl; [|discriminate].
  intros [= <-]. rewrite (IH k' eq_refl). reflexivity.
Qed.

Lemma find_lt (schema : Schema) (n : string) (k : Key) :
  find schema n = Some k -> (k < length (fields schema))%nat.
Proof. unfold find. apply field_index_lt. Qed.

Lemma has_column_find (schema : Schema) (n : string) (k : Key) :
  has_column schema n k -> find schema n = Some k.
Proof.
  intros [Ha Hf]. unfold find, AliasMap_apply. rewrite Ha. exact Hf.
Qed.

(** C8.  Let B ([name_]) be corrected by reference to A ([model]), B other
    than A, in a schema that holds B's flux, flux error and flag and where
    A's apCorr and apCorrErr columns exist.  Then constructing B's ApCorrInfo
    succeeds and adds one field only, B's apCorr flag: no apCorr or apCorrErr
    column is created.  It installs the two aliases from B's names to A's;
    B's apCorrKey and apCorrErrKey are the keys of A's columns, and B's names
    resolve to them in the resulting schema; B's flag key is new, different
    from every key the schema had (A's flag among them). *)
Theorem proxy_aliases_model_columns (schema : Schema) (model name_ : string)
    (kF kE kG kA kAe : Key) :
  name_ <> model ->
  find schema (name_ ++ "_instFlux")%string = Some kF ->
  find schema (name_ ++ "_instFluxErr")%string = Some kE ->
  find schema (name_ ++ "_flag")%string = Some kG ->
  has_column schema (model ++ "_apCorr")%string kA ->
  has_column schema (model ++ "_apCorrErr")%string kAe ->
  exists info schema',
    ApCorrInfo_init model (Some name_) schema = inr (info, schema') /\
    doApCorrColumn info = false /\
    fields schema' = fields schema ++ [((name_ ++ "_flag_apCorr")%string, Flag)] /\
    aliases schema' =
      ((name_ ++ "_apCorrErr")%string, (model ++ "_apCorrErr")%string) ::
      ((name_ ++ "_apCorr")%string, (model ++ "_apCorr")%string) ::
      aliases schema /\
    apCorrKey info = kA /\
    apCorrErrKey info = kAe /\
    find schema' (name_ ++ "_apCorr")%string = find schema' (model ++ "_apCorr")%string /\
    find schema' (name_ ++ "_apCorr")%string = Some kA /\
    find schema' (name_ ++ "_apCorrErr")%string = find schema' (model ++ "_apCorrErr")%string /\
    find schema' (name_ ++ "_apCorrErr")%string = Some kAe /\
    apCorrFlagKey info = length (fields schema) /\
    (forall n k, find schema n = Some k -> k <> apCorrFlagKey info).
Proof.
  intros Hne HF HE HG [HAa HAf] [HEa HEf].
  assert (Hneq : String.eqb name_ model = false) by (apply String.eqb_neq, Hne).
  assert (Hcont : contains schema (model ++ "_apCorr") = true).
  { unfold contains. rewrite (has_column_find (conj HAa HAf)). reflexivity. }
  assert (Hd1 : String.eqb (name_ ++ "_apCorrErr") (name_ ++ "_apCorr") = false).
  { apply String.eqb_neq. intros H. apply append_inj in H. discriminate. }
  assert (Hd2 : forall x, String.eqb (name_ ++ x) (model ++ x) = false).
  { intros x. apply String.eqb_neq. intros H. apply Hne.
    clear - H. revert model H. induction name_ as [|c n IH]; intros [|c' m']; simpl.
    - reflexivity.
    - intros H. exfalso.
      assert (L : String.length x = String.length (String c' (m' ++ x))) by (rewrite <- H; reflexivity).
      simpl in L. rewrite length_append in L. lia.
    - intros H. exfalso.
      assert (L : String.length (String c (n ++ x)) = String.length x) by (rewrite H; reflexivity).
      simpl in L. rewrite length_append in L. lia.
    - intros [= -> H]. f_equal. apply IH, H. }
  eexists. eexists.
  unfold ApCorrInfo_init, bind, find_key, has_field, set_alias, add_field, ret.
  rewrite HF, HE, HG, Hcont, Hneq. simpl orb. cbv iota.
  pose proof (@field_index_app _ (model ++ "_apCorr") (fields schema)
                [((name_ ++ "_flag_apCorr")%string, Flag)] kA HAf) as HAf'.
  pose proof (@field_index_app _ (model ++ "_apCorrErr") (fields schema)
                [((name_ ++ "_flag_apCorr")%string, Flag)] kAe HEf) as HEf'.
  assert (Hd3 : String.eqb (name_ ++ "_apCorrErr") (model ++ "_apCorr") = false).
  { apply String.eqb_neq, apCorr_names_differ. }
  assert (Hd4 : String.eqb (name_ ++ "_apCorr") (model ++ "_apCorrErr") = false).
  { apply String.eqb_neq. intros H. symmetry in H. exact (apCorr_names_differ _ _ H). }
  assert (Hlt : forall n k, find schema n = Some k -> k <> length (fields schema)).
  { intros n k Hk. apply find_lt in Hk. lia. }
  unfold find, AliasMap_apply, AliasMap_set, addField in *.
  split.
  - repeat (first [ rewrite Hd1 | rewrite String.eqb_refl | rewrite HAf
                  | rewrite HEf | progress simpl ]).
    reflexivity.
  - repeat (first [ rewrite Hd1 | rewrite String.eqb_refl | rewrite Hd2
                  | rewrite Hd3 | rewrite Hd4
                  | rewrite HAa | rewrite HEa | rewrite HAf' | rewrite HEf'
                  | progress simpl ]).
    repeat split; try reflexivity. exact Hlt.
Qed.

(** The keys an ApCorrInfo gets: those it looks up are keys of the schema
    it was given, its flag is new, and so are its apCorr columns when it owns
    them. *)
Lemma ApCorrInfo_init_keys (model : string) (name_arg : option string)
    (schema schema' : Schema) (info : ApCorrInfo) :
  ApCorrInfo_init model name_arg schema = inr (info, schema') ->
  (instFluxKey info < length (fields schema))%nat /\
  (instFluxErrKey info < length (fields schema))%nat /\
  (fluxFlagKey info < length (fields schema))%nat /\
  (length (fields schema) <= apCorrFlagKey info)%nat /\
  (doApCorrColumn info = true ->
     apCorrKey info = length (fields schema) /\
     apCorrErrKey info = S (length (fields schema)) /\
     apCorrFlagKey info = S (S (length (fields schema)))).
Proof.
  unfold ApCorrInfo_init, bind, find_key, has_field, set_alias, add_field, ret.
  set (name_ := match name_arg with Some n => n | None => model end).
  destruct (find schema (name_ ++ "_instFlux")) as [kF|] eqn:HF; [|discriminate].
  destruct (find schema (name_ ++ "_instFluxErr")) as [kE|] eqn:HE; [|discriminate].
  destruct (find schema (name_ ++ "_flag")) as [kG|] eqn:HG; [|discriminate].
  apply find_lt in HF, HE, HG.
  destruct (String.eqb name_ model || negb (contains schema (model ++ "_apCorr")))
    eqn:Hown.
  - unfold addField. simpl. intros [= <- <-]. simpl.
    rewrite !length_app. simpl. repeat split; try assumption; lia.
  - simpl.
    destruct (find _ (name_ ++ "_apCorr")) as [kA|]; [|discriminate].
    destruct (find _ (name_ ++ "_apCorrErr")) as [kAe|]; [|discriminate].
    unfold addField. simpl. intros [= <- <-]. simpl.
    repeat split; try assumption; try lia; discriminate.
Qed.

(** An ApCorrInfo that was constructed has pairwise different keys as soon
    as its flux and its flux error are two columns. *)
Lemma ApCorrInfo_init_wf (model : string) (name_arg : option string)
    (schema schema' : Schema) (info : ApCorrInfo) :
  ApCorrInfo_init model name_arg schema = inr (info, schema') ->
  instFluxKey info <> instFluxErrKey info ->
  wf_info info.
Proof.
  intros Hinit Hne.
  destruct (ApCorrInfo_init_keys _ _ _ Hinit) as (HF & HE & HG & Hflag & Hown).
  unfold wf_info, keysD, keysF. split.
  - destruct (doApCorrColumn info).
    + destruct (Hown eq_refl) as (-> & -> & _).
      repeat (constructor; [simpl; lia|]). constructor.
    + repeat (constructor; [simpl; intuition|]). constructor.
  - repeat (constructor; [simpl; lia|]). constructor.
Qed.

(** ** Names of fields *)

Fixpoint drop (n : nat) (s : string) : string :=
  match n, s with
  | O, _ => s
  | S n', String _ s' => drop n' s'
  | S _, EmptyString => EmptyString
  end.

(** [s.endswith(suffix)] *)
Definition ends_with (suffix s : string) : bool :=
  String.eqb (drop (String.length s - String.length suffix) s) suffix.

Lemma drop_append (r b : string) : drop (String.length r) (r ++ b) = b.
Proof. induction r as [|c r IH]; simpl; [reflexivity | exact IH]. Qed.

Lemma ends_with_append (r b : string) : ends_with b (r ++ b) = true.
Proof.
  unfold ends_with. rewrite length_append.
  replace (String.length r + String.length b - String.length b)%nat
    with (String.length r) by lia.
  rewrite drop_append. apply String.eqb_refl.
Qed.

(** Two names that are equal end alike. *)
Lemma append_eq_ends (p q a b : string) :
  (p ++ a)%string = (q ++ b)%string ->
  ends_with b a = true \/ ends_with a b = true.
Proof.
  revert q. induction p as [|c p IH]; intros q; simpl.
  - intros ->. left. apply ends_with_append.
  - destruct q as [|c' q]; simpl.
    + intros <-. right. apply (ends_with_append (String c p) a).
    + intros [= _ H]. exact (IH q H).
Qed.

Lemma append_inj_r (n m x : string) : (n ++ x)%string = (m ++ x)%string -> n = m.
Proof.
  revert m. induction n as [|c n IH]; intros [|c' m]; simpl.
  - reflexivity.
  - intros H. exfalso. apply (f_equal String.length) in H. simpl in H.
    rewrite length_append in H. lia.
  - intros H. exfalso. apply (f_equal String.length) in H. simpl in H.
    rewrite length_append in H. lia.
  - intros [= -> H]. f_equal. apply IH, H.
Qed.

Ltac names_differ :=
  let H := fresh in
  intros H; apply append_eq_ends in H; vm_compute in H; destruct H; discriminate.

(** The names [ApCorrInfo] looks up: a flux, a flux error, a flag. *)
Definition measured_name (x : string) : Prop :=
  exists n, x = (n ++ "_instFlux")%string \/ x = (n ++ "_instFluxErr")%string \/
            x = (n ++ "_flag")%string.

(** None of them is the name of anything [ApCorrInfo] adds. *)
Lemma measured_name_not_added (x n : string) :
  measured_name x ->
  x <> (n ++ "_apCorr")%string /\ x <> (n ++ "_apCorrErr")%string /\
  x <> (n ++ "_flag_apCorr")%string.
Proof.
  intros (m & [-> | [-> | ->]]); repeat split; names_differ.
Qed.

Lemma field_index_inj (A : Type) (x y : string) (l : list (string * A)) (k : Key) :
  field_index x l = Some k -> field_index y l = Some k -> x = y.
Proof.
  revert k. induction l as [|[n v] l IH]; simpl; intros k; [discriminate|].
  destruct (String.eqb n x) eqn:Ex, (String.eqb n y) eqn:Ey.
  - intros _ _. apply String.eqb_eq in Ex, Ey. congruence.
  - intros [= <-]. destruct (field_index y l); discriminate.
  - destruct (field_index x l); simpl; [|discriminate]. intros [= <-]. discriminate.
  - destruct (field_index x l) as [kx|]; simpl; [|discriminate].
    destruct (field_index y l) as [ky|]; simpl; [|intros; discriminate].
    intros [= <-] [= ->]. exact (IH kx eq_refl eq_refl).
Qed.

Lemma field_index_snoc_other (A : Type) (x y : string) (v : A) (l : list (string * A)) :
  x <> y -> field_index x (l ++ [(y, v)]) = field_index x l.
Proof.
  intros Hne. induction l as [|[n w] l IH]; simpl.
  - destruct (String.eqb_spec y x); [congruence | reflexivity].
  - destruct (String.eqb n x); [reflexivity | rewrite IH; reflexivity].
Qed.

(** ** Construction of ApCorrInfo: what it does to the schema *)

Lemma ApCorrInfo_init_shape (model : string) (name_arg : option string)
    (schema schema' : Schema) (info : ApCorrInfo) :
  ApCorrInfo_init model name_arg schema = inr (info, schema') ->
  let name_ := match name_arg with None => model | Some n => n end in
  name info = name_ /\
  modelName info = (model ++ "_instFlux")%string /\
  modelSigmaName info = (model ++ "_instFluxErr")%string /\
  find schema (name_ ++ "_instFlux")%string = Some (instFluxKey info) /\
  find schema (name_ ++ "_instFluxErr")%string = Some (instFluxErrKey info) /\
  find schema (name_ ++ "_flag")%string = Some (fluxFlagKey info) /\
  doApCorrColumn info =
    (String.eqb name_ model || negb (contains schema (model ++ "_apCorr")%string)) /\
  ((doApCorrColumn info = true /\
    fields schema' =
      fields schema ++ [((name_ ++ "_apCorr")%string, Double);
                        ((name_ ++ "_apCorrErr")%string, Double);
                        ((name_ ++ "_flag_apCorr")%string, Flag)] /\
    aliases schema' = aliases schema /\
    apCorrKey info = length (fields schema) /\
    apCorrErrKey info = S (length (fields schema)) /\
    apCorrFlagKey info = S (S (length (fields schema)))) \/
   (doApCorrColumn info = false /\
    fields schema' = fields schema ++ [((name_ ++ "_flag_apCorr")%string, Flag)] /\
    aliases schema' =
      ((name_ ++ "_apCorrErr")%string, (model ++ "_apCorrErr")%string) ::
      ((name_ ++ "_apCorr")%string, (model ++ "_apCorr")%string) ::
      aliases schema /\
    apCorrFlagKey info = length (fields schema))).
Proof.
  unfold ApCorrInfo_init, bind, find_key, has_field, set_alias, add_field, ret.
  set (name_ := match name_arg with Some n => n | None => model end).
  destruct (find schema (name_ ++ "_instFlux")) as [kF|] eqn:HF; [|discriminate].
  destruct (find schema (name_ ++ "_instFluxErr")) as [kE|] eqn:HE; [|discriminate].
  destruct (find schema (name_ ++ "_flag")) as [kG|] eqn:HG; [|discriminate].
  destruct (String.eqb name_ model || negb (contains schema (model ++ "_apCorr")))
    eqn:Hown.
  - unfold addField. simpl. intros [= <- <-]. simpl.
    repeat (split; [reflexivity|]). left.
    rewrite <- !app_assoc, !length_app. simpl.
    repeat split; try reflexivity; lia.
  - simpl.
    destruct (find _ (name_ ++ "_apCorr")) as [kA|]; [|discriminate].
    destruct (find _ (name_ ++ "_apCorrErr")) as [kAe|]; [|discriminate].
    unfold addField. simpl. intros [= <- <-]. simpl.
    repeat (split; [reflexivity|]). right. repeat split; reflexivity.
Qed.

(** X8.  A construction of ApCorrInfo that raises has added no field.
    Either it has left the schema as it was given, and the name that was not
    found is that of the flux, the flux error or the flag; or the field is a
    proxy whose model has an apCorr column, the two aliases are installed,
    and the name that was not found is one of them. *)
Theorem ApCorrInfo_init_raises (model : string) (name_arg : option string)
    (schema schema' : Schema) (n : string) :
  ApCorrInfo_init model name_arg schema = inl (NotFound n, schema') ->
  let name_ := match name_arg with None => model | Some n => n end in
  fields schema' = fields schema /\
  ((schema' = schema /\ find schema n = None /\
    In n [(name_ ++ "_instFlux")%string; (name_ ++ "_instFluxErr")%string;
          (name_ ++ "_flag")%string]) \/
   (name_ <> model /\ contains schema (model ++ "_apCorr")%string = true /\
    aliases schema' =
      ((name_ ++ "_apCorrErr")%string, (model ++ "_apCorrErr")%string) ::
      ((name_ ++ "_apCorr")%string, (model ++ "_apCorr")%string) ::
      aliases schema /\
    find schema' n = None /\
    In n [(name_ ++ "_apCorr")%string; (name_ ++ "_apCorrErr")%string])).
Proof.
  unfold ApCorrInfo_init, bind, find_key, has_field, set_alias, add_field, ret.
  set (name_ := match name_arg with Some n => n | None => model end).
  destruct (find schema (name_ ++ "_instFlux")) as [kF|] eqn:HF;
    [|intros [= <- <-]; split; [reflexivity | left; simpl; auto]].
  destruct (find schema (name_ ++ "_instFluxErr")) as [kE|] eqn:HE;
    [|intros [= <- <-]; split; [reflexivity | left; simpl; auto]].
  destruct (find schema (name_ ++ "_flag")) as [kG|] eqn:HG;
    [|intros [= <- <-]; split; [reflexivity | left; simpl; auto 6]].
  destruct (String.eqb name_ model) eqn:En; simpl orb.
  - unfold addField. simpl. discriminate.
  - destruct (contains schema (model ++ "_apCorr")) eqn:Ec; simpl negb; cbv iota.
    + apply String.eqb_neq in En. simpl.
      destruct (find _ (name_ ++ "_apCorr")) as [kA|] eqn:HA.
      * destruct (find _ (name_ ++ "_apCorrErr")) as [kAe|] eqn:HAe.
        -- unfold addField. simpl. discriminate.
        -- intros [= <- <-]. split; [reflexivity|]. right.
           repeat split; simpl; auto.
      * intros [= <- <-]. split; [reflexivity|]. right.
        repeat split; simpl; auto.
    + unfold addField. simpl. discriminate.
Qed.

(** ** Sets and the dictionary of the task *)

Lemma mem_In (x : string) (l : list string) : mem x l = true <-> In x l.
Proof.
  unfold mem. rewrite existsb_exists. split.
  - intros (y & Hy & E). apply String.eqb_eq in E. subst y. exact Hy.
  - intros H. exists x. split; [exact H | apply String.eqb_refl].
Qed.

Lemma mem_false (x : string) (l : list string) : mem x l = false <-> ~ In x l.
Proof.
  rewrite <- mem_In. destruct (mem x l); split; intros H; congruence.
Qed.

Lemma In_set_of (x : string) (l : list string) : In x (set_of l) <-> In x l.
Proof.
  induction l as [|y l IH]; simpl; [tauto|].
  destruct (mem y l) eqn:E; simpl; rewrite IH; [|tauto].
  apply mem_In in E. split; [tauto|]. intros [<-|H]; tauto.
Qed.

Lemma NoDup_set_of (l : list string) : NoDup (set_of l).
Proof.
  induction l as [|y l IH]; simpl; [constructor|].
  destruct (mem y l) eqn:E; [exact IH|].
  constructor; [|exact IH]. rewrite In_set_of. apply mem_false, E.
Qed.

Lemma In_difference (x : string) (a b : list string) :
  In x (difference a b) <-> In x a /\ ~ In x b.
Proof.
  unfold difference. rewrite filter_In, negb_true_iff, mem_false. reflexivity.
Qed.

Lemma dict_set_keys (n x : string) (v : ApCorrInfo) (d : list (string * ApCorrInfo)) :
  In x (map fst (dict_set n v d)) <-> x = n \/ In x (map fst d).
Proof.
  induction d as [|[m w] d IH]; simpl.
  - split; [intros [<-|[]]; auto | intros [->|[]]; auto].
  - destruct (String.eqb_spec m n) as [->|Hne]; simpl.
    + split; [intros [<-|H]; auto | intros [->|[<-|H]]; auto].
    + rewrite IH. split; [intros [<-|[->|H]]; auto | intros [->|[<-|H]]; auto].
Qed.

Lemma NoDup_dict_set (n : string) (v : ApCorrInfo) (d : list (string * ApCorrInfo)) :
  NoDup (map fst d) -> NoDup (map fst (dict_set n v d)).
Proof.
  induction d as [|[m w] d IH]; simpl; intros H.
  - constructor; [tauto | constructor].
  - inversion H as [|? ? Hm Hd]; subst.
    destruct (String.eqb_spec m n) as [->|Hne]; simpl.
    + constructor; assumption.
    + constructor; [|apply IH, Hd].
      rewrite dict_set_keys. intros [->|Hin]; [congruence | exact (Hm Hin)].
Qed.

Lemma In_dict_set (n n' : string) (v v' : ApCorrInfo) (d : list (string * ApCorrInfo)) :
  NoDup (map fst d) ->
  In (n', v') (dict_set n v d) ->
  (n' = n /\ v' = v) \/ (n' <> n /\ In (n', v') d).
Proof.
  induction d as [|[m w] d IH]; simpl; intros Hnd.
  - intros [[= <- <-]|[]]. left. auto.
  - inversion Hnd as [|? ? Hm Hd]; subst.
    destruct (String.eqb_spec m n) as [->|Hne]; simpl.
    + intros [[= <- <-]|H]; [left; auto|].
      right. split; [|auto]. intros ->. apply Hm.
      apply (in_map fst) in H. exact H.
    + intros [[= <- <-]|H]; [right; auto|].
      destruct (IH Hd H) as [?|[? ?]]; auto.
Qed.

(** ** Construction of the task *)

Section InitFacts.

Variable config_ : ApplyApCorrConfig.
Variable registered : list string.
Variable initial : Schema.

(** A schema in which the fields that [ApCorrInfo] looks up are where the
    initial schema has them, and none of their names is an alias. *)
Definition stable (s : Schema) : Prop :=
  (length (fields initial) <= length (fields s))%nat /\
  forall x, measured_name x ->
    assoc x (aliases s) = None /\
    field_index x (fields s) = field_index x (fields initial).

Lemma stable_find (s : Schema) (x : string) :
  stable s -> measured_name x -> find s x = field_index x (fields initial).
Proof.
  intros [_ H] Hx. destruct (H x Hx) as [Ha Hf].
  unfold find, AliasMap_apply. rewrite Ha. exact Hf.
Qed.

Lemma stable_contains (s : Schema) (x : string) :
  stable initial -> stable s -> measured_name x ->
  contains s x = contains initial x.
Proof.
  intros H0 Hs Hx. unfold contains.
  rewrite (stable_find Hs Hx), (stable_find H0 Hx). reflexivity.
Qed.

Lemma measured_instFlux (n : string) : measured_name (n ++ "_instFlux").
Proof. exists n. auto. Qed.

Lemma measured_instFluxErr (n : string) : measured_name (n ++ "_instFluxErr").
Proof. exists n. auto. Qed.

Lemma measured_flag (n : string) : measured_name (n ++ "_flag").
Proof. exists n. auto. Qed.

Lemma stable_addField (s : Schema) (y : string) (ty : FieldType) :
  (forall x, measured_name x -> x <> y) ->
  stable s -> stable (fst (addField s y ty)).
Proof.
  intros Hy [Hlen H]. split; simpl.
  - rewrite length_app. simpl. lia.
  - intros x Hx. destruct (H x Hx) as [Ha Hf]. split; [exact Ha|].
    rewrite field_index_snoc_other; [exact Hf | apply Hy, Hx].
Qed.

Lemma stable_AliasMap_set (s : Schema) (y target : string) :
  (forall x, measured_name x -> x <> y) ->
  stable s -> stable (AliasMap_set y target s).
Proof.
  intros Hy [Hlen H]. split; simpl; [exact Hlen|].
  intros x Hx. destruct (H x Hx) as [Ha Hf]. split; [|exact Hf].
  destruct (String.eqb_spec y x) as [->|_]; [|exact Ha].
  exfalso. exact (Hy x Hx eq_refl).
Qed.

(** What [__init__] may put under the name [n]: the information of [n]
    itself when [n] is registered and not ignored, of the model of [n] when
    [n] is not registered and is a proxy. *)
Definition allowed (n model : string) : Prop :=
  (model = n /\ In n registered /\ ~ In n (ignoreList config_)) \/
  (In (n, model) (proxies config_) /\ ~ In n registered).

(** An entry of the dictionary, in a schema of [hi] fields. *)
Definition entry_ok (hi : nat) (n : string) (info : ApCorrInfo) : Prop :=
  name info = n /\
  (exists model, modelName info = (model ++ "_instFlux")%string /\
                 modelSigmaName info = (model ++ "_instFluxErr")%string /\
                 allowed n model) /\
  field_index (n ++ "_instFlux") (fields initial) = Some (instFluxKey info) /\
  field_index (n ++ "_instFluxErr") (fields initial) = Some (instFluxErrKey info) /\
  field_index (n ++ "_flag") (fields initial) = Some (fluxFlagKey info) /\
  (length (fields initial) <= apCorrFlagKey info < hi)%nat /\
  (doApCorrColumn info = true ->
     (length (fields initial) <= apCorrKey info < hi)%nat /\
     (length (fields initial) <= apCorrErrKey info < hi)%nat /\
     apCorrKey info <> apCorrErrKey info).

(** The keys [ApCorrInfo] made. *)
Definition made (info : ApCorrInfo) : list Key :=
  apCorrFlagKey info ::
  (if doApCorrColumn info then [apCorrKey info; apCorrErrKey info] else []).

(** What holds of the schema and of the dictionary all along. *)
Definition Inv (s : Schema) (d : list (string * ApCorrInfo)) : Prop :=
  stable s /\
  NoDup (map fst d) /\
  (forall n info, In (n, info) d -> entry_ok (length (fields s)) n info) /\
  (forall n1 i1 n2 i2, In (n1, i1) d -> In (n2, i2) d -> n1 <> n2 ->
     forall k, In k (made i1) -> ~ In k (made i2)).

Lemma entry_ok_weaken (lo hi : nat) (n : string) (info : ApCorrInfo) :
  (lo <= hi)%nat -> entry_ok lo n info -> entry_ok hi n info.
Proof.
  intros Hle (H1 & H2 & H3 & H4 & H5 & H6 & H7).
  repeat (split; [assumption|]). split; [lia|].
  intros Hown. destruct (H7 Hown) as (A & B & C). repeat split; first [lia | exact C].
Qed.

Lemma entry_ok_made (hi : nat) (n : string) (info : ApCorrInfo) (k : Key) :
  entry_ok hi n info -> In k (made info) ->
  (length (fields initial) <= k < hi)%nat.
Proof.
  intros (_ & _ & _ & _ & _ & H6 & H7). unfold made.
  destruct (doApCorrColumn info); simpl.
  - destruct (H7 eq_refl) as (A & B & _). intros [<-|[<-|[<-|[]]]]; assumption.
  - intros [<-|[]]. exact H6.
Qed.

(** One more [ApCorrInfo]. *)
Lemma ApCorrInfo_init_Inv (model : string) (name_arg : option string)
    (s s' : Schema) (info : ApCorrInfo) (d : list (string * ApCorrInfo)) :
  let name_ := match name_arg with None => model | Some n => n end in
  allowed name_ model ->
  Inv s d ->
  ApCorrInfo_init model name_arg s = inr (info, s') ->
  Inv s' (dict_set name_ info d).
Proof.
  intros name_ Hallowed (Hst & Hnd & Hok & Hapart) Hinit.
  destruct (ApCorrInfo_init_shape _ _ _ Hinit)
    as (Hname & Hmn & Hmsn & HF & HE & HG & _ & Hshape).
  fold name_ in Hname, HF, HE, HG, Hshape.
  rewrite (stable_find Hst (measured_instFlux name_)) in HF.
  rewrite (stable_find Hst (measured_instFluxErr name_)) in HE.
  rewrite (stable_find Hst (measured_flag name_)) in HG.
  assert (Hlen0 : (length (fields initial) <= length (fields s))%nat) by apply Hst.
  assert (Hnew : stable s' /\ (length (fields s) <= length (fields s'))%nat /\
                 entry_ok (length (fields s')) name_ info /\
                 (forall k, In k (made info) -> (length (fields s) <= k)%nat)).
  { destruct Hshape as [(Hown & Hf & Ha & K1 & K2 & K3)|(Hown & Hf & Ha & K3)].
    - split; [|split; [|split]].
      + pose proof (@stable_addField
                      (fst (addField (fst (addField s (name_ ++ "_apCorr") Double))
                                     (name_ ++ "_apCorrErr") Double))
                      (name_ ++ "_flag_apCorr") Flag) as H3.
        simpl in H3. destruct s' as [f' a']. simpl in Hf, Ha. subst f' a'.
        rewrite <- !app_assoc in H3. simpl in H3. apply H3.
        * intros x Hx. apply (measured_name_not_added name_ Hx).
        * pose proof (@stable_addField (fst (addField s (name_ ++ "_apCorr") Double))
                        (name_ ++ "_apCorrErr") Double) as H2.
          simpl in H2. rewrite <- app_assoc in H2. simpl in H2. apply H2.
          -- intros x Hx. apply (measured_name_not_added name_ Hx).
          -- apply (@stable_addField s (name_ ++ "_apCorr") Double); [|exact Hst].
             intros x Hx. apply (measured_name_not_added name_ Hx).
      + rewrite Hf, length_app. simpl. lia.
      + unfold entry_ok. rewrite Hf, length_app, K1, K2, K3. simpl.
        split; [exact Hname|]. split; [exists model; auto|].
        repeat (split; [assumption|]). split; [lia|].
        intros _. repeat split; lia.
      + unfold made. rewrite Hown, K1, K2, K3. simpl. intros k [<-|[<-|[<-|[]]]]; lia.
    - split; [|split; [|split]].
      + pose proof (@stable_addField
                      (AliasMap_set (name_ ++ "_apCorrErr") (model ++ "_apCorrErr")
                         (AliasMap_set (name_ ++ "_apCorr") (model ++ "_apCorr") s))
                      (name_ ++ "_flag_apCorr") Flag) as H3.
        simpl in H3. destruct s' as [f' a']. simpl in Hf, Ha. subst f' a'.
        apply H3.
        * intros x Hx. apply (measured_name_not_added name_ Hx).
        * apply stable_AliasMap_set.
          -- intros x Hx. apply (measured_name_not_added name_ Hx).
          -- apply stable_AliasMap_set; [|exact Hst].
             intros x Hx. apply (measured_name_not_added name_ Hx).
      + rewrite Hf, length_app. simpl. lia.
      + unfold entry_ok. rewrite Hf, length_app, K3, Hown. simpl.
        split; [exact Hname|]. split; [exists model; auto|].
        repeat (split; [assumption|]). split; [lia|]. discriminate.
      + unfold made. rewrite Hown, K3. simpl. intros k [<-|[]]. lia. }
  destruct Hnew as (Hst' & Hlen & Hentry & Hfresh).
  split; [exact Hst'|]. split; [apply NoDup_dict_set, Hnd|]. split.
  - intros n i Hin.
    destruct (@In_dict_set name_ n info i d Hnd Hin) as [[-> ->]|[_ Hin']].
    + exact Hentry.
    + eapply entry_ok_weaken; [exact Hlen | apply Hok, Hin'].
  - intros n1 i1 n2 i2 H1 H2 Hne k Hk1 Hk2.
    destruct (@In_dict_set name_ n1 info i1 d Hnd H1) as [[-> ->]|[_ H1']],
             (@In_dict_set name_ n2 info i2 d Hnd H2) as [[-> ->]|[_ H2']].
    + congruence.
    + pose proof (entry_ok_made (Hok _ _ H2') Hk2). pose proof (Hfresh _ Hk1). lia.
    + pose proof (entry_ok_made (Hok _ _ H1') Hk1). pose proof (Hfresh _ Hk2). lia.
    + exact (Hapart _ _ _ _ H1' H2' Hne k Hk1 Hk2).
Qed.

Lemma init_registered_Inv (names : list string) (d d' : list (string * ApCorrInfo))
    (s s' : Schema) :
  stable initial ->
  (forall n, In n names -> In n registered /\ ~ In n (ignoreList config_)) ->
  Inv s d ->
  init_registered names d s = inr (d', s') ->
  Inv s' d' /\
  (forall x, In x (map fst d') <->
             In x (map fst d) \/
             (In x names /\ contains initial (x ++ "_instFlux") = true)).
Proof.
  intros H0. revert d s. induction names as [|n names IH]; intros d s Hnames Hinv; simpl.
  - unfold ret. intros [= <- <-]. split; [exact Hinv|]. intros x. tauto.
  - unfold bind at 1. unfold has_field.
    assert (Hc : contains s (n ++ "_instFlux") = contains initial (n ++ "_instFlux")).
    { apply stable_contains; [exact H0 | apply Hinv | apply measured_instFlux]. }
    rewrite Hc. destruct (contains initial (n ++ "_instFlux")) eqn:Ec; cbv [negb].
    + unfold bind. cbv beta.
      destruct (ApCorrInfo_init n None s) as [[err s1]|[info s1]] eqn:Einit;
        [discriminate|].
      intros Hloop.
      assert (Hinv1 : Inv s1 (dict_set n info d)).
      { apply (@ApCorrInfo_init_Inv n None s s1 info d); [|exact Hinv | exact Einit].
        left. destruct (Hnames n (or_introl eq_refl)). auto. }
      destruct (IH _ _ (fun x Hx => Hnames x (or_intror Hx)) Hinv1 Hloop) as [Hfin Hkeys].
      split; [exact Hfin|]. intros x. rewrite Hkeys, dict_set_keys. split.
      * intros [[->|H]|[H1 H2]]; auto.
      * intros [H|[[<-|H1] H2]]; auto.
    + intros Hloop.
      destruct (IH _ _ (fun x Hx => Hnames x (or_intror Hx)) Hinv Hloop) as [Hfin Hkeys].
      split; [exact Hfin|]. intros x. rewrite Hkeys. split.
      * intros [H|[H1 H2]]; auto.
      * intros [H|[[<-|H1] H2]]; auto. congruence.
Qed.

Lemma init_proxies_Inv (items : list (string * string))
    (d d' : list (string * ApCorrInfo)) (s s' : Schema) :
  stable initial ->
  (forall n m, In (n, m) items -> In (n, m) (proxies config_)) ->
  Inv s d ->
  init_proxies (getApCorrNameSet registered) items d s = inr (d', s') ->
  Inv s' d' /\
  (forall x, In x (map fst d') <->
             In x (map fst d) \/
             (~ In x registered /\ In x (map fst items) /\
              contains initial (x ++ "_instFlux") = true)).
Proof.
  intros H0. revert d s.
  induction items as [|[n m] items IH]; intros d s Hitems Hinv; simpl.
  - unfold ret. intros [= <- <-]. split; [exact Hinv|]. intros x. tauto.
  - assert (Hrest : forall n' m', In (n', m') items -> In (n', m') (proxies config_)).
    { intros n' m' H. apply Hitems. right. exact H. }
    destruct (mem n (getApCorrNameSet registered)) eqn:Em.
    + apply mem_In in Em. unfold getApCorrNameSet in Em. rewrite In_set_of in Em.
      intros Hloop.
      destruct (IH _ _ Hrest Hinv Hloop) as [Hfin Hkeys].
      split; [exact Hfin|]. intros x. rewrite Hkeys. split.
      * intros [H|(H1 & H2 & H3)]; auto.
      * intros [H|(H1 & [<-|H2] & H3)]; auto. contradiction.
    + apply mem_false in Em. unfold getApCorrNameSet in Em. rewrite In_set_of in Em.
      unfold bind at 1. unfold has_field.
      assert (Hc : contains s (n ++ "_instFlux") = contains initial (n ++ "_instFlux")).
      { apply stable_contains; [exact H0 | apply Hinv | apply measured_instFlux]. }
      rewrite Hc.
      destruct (contains initial (n ++ "_instFlux")) eqn:Ec; cbv [negb].
      * unfold bind. cbv beta.
        destruct (ApCorrInfo_init m (Some n) s) as [[err s1]|[info s1]] eqn:Einit;
          [discriminate|].
        intros Hloop.
        assert (Hinv1 : Inv s1 (dict_set n info d)).
        { apply (@ApCorrInfo_init_Inv m (Some n) s s1 info d);
            [|exact Hinv | exact Einit].
          right. split; [|exact Em]. apply Hitems. left. reflexivity. }
        destruct (IH _ _ Hrest Hinv1 Hloop) as [Hfin Hkeys].
        split; [exact Hfin|]. intros x. rewrite Hkeys, dict_set_keys. split.
        -- intros [[->|H]|(H1 & H2 & H3)]; auto.
        -- intros [H|(H1 & [<-|H2] & H3)]; auto.
      * intros Hloop.
        destruct (IH _ _ Hrest Hinv Hloop) as [Hfin Hkeys].
        split; [exact Hfin|]. intros x. rewrite Hkeys. split.
        -- intros [H|(H1 & H2 & H3)]; auto.
        -- intros [H|(H1 & [<-|H2] & H3)]; auto. congruence.
Qed.

(** The task that [__init__] leaves. *)
Lemma ApplyApCorrTask_init_Inv (self : ApplyApCorrTask) (schema' : Schema) :
  stable initial ->
  snd (ApplyApCorrTask_init config_ registered initial) = inr (self, schema') ->
  config self = config_ /\
  Inv schema' (apCorrInfoDict self) /\
  (forall x, In x (map fst (apCorrInfoDict self)) <->
             contains initial (x ++ "_instFlux") = true /\
             ((In x registered /\ ~ In x (ignoreList config_)) \/
              (~ In x registered /\ In x (map fst (proxies config_))))).
Proof.
  intros H0. unfold ApplyApCorrTask_init. simpl. unfold bind at 1.
  destruct (init_registered _ [] initial) as [[err s1]|[d1 s1]] eqn:E1; [discriminate|].
  unfold bind at 1.
  destruct (init_proxies _ (proxies config_) d1 s1) as [[err s2]|[d2 s2]] eqn:E2;
    [discriminate|].
  unfold ret. intros [= <- <-]. simpl.
  assert (Hinv0 : Inv initial []).
  { split; [exact H0|]. split; [constructor|]. split; intros; contradiction. }
  destruct (@init_registered_Inv
              (difference (getApCorrNameSet registered) (set_of (ignoreList config_)))
              [] d1 initial s1 H0) as [Hinv1 Hk1];
    [|exact Hinv0 | exact E1|].
  { intros n Hn. apply In_difference in Hn as [Hn Hi]. unfold getApCorrNameSet in Hn.
    rewrite In_set_of in Hn, Hi. auto. }
  destruct (@init_proxies_Inv (proxies config_) d1 d2 s1 s2 H0) as [Hinv2 Hk2];
    [auto | exact Hinv1 | exact E2|].
  split; [reflexivity|]. split; [exact Hinv2|].
  intros x. rewrite Hk2, Hk1. simpl. rewrite In_difference.
  unfold getApCorrNameSet. rewrite !In_set_of. tauto.
Qed.

Lemma Inv_wf (s : Schema) (d : list (string * ApCorrInfo)) (n : string)
    (info : ApCorrInfo) :
  Inv s d -> In (n, info) d -> wf_info info.
Proof.
  intros (_ & _ & Hok & _) Hin.
  destruct (Hok _ _ Hin) as (_ & _ & HF & HE & HG & H6 & H7).
  pose proof (field_index_lt _ _ HF) as LF.
  pose proof (field_index_lt _ _ HE) as LE.
  pose proof (field_index_lt _ _ HG) as LG.
  assert (Hne : instFluxKey info <> instFluxErrKey info).
  { intros E. rewrite <- E in HE.
    pose proof (field_index_inj _ _ _ HF HE) as Hn.
    apply append_inj in Hn. discriminate. }
  unfold wf_info, keysD, keysF. split.
  - destruct (doApCorrColumn info).
    + destruct (H7 eq_refl) as (A & B & C).
      repeat (constructor; [simpl; intuition lia|]). constructor.
    + repeat (constructor; [simpl; intuition|]). constructor.
  - repeat (constructor; [simpl; lia|]). constructor.
Qed.

Lemma Inv_independent (s : Schema) (d : list (string * ApCorrInfo)) (n1 n2 : string)
    (i1 i2 : ApCorrInfo) :
  Inv s d -> In (n1, i1) d -> In (n2, i2) d -> n1 <> n2 -> independent i1 i2.
Proof.
  intros (_ & _ & Hok & Hapart) H1 H2 Hne.
  pose proof (Hapart _ _ _ _ H1 H2 Hne) as Hmade.
  pose proof (fun k => @entry_ok_made (length (fields s)) n1 i1 k (Hok _ _ H1)) as M1.
  pose proof (fun k => @entry_ok_made (length (fields s)) n2 i2 k (Hok _ _ H2)) as M2.
  destruct (Hok _ _ H1) as (_ & _ & F1 & E1 & G1 & _ & _).
  destruct (Hok _ _ H2) as (_ & _ & F2 & E2 & G2 & _ & _).
  pose proof (field_index_lt _ _ F1). pose proof (field_index_lt _ _ E1).
  pose proof (field_index_lt _ _ G1). pose proof (field_index_lt _ _ F2).
  pose proof (field_index_lt _ _ E2). pose proof (field_index_lt _ _ G2).
  assert (FF : instFluxKey i1 <> instFluxKey i2).
  { intros E. rewrite <- E in F2. apply Hne.
    exact (append_inj_r _ _ _ (field_index_inj _ _ _ F1 F2)). }
  assert (EE : instFluxErrKey i1 <> instFluxErrKey i2).
  { intros E. rewrite <- E in E2. apply Hne.
    exact (append_inj_r _ _ _ (field_index_inj _ _ _ E1 E2)). }
  assert (FE : instFluxKey i1 <> instFluxErrKey i2).
  { intros E. rewrite <- E in E2. revert E2 F1. clear. intros E2 F1.
    pose proof (field_index_inj _ _ _ F1 E2) as Hn. revert Hn. names_differ. }
  assert (EF : instFluxErrKey i1 <> instFluxKey i2).
  { intros E. rewrite <- E in F2. revert E1 F2. clear. intros E1 F2.
    pose proof (field_index_inj _ _ _ E1 F2) as Hn. revert Hn. names_differ. }
  assert (GG : fluxFlagKey i1 <> fluxFlagKey i2).
  { intros E. rewrite <- E in G2. apply Hne.
    exact (append_inj_r _ _ _ (field_index_inj _ _ _ G1 G2)). }
  assert (D1 : forall k, In k (keysD i1) ->
                 k = instFluxKey i1 \/ k = instFluxErrKey i1 \/ In k (made i1)).
  { unfold keysD, made. intros k. destruct (doApCorrColumn i1); simpl; intuition. }
  assert (D2 : forall k, In k (keysD i2) ->
                 k = instFluxKey i2 \/ k = instFluxErrKey i2 \/ In k (made i2)).
  { unfold keysD, made. intros k. destruct (doApCorrColumn i2); simpl; intuition. }
  assert (A1 : In (apCorrFlagKey i1) (made i1)) by (left; reflexivity).
  assert (A2 : In (apCorrFlagKey i2) (made i2)) by (left; reflexivity).
  split.
  - intros k Hk1 Hk2.
    destruct (D1 k Hk1) as [Ea|[Ea|Hm1]], (D2 k Hk2) as [Eb|[Eb|Hm2]];
      try congruence;
      try (specialize (M2 _ Hm2); lia);
      try (specialize (M1 _ Hm1); lia).
    exact (Hmade k Hm1 Hm2).
  - unfold keysF. intros k [<-|[<-|[]]] [E|[E|[]]].
    + apply (Hmade (apCorrFlagKey i1) A1). rewrite <- E. exact A2.
    + specialize (M1 _ A1). lia.
    + specialize (M2 _ A2). lia.
    + congruence.
Qed.

(** The entries of a dictionary at the two sides of one of them. *)
Lemma values_split (d : list (string * ApCorrInfo)) (before after : list ApCorrInfo)
    (info : ApCorrInfo) :
  NoDup (map fst d) ->
  values d = before ++ info :: after ->
  exists n, In (n, info) d /\
    forall other, In other (before ++ after) ->
      exists m, In (m, other) d /\ m <> n.
Proof.
  unfold values. intros Hnd Hv.
  apply map_eq_app in Hv as (d1 & d2' & -> & Hb & Hv).
  apply map_eq_cons in Hv as ([n i] & d2 & -> & Hi & Ha). simpl in Hi. subst i.
  rewrite map_app in Hnd. simpl in Hnd.
  apply NoDup_remove in Hnd as [_ Hn].
  exists n. split; [apply in_or_app; right; left; reflexivity|].
  intros other Hin. subst before after.
  apply in_app_or in Hin as [Hin|Hin]; apply in_map_iff in Hin as ([m o] & Ho & Hin);
    simpl in Ho; subst o; exists m.
  - split; [apply in_or_app; auto|]. intros ->. apply Hn, in_or_app. left.
    apply (in_map fst) in Hin. exact Hin.
  - split; [apply in_or_app; right; right; exact Hin|]. intros ->.
    apply Hn, in_or_app. right. apply (in_map fst) in Hin. exact Hin.
Qed.

End InitFacts.

(** ** What construction of the task guarantees *)

Lemma alias_free_stable (initial : Schema) :
  (forall x, measured_name x -> assoc x (aliases initial) = None) ->
  stable initial initial.
Proof. intros H. split; [lia|]. intros x Hx. split; [apply H, Hx | reflexivity]. Qed.



(** X11.  Construct, then run.  For a task constructed over such a schema,
    [run] multiplies the flux and the flux error of the column named after
    each of its fields by the apCorr that the field's model gives at the
    source, when that apCorr is positive, and clears the field's apCorr flag:
    the provisos that the theorems about [run] make on the fields hold of
    every task that [__init__] builds. *)
Theorem constructed_task_applies_correction (config_ : ApplyApCorrConfig)
    (registered : list string) (initial schema' : Schema) (self : ApplyApCorrTask)
    (n : string) (info : ApCorrInfo)
    (catalog : list SourceRecord) (apCorrMap : ApCorrMap) (log : list LogRecord)
    (m me : Model) (i : nat) (source : SourceRecord) (a : float) :
  (forall x, measured_name x -> assoc x (aliases initial) = None) ->
  snd (ApplyApCorrTask_init config_ registered initial) = inr (self, schema') ->
  In (n, info) (apCorrInfoDict self) ->
  apCorrMap (modelName info) = Some m ->
  apCorrMap (modelSigmaName info) = Some me ->
  nth_error catalog i = Some source ->
  evaluate m (getCentroid source) = Evaluated a ->
  (0 <? a)%float = true ->
  exists kF kE log' catalog' source',
    find initial (n ++ "_instFlux") = Some kF /\
    find initial (n ++ "_instFluxErr") = Some kE /\
    run self catalog apCorrMap log = (log', Done catalog') /\
    nth_error catalog' i = Some source' /\
    get source' kF = (get source kF * a)%float /\
    get source' kE = (get source kE * a)%float /\
    getFlag source' (apCorrFlagKey info) = false.
Proof.
  intros Halias Hinit Hin Hm Hme Hi Hev Hpos.
  pose proof (@alias_free_stable initial Halias) as H0.
  destruct (@ApplyApCorrTask_init_Inv config_ registered initial self schema'
              H0 Hinit) as (_ & Hinv & _).
  assert (Hnd : NoDup (map fst (apCorrInfoDict self))) by apply Hinv.
  assert (Hv : In info (values (apCorrInfoDict self))).
  { unfold values. apply in_map_iff. exists (n, info). auto. }
  apply in_split in Hv as (before & after & Hv).
  destruct (@values_split (apCorrInfoDict self) before after info Hnd Hv)
    as (n' & Hin' & Hothers).
  assert (Hind : Forall (independent info) (before ++ after)).
  { apply Forall_forall. intros other Ho.
    destruct (Hothers other Ho) as (m' & Hm' & Hne).
    exact (@Inv_independent config_ registered initial schema' _ n' m' info other
             Hinv Hin' Hm' (fun E => Hne (eq_sym E))). }
  pose proof (@Inv_wf config_ registered initial schema' _ n info Hinv Hin) as Hwf.
  destruct (@run_corrects_source self catalog apCorrMap log before after info m me
              i source a Hv Hind Hwf Hm Hme Hi Hev Hpos)
    as (log' & catalog' & s' & R & N & _ & F & E & G & _).
  destruct Hinv as (_ & _ & Hok & _).
  destruct (Hok _ _ Hin) as (_ & _ & HF & HE & _).
  exists (instFluxKey info), (instFluxErrKey info), log', catalog', s'.
  rewrite (@stable_find initial initial _ H0 (measured_instFlux n)).
  rewrite (@stable_find initial initial _ H0 (measured_instFluxErr n)).
  auto 10.
Qed.

(** X12.  A name that [__init__] takes up (its flux field is in the
    schema) must have its flux-error and flag fields there too: when one of
    them is missing, construction of the whole task ends in the lookup
    error. *)
Theorem ApplyApCorrTask_init_needs_all_fields (config_ : ApplyApCorrConfig)
    (registered : list string) (initial : Schema) (n : string) :
  (forall x, measured_name x -> assoc x (aliases initial) = None) ->
  contains initial (n ++ "_instFlux") = true ->
  (In n registered /\ ~ In n (ignoreList config_)) \/
  (~ In n registered /\ In n (map fst (proxies config_))) ->
  find initial (n ++ "_instFluxErr") = None \/ find initial (n ++ "_flag") = None ->
  exists err schema',
    snd (ApplyApCorrTask_init config_ registered initial) = inl (err, schema').
Proof.
  intros Halias Hc Hn Hmiss.
  pose proof (@alias_free_stable initial Halias) as H0.
  destruct (snd (ApplyApCorrTask_init config_ registered initial))
    as [[err s']|[self s']] eqn:E; [eauto|].
  exfalso.
  destruct (@ApplyApCorrTask_init_Inv config_ registered initial self s' H0 E)
    as (_ & Hinv & Hkeys).
  assert (Hin : In n (map fst (apCorrInfoDict self))) by (apply Hkeys; auto).
  apply in_map_iff in Hin as ([n' info] & Hn' & Hin). simpl in Hn'. subst n'.
  destruct Hinv as (_ & _ & Hok & _).
  destruct (Hok _ _ Hin) as (_ & _ & _ & HE & HG & _).
  rewrite (@stable_find initial initial _ H0 (measured_instFluxErr n)) in Hmiss.
  rewrite (@stable_find initial initial _ H0 (measured_flag n)) in Hmiss.
  destruct Hmiss; congruence.
Qed.

(** *** The warning about the ignore list *)

Lemma sorted_Sorted (l : list string) :
  Sorted (fun a b => String.leb a b = true) (CatalogCalculation.sorted String.leb l).
Proof.
  induction l as [|x l IH]; simpl; [constructor|].
  revert IH. generalize (CatalogCalculation.sorted String.leb l). clear l.
  intros l. induction 1 as [|y l Hs IH Hd]; simpl.
  - repeat constructor.
  - destruct (String.leb x y) eqn:E.
    + constructor; [constructor; assumption | constructor; exact E].
    + constructor; [exact IH|].
      assert (Hyx : String.leb y x = true).
      { destruct (String.leb_total x y) as [H|H]; [congruence | exact H]. }
      destruct l as [|z l]; simpl.
      * constructor. exact Hyx.
      * inversion Hd as [|? ? Hyz]; subst.
        destruct (String.leb x z); constructor; assumption.
Qed.

(** X13.  [__init__] logs at most one message, a warning, and it logs it
    exactly when a name of the ignore list is not registered; the argument of
    the warning lists those names, each once, in ascending order. *)
Theorem ignored_names_warning (config_ : ApplyApCorrConfig) (registered : list string)
    (schema : Schema) :
  (fst (ApplyApCorrTask_init config_ registered schema) = [] <->
   forall n, In n (ignoreList config_) -> In n registered) /\
  (forall c, In c (fst (ApplyApCorrTask_init config_ registered schema)) ->
     fst (ApplyApCorrTask_init config_ registered schema) = [c] /\
     log_level c = WARN /\
     log_format c = "Fields in ignoreList that are not in fluxCorrectList: %s"%string /\
     NoDup (log_arg c) /\
     Sorted (fun a b => String.leb a b = true) (log_arg c) /\
     (forall n, In n (log_arg c) <->
                In n (ignoreList config_) /\ ~ In n registered)).
Proof.
  unfold ApplyApCorrTask_init, ignored_warning, getApCorrNameSet. simpl.
  set (missing := difference (set_of (ignoreList config_)) (set_of (set_of registered))).
  assert (Hmissing : forall n, In n missing <->
                               In n (ignoreList config_) /\ ~ In n registered).
  { intros n. unfold missing. rewrite In_difference, !In_set_of. reflexivity. }
  assert (Hnd : NoDup missing).
  { unfold missing, difference. apply NoDup_filter, NoDup_set_of. }
  destruct missing as [|x rest] eqn:Em.
  - split.
    + split; [|reflexivity]. intros _ n Hn.
      destruct (in_dec string_dec n registered) as [H|H]; [exact H|].
      exfalso. apply (proj2 (Hmissing n)). auto.
    + intros c [].
  - split.
    + split; [discriminate|]. intros H. exfalso.
      destruct (proj1 (Hmissing x) (or_introl eq_refl)) as [H1 H2]. auto.
    + intros c [<-|[]]. cbn [log_level log_format log_arg].
      split; [reflexivity|]. split; [reflexivity|]. split; [reflexivity|].
      split; [|split].
      * eapply Permutation_NoDup; [|exact Hnd].
        apply Permutation_sym, (CatalogCalculation.sorted_perm String.leb (x :: rest)).
      * apply (sorted_Sorted (x :: rest)).
      * intros n. rewrite <- Hmissing.
        apply (CatalogCalculation.sorted_In String.leb (x :: rest)).
Qed.

(** ** More on run *)

(** *** What a run leaves alone *)

(** The record a run may have made of [s]: same centroid, same values
    outside the columns of the fields. *)
Definition untouched_outside (infos : list ApCorrInfo) (s s' : SourceRecord) : Prop :=
  centroid s' = centroid s /\
  (forall k, (forall info, In info infos -> ~ In k (keysD info)) -> get s' k = get s k) /\
  (forall k, (forall info, In info infos -> ~ In k (keysF info)) ->
             getFlag s' k = getFlag s k).

Lemma apply_fields_untouched (naive : bool) (cfg : ApplyApCorrConfig)
    (apCorrMap : ApCorrMap) (infos : list ApCorrInfo) (log : list LogRecord)
    (c : list SourceRecord) :
  Forall2 (untouched_outside infos) c
    (payload (snd (apply_fields naive cfg apCorrMap infos log c))).
Proof.
  revert log c. induction infos as [|o infos IH]; intros log c; simpl.
  - induction c; constructor; [repeat split | assumption].
  - pose proof (apply_field_frame naive cfg apCorrMap o log c) as Hf.
    destruct (apply_field naive cfg apCorrMap o log c) as [log' [c'|e c']];
      simpl in Hf.
    + specialize (IH log' c').
      revert Hf IH.
      generalize (payload (snd (apply_fields naive cfg apCorrMap infos log' c'))).
      intros c'' Hf. revert c''.
      induction Hf as [|s s' l l' (H1 & H2 & H3) _ IHf]; intros c'' H;
        inversion H as [|? s'' ? l'' (G1 & G2 & G3) Hl]; subst; constructor.
      * split; [congruence|]. split.
        -- intros k Hk. rewrite G2, H2; [reflexivity | |]; intros; apply Hk; simpl; auto.
        -- intros k Hk. rewrite G3, H3; [reflexivity | |]; intros; apply Hk; simpl; auto.
      * apply IHf, Hl.
    + simpl. eapply Forall2_impl; [|exact Hf].
      intros s s' (H1 & H2 & H3). split; [exact H1|]. split.
      * intros k Hk. apply H2, Hk. left. reflexivity.
      * intros k Hk. apply H3, Hk. left. reflexivity.
Qed.

(** X14.  A run, in either mode and whether it returns or raises, keeps
    the sources of the catalog in number and in order, never changes a
    centroid, and changes no value and no flag outside the columns of the
    fields of the task. *)
Theorem run_touches_only_its_columns (naive : bool) (self : ApplyApCorrTask)
    (catalog : list SourceRecord) (apCorrMap : ApCorrMap) (log : list LogRecord) :
  Forall2 (untouched_outside (values (apCorrInfoDict self))) catalog
    (payload (snd (run_with naive self catalog apCorrMap log))) /\
  length (payload (snd (run_with naive self catalog apCorrMap log))) = length catalog.
Proof.
  assert (H : Forall2 (untouched_outside (values (apCorrInfoDict self))) catalog
                (payload (snd (run_with naive self catalog apCorrMap log)))).
  { unfold run_with. apply apply_fields_untouched. }
  split; [exact H|]. symmetry. eapply Forall2_length, H.
Qed.

(** *** The flags after a run *)

(** Line 252 in the naive mode, where apCorrErr is 0.0: is the correction
    turned down? *)
Definition turned_down (m : Model) (source : SourceRecord) : bool :=
  match evaluate m (getCentroid source) with
  | DomainError => true
  | Evaluated a => (a <=? 0)%float
  end.

Lemma correct_source_flags (cfg : ApplyApCorrConfig) (info : ApCorrInfo)
    (m me : Model) (s : SourceRecord) :
  wf_info info ->
  exists s',
    correct_source true cfg info m me s = Done s' /\
    getFlag s' (apCorrFlagKey info) = turned_down m s /\
    getFlag s' (fluxFlagKey info) =
      (if turned_down m s && doFlagApCorrFailures cfg then true
       else getFlag s (fluxFlagKey info)) /\
    get s' (instFluxKey info) =
      (if turned_down m s then get s (instFluxKey info)
       else match evaluate m (getCentroid s) with
            | Evaluated a => (get s (instFluxKey info) * a)%float
            | DomainError => get s (instFluxKey info)
            end) /\
    get s' (instFluxErrKey info) =
      (if turned_down m s then get s (instFluxErrKey info)
       else match evaluate m (getCentroid s) with
            | Evaluated a => (get s (instFluxErrKey info) * a)%float
            | DomainError => get s (instFluxErrKey info)
            end).
Proof.
  intros Hwf. destruct (wf_info_facts Hwf) as (Hfe & Hff & Hown).
  unfold correct_source, turned_down, try_evaluate, succeed. cbv zeta.
  destruct (evaluate m (getCentroid s)) as [a|]; cbv [negb]; cbv iota beta.
  - simpl apCorr. simpl apCorrErr. change ((0 <? 0)%float) with false.
    rewrite orb_false_r.
    destruct (a <=? 0)%float; cbv iota;
      eexists; (split; [reflexivity|]);
      destruct (doFlagApCorrFailures cfg), (doApCorrColumn info) eqn:Eown;
      try (destruct (Hown eq_refl) as (H1 & H2 & H3 & H4 & H5));
      simpl andb; cbv iota;
      repeat split;
      repeat first
        [ rewrite getFlag_setFlag_same
        | rewrite get_set_same
        | rewrite getFlag_setFlag_other by congruence
        | rewrite get_set_other by congruence
        | rewrite get_setFlag
        | rewrite getFlag_set ];
      reflexivity.
  - eexists. split; [reflexivity|].
    destruct (doFlagApCorrFailures cfg); simpl andb; cbv iota;
      repeat split;
      repeat first
        [ rewrite getFlag_setFlag_same
        | rewrite getFlag_setFlag_other by congruence
        | rewrite get_setFlag ];
      reflexivity.
Qed.

(** X15.  After [run], the flags of a field whose models are in the map
    tell what was done to each source.  The apCorr flag is set exactly when
    the correction was turned down (the model raised [DomainError], or gave
    an apCorr for which [apCorr <= 0.0] holds), and then the flux and its
    error are as they were; otherwise they were multiplied.  The general
    failure flag is set when the correction was turned down and
    [doFlagApCorrFailures] is on, and is what it was in every other case. *)
Theorem run_flags_tell_outcome (self : ApplyApCorrTask)
    (catalog : list SourceRecord) (apCorrMap : ApCorrMap) (log : list LogRecord)
    (before after : list ApCorrInfo) (info : ApCorrInfo) (m me : Model)
    (i : nat) (source : SourceRecord) :
  values (apCorrInfoDict self) = before ++ info :: after ->
  Forall (independent info) (before ++ after) ->
  wf_info info ->
  apCorrMap (modelName info) = Some m ->
  apCorrMap (modelSigmaName info) = Some me ->
  nth_error catalog i = Some source ->
  exists log' catalog' source',
    run self catalog apCorrMap log = (log', Done catalog') /\
    nth_error catalog' i = Some source' /\
    getFlag source' (apCorrFlagKey info) = turned_down m source /\
    getFlag source' (fluxFlagKey info) =
      (if turned_down m source && doFlagApCorrFailures (config self) then true
       else getFlag source (fluxFlagKey info)) /\
    (turned_down m source = true ->
       get source' (instFluxKey info) = get source (instFluxKey info) /\
       get source' (instFluxErrKey info) = get source (instFluxErrKey info)) /\
    (forall a, turned_down m source = false ->
       evaluate m (getCentroid source) = Evaluated a ->
       get source' (instFluxKey info) = (get source (instFluxKey info) * a)%float /\
       get source' (instFluxErrKey info) = (get source (instFluxErrKey info) * a)%float).
Proof.
  intros Hv Hind Hwf Hm Hme Hi.
  destruct (run_returns self catalog apCorrMap log) as (log' & catalog' & Hrun).
  destruct (@run_with_source UseNaiveFluxErr self catalog catalog' apCorrMap log log'
              before after info m me i source Hv Hind Hm Hme Hrun Hi)
    as (s_a & s' & Hsa & Hs' & (Hc & HD & HF)).
  destruct (@correct_source_flags (config self) info m me source Hwf)
    as (s_a' & Hsa' & F1 & F2 & F3 & F4).
  change UseNaiveFluxErr with true in Hsa. rewrite Hsa in Hsa'.
  injection Hsa' as <-.
  exists log', catalog', s'. split; [exact Hrun|]. split; [exact Hs'|].
  rewrite <- !HD, <- !HF by auto with apcorr.
  split; [exact F1|]. split; [exact F2|]. split.
  - intros Ht. rewrite Ht in F3, F4. auto.
  - intros a Ht Hev. rewrite Ht, Hev in F3, F4. auto.
Qed.

(** *** An apCorr that is not a number *)

Lemma is_nan_Prim2SF (a : float) : is_nan a = true -> Prim2SF a = S754_nan.
Proof.
  unfold is_nan. rewrite eqb_spec.
  destruct (Prim2SF a) as [s|s| |s m e]; try reflexivity.
  - discriminate.
  - destruct s; discriminate.
  - unfold SFeqb, SFcompare.
    rewrite Z.compare_refl, Pos.compare_cont_refl. destruct s; discriminate.
Qed.

Lemma is_nan_mul (x a : float) : is_nan a = true -> is_nan (x * a) = true.
Proof.
  intros H. apply is_nan_Prim2SF in H.
  unfold is_nan. rewrite eqb_spec, mul_spec, H.
  destruct (Prim2SF x); reflexivity.
Qed.

Lemma is_nan_not_leb_0 (a : float) : is_nan a = true -> (a <=? 0)%float = false.
Proof.
  intros H. apply is_nan_Prim2SF in H. rewrite leb_spec, H. reflexivity.
Qed.

(** X16.  An apCorr that is not a number passes the test of line 252
    ([apCorr <= 0.0] is false of it): [run] writes a flux and a flux error
    that are not numbers either, and clears the apCorr flag of the source as
    for a correction that succeeded. *)
Theorem run_applies_nan_correction (self : ApplyApCorrTask)
    (catalog : list SourceRecord) (apCorrMap : ApCorrMap) (log : list LogRecord)
    (before after : list ApCorrInfo) (info : ApCorrInfo) (m me : Model)
    (i : nat) (source : SourceRecord) (a : float) :
  values (apCorrInfoDict self) = before ++ info :: after ->
  Forall (independent info) (before ++ after) ->
  wf_info info ->
  apCorrMap (modelName info) = Some m ->
  apCorrMap (modelSigmaName info) = Some me ->
  nth_error catalog i = Some source ->
  evaluate m (getCentroid source) = Evaluated a ->
  is_nan a = true ->
  exists log' catalog' source',
    run self catalog apCorrMap log = (log', Done catalog') /\
    nth_error catalog' i = Some source' /\
    is_nan (get source' (instFluxKey info)) = true /\
    is_nan (get source' (instFluxErrKey info)) = true /\
    getFlag source' (apCorrFlagKey info) = false /\
    getFlag source' (fluxFlagKey info) = getFlag source (fluxFlagKey info).
Proof.
  intros Hv Hind Hwf Hm Hme Hi Hev Hnan.
  destruct (run_returns self catalog apCorrMap log) as (log' & catalog' & Hrun).
  destruct (@run_with_source UseNaiveFluxErr self catalog catalog' apCorrMap log log'
              before after info m me i source Hv Hind Hm Hme Hrun Hi)
    as (s_a & s' & Hsa & Hs' & (Hc & HD & HF)).
  destruct (@correct_source_flags (config self) info m me source Hwf)
    as (s_a' & Hsa' & F1 & F2 & F3 & F4).
  change UseNaiveFluxErr with true in Hsa. rewrite Hsa in Hsa'.
  injection Hsa' as <-.
  assert (Ht : turned_down m source = false).
  { unfold turned_down. rewrite Hev. apply is_nan_not_leb_0, Hnan. }
  rewrite Ht in F1, F2, F3, F4. rewrite Hev in F3, F4. simpl in F2.
  exists log', catalog', s'. split; [exact Hrun|]. split; [exact Hs'|].
  rewrite <- !HD, <- !HF by auto with apcorr.
  rewrite F3, F4. repeat split; auto using is_nan_mul.
Qed.

(** *** The mode that is not the naive one *)

Lemma correct_source_zero_flux (cfg : ApplyApCorrConfig) (info : ApCorrInfo)
    (m me : Model) (s : SourceRecord) (a e : float) :
  wf_info info ->
  evaluate m (getCentroid s) = Evaluated a ->
  evaluate me (getCentroid s) = Evaluated e ->
  (a <=? 0)%float = false ->
  (e <? 0)%float = false ->
  (get s (instFluxKey info) =? 0)%float = true ->
  exists s',
    correct_source false cfg info m me s = Raised ZeroDivisionError s' /\
    get s' (instFluxKey info) = (get s (instFluxKey info) * a)%float /\
    get s' (instFluxErrKey info) = get s (instFluxErrKey info) /\
    getFlag s' (apCorrFlagKey info) = true.
Proof.
  intros Hwf Hev Hee Ha He Hz.
  destruct (wf_info_facts Hwf) as (Hfe & Hff & Hown).
  destruct (mark_failed_facts cfg info s) as (Hc & Hg & Hf).
  unfold correct_source. cbv zeta.
  rewrite (@try_evaluate_Evaluated false m me _ a e Hev Hee).
  cbv iota beta. fold (mark_failed cfg info s). simpl apCorr. simpl apCorrErr.
  rewrite Ha, He. simpl orb. cbv iota.
  assert (Hflux : forall s0,
            get (if doApCorrColumn info
                 then set (set s0 (apCorrKey info) a) (apCorrErrKey info) e
                 else s0) (instFluxKey info) = get s0 (instFluxKey info)).
  { intros s0. destruct (doApCorrColumn info) eqn:Eown; [|reflexivity].
    destruct (Hown eq_refl) as (H1 & H2 & H3 & H4 & H5).
    rewrite !get_set_other by congruence. reflexivity. }
  assert (HfluxErr : forall s0,
            get (if doApCorrColumn info
                 then set (set s0 (apCorrKey info) a) (apCorrErrKey info) e
                 else s0) (instFluxErrKey info) = get s0 (instFluxErrKey info)).
  { intros s0. destruct (doApCorrColumn info) eqn:Eown; [|reflexivity].
    destruct (Hown eq_refl) as (H1 & H2 & H3 & H4 & H5).
    rewrite !get_set_other by congruence. reflexivity. }
  assert (Hflag : forall s0,
            getFlag (if doApCorrColumn info
                     then set (set s0 (apCorrKey info) a) (apCorrErrKey info) e
                     else s0) (apCorrFlagKey info) = getFlag s0 (apCorrFlagKey info)).
  { intros s0. destruct (doApCorrColumn info); reflexivity. }
  unfold complex_fluxErr, py_div. rewrite Hflux, Hg, Hz.
  eexists. split; [reflexivity|].
  rewrite get_set_same, get_set_other by congruence.
  rewrite getFlag_set, HfluxErr, Hflag, !Hg. auto.
Qed.

(** X17.  With [UseNaiveFluxErr] off, the flux error is computed from
    [instFluxErr/instFlux]: for a source whose flux is zero and whose
    correction is not turned down, the body of the loop raises
    [ZeroDivisionError] after it has overwritten the flux, with the apCorr
    flag still set.  So a run in that mode that returns has met no such
    source. *)
Theorem complex_mode_divides_by_flux (self : ApplyApCorrTask)
    (catalog catalog' : list SourceRecord) (apCorrMap : ApCorrMap)
    (log log' : list LogRecord)
    (before after : list ApCorrInfo) (info : ApCorrInfo) (m me : Model)
    (i : nat) (source : SourceRecord) (a e : float) :
  values (apCorrInfoDict self) = before ++ info :: after ->
  Forall (independent info) (before ++ after) ->
  wf_info info ->
  apCorrMap (modelName info) = Some m ->
  apCorrMap (modelSigmaName info) = Some me ->
  nth_error catalog i = Some source ->
  evaluate m (getCentroid source) = Evaluated a ->
  evaluate me (getCentroid source) = Evaluated e ->
  (a <=? 0)%float = false ->
  (e <? 0)%float = false ->
  ((get source (instFluxKey info) =? 0)%float = true ->
   exists source',
     correct_source false (config self) info m me source =
       Raised ZeroDivisionError source' /\
     get source' (instFluxKey info) = (get source (instFluxKey info) * a)%float /\
     get source' (instFluxErrKey info) = get source (instFluxErrKey info) /\
     getFlag source' (apCorrFlagKey info) = true) /\
  (run_with false self catalog apCorrMap log = (log', Done catalog') ->
   (get source (instFluxKey info) =? 0)%float = false).
Proof.
  intros Hv Hind Hwf Hm Hme Hi Hev Hee Ha He. split.
  - intros Hz. exact (@correct_source_zero_flux (config self) info m me source a e
                        Hwf Hev Hee Ha He Hz).
  - intros Hrun.
    destruct (@run_with_source false self catalog catalog' apCorrMap log log'
                before after info m me i source Hv Hind Hm Hme Hrun Hi)
      as (s_a & s' & Hsa & _).
    destruct (get source (instFluxKey info) =? 0)%float eqn:Hz; [|reflexivity].
    destruct (@correct_source_zero_flux (config self) info m me source a e
                Hwf Hev Hee Ha He Hz) as (s'' & Hraise & _).
    congruence.
Qed.

(** *** Columns of its own *)

Lemma field_index_app_None (A : Type) (n : string) (l l' : list (string * A)) :
  field_index n l = None ->
  field_index n (l ++ l') = option_map (Nat.add (length l)) (field_index n l').
Proof.
  induction l as [|[n' v] l IH]; simpl.
  - intros _. destruct (field_index n l'); reflexivity.
  - destruct (String.eqb n' n); [discriminate|].
    destruct (field_index n l) as [k|] eqn:E; simpl; [discriminate|].
    intros _. rewrite (IH eq_refl). destruct (field_index n l'); reflexivity.
Qed.

(** X18.  When a field is corrected by its own model (no [name] is
    given, or it is the model's), or the model has no apCorr column in the
    schema yet, constructing its ApCorrInfo appends three fields, the apCorr
    and apCorrErr columns and the flag, in that order, and installs no alias.
    Every name the schema resolved still resolves to the same key, and the
    three keys the ApCorrInfo keeps are those that [find] gives for the new
    names, when these were not in use before. *)
Theorem own_columns_are_appended (schema : Schema) (model : string)
    (name_arg : option string) (kF kE kG : Key) :
  let name_ := match name_arg with None => model | Some n => n end in
  find schema (name_ ++ "_instFlux") = Some kF ->
  find schema (name_ ++ "_instFluxErr") = Some kE ->
  find schema (name_ ++ "_flag") = Some kG ->
  name_ = model \/ contains schema (model ++ "_apCorr") = false ->
  exists info schema',
    ApCorrInfo_init model name_arg schema = inr (info, schema') /\
    doApCorrColumn info = true /\
    instFluxKey info = kF /\ instFluxErrKey info = kE /\ fluxFlagKey info = kG /\
    fields schema' =
      fields schema ++ [((name_ ++ "_apCorr")%string, Double);
                        ((name_ ++ "_apCorrErr")%string, Double);
                        ((name_ ++ "_flag_apCorr")%string, Flag)] /\
    aliases schema' = aliases schema /\
    apCorrKey info = length (fields schema) /\
    apCorrErrKey info = S (length (fields schema)) /\
    apCorrFlagKey info = S (S (length (fields schema))) /\
    (forall n k, find schema n = Some k -> find schema' n = Some k) /\
    (forall x k,
       In (x, k) [("_apCorr"%string, apCorrKey info);
                  ("_apCorrErr"%string, apCorrErrKey info);
                  ("_flag_apCorr"%string, apCorrFlagKey info)] ->
       assoc (name_ ++ x)%string (aliases schema) = None ->
       field_index (name_ ++ x)%string (fields schema) = None ->
       find schema' (name_ ++ x) = Some k).
Proof.
  intros name_ HF HE HG Hown.
  assert (Hb : String.eqb name_ model ||
               negb (contains schema (model ++ "_apCorr")) = true).
  { destruct Hown as [->| ->]; [rewrite String.eqb_refl; reflexivity|].
    apply orb_true_r. }
  assert (N1 : String.eqb (name_ ++ "_apCorr") (name_ ++ "_apCorrErr") = false).
  { apply String.eqb_neq. intros H. apply append_inj in H. discriminate. }
  assert (N2 : String.eqb (name_ ++ "_apCorr") (name_ ++ "_flag_apCorr") = false).
  { apply String.eqb_neq. intros H. apply append_inj in H. discriminate. }
  assert (N3 : String.eqb (name_ ++ "_apCorrErr") (name_ ++ "_flag_apCorr") = false).
  { apply String.eqb_neq. intros H. apply append_inj in H. discriminate. }
  eexists. eexists.
  unfold ApCorrInfo_init, bind, find_key, has_field, set_alias, add_field, ret.
  fold name_. rewrite HF, HE, HG, Hb. unfold addField. simpl.
  split; [reflexivity|]. rewrite <- !app_assoc, !length_app. simpl.
  repeat (split; [first [reflexivity | lia]|]).
  split.
  - intros n k. unfold find, AliasMap_apply. simpl. apply field_index_app.
  - intros x k Hin Ha Hf. unfold find, AliasMap_apply. simpl. rewrite Ha.
    rewrite (@field_index_app_None _ (name_ ++ x)%string (fields schema) _ Hf). simpl.
    destruct Hin as [[= <- <-]|[[= <- <-]|[[= <- <-]|[]]]].
    + rewrite String.eqb_refl. simpl. apply f_equal. lia.
    + rewrite N1, String.eqb_refl. simpl. apply f_equal. lia.
    + rewrite N2, N3, String.eqb_refl. simpl. apply f_equal. lia.
Qed.

(** *** One source at a time *)

(** What the body of the loop over the fields makes of one source, in the
    naive mode. *)
Definition correct_with (cfg : ApplyApCorrConfig) (apCorrMap : ApCorrMap)
    (apCorrInfo : ApCorrInfo) (source : SourceRecord) : SourceRecord :=
  match apCorrMap (modelName apCorrInfo), apCorrMap (modelSigmaName apCorrInfo) with
  | Some m, Some me => payload (correct_source true cfg apCorrInfo m me source)
  | _, _ => setFlag source (apCorrFlagKey apCorrInfo) true
  end.

Lemma correct_sources_map (cfg : ApplyApCorrConfig) (info : ApCorrInfo)
    (m me : Model) (c : list SourceRecord) :
  correct_sources true cfg info m me c =
    Done (map (fun s => payload (correct_source true cfg info m me s)) c).
Proof.
  induction c as [|s c IH]; simpl; [reflexivity|].
  destruct (correct_source_naive cfg info m me s) as [s' Hs]. rewrite Hs, IH.
  reflexivity.
Qed.

Lemma apply_field_map (cfg : ApplyApCorrConfig) (apCorrMap : ApCorrMap)
    (info : ApCorrInfo) (log : list LogRecord) (c : list SourceRecord) :
  snd (apply_field true cfg apCorrMap info log c) =
    Done (map (correct_with cfg apCorrMap info) c).
Proof.
  unfold apply_field, correct_with.
  destruct (apCorrMap (modelName info)) as [m|],
           (apCorrMap (modelSigmaName info)) as [me|]; try reflexivity.
  simpl. apply correct_sources_map.
Qed.

Lemma apply_fields_map (cfg : ApplyApCorrConfig) (apCorrMap : ApCorrMap)
    (infos : list ApCorrInfo) (log : list LogRecord) (c : list SourceRecord) :
  snd (apply_fields true cfg apCorrMap infos log c) =
    Done (map (fun s => fold_left (fun s info => correct_with cfg apCorrMap info s)
                                  infos s) c).
Proof.
  revert log c. induction infos as [|i infos IH]; intros log c; simpl.
  - rewrite map_id. reflexivity.
  - pose proof (apply_field_map cfg apCorrMap i log c) as E.
    destruct (apply_field true cfg apCorrMap i log c) as [log' o]. simpl in E.
    subst o. rewrite IH, map_map. reflexivity.
Qed.

(** X19.  [run] treats each source on its own: the record it leaves for
    a source of the catalog is the record that a run on that source alone
    leaves, whatever the other sources are. *)
Theorem run_is_pointwise (self : ApplyApCorrTask) (catalog : list SourceRecord)
    (apCorrMap : ApCorrMap) (log log0 : list LogRecord) (i : nat)
    (source : SourceRecord) :
  nth_error catalog i = Some source ->
  exists source',
    nth_error (payload (snd (run self catalog apCorrMap log))) i = Some source' /\
    snd (run self [source] apCorrMap log0) = Done [source'].
Proof.
  intros Hi. unfold run, run_with. change UseNaiveFluxErr with true.
  rewrite !apply_fields_map. simpl.
  eexists. split; [|reflexivity].
  rewrite nth_error_map, Hi. reflexivity.
Qed.

(** *** The order of the fields *)

Lemma independent_sym (a b : ApCorrInfo) : independent a b -> independent b a.
Proof.
  intros [HD HF]. split; intros k H1 H2; [exact (HD k H2 H1) | exact (HF k H2 H1)].
Qed.

(** Two records with the same centroid, the same values and the same
    flags. *)
Definition same_record (s1 s2 : SourceRecord) : Prop :=
  centroid s1 = centroid s2 /\
  (forall k, get s1 k = get s2 k) /\
  (forall k, getFlag s1 k = getFlag s2 k).

Definition ApCorrInfo_eq_dec (a b : ApCorrInfo) : {a = b} + {a <> b}.
Proof. decide equality; solve [apply Nat.eq_dec | apply string_dec | apply bool_dec]. Defined.

Lemma correct_with_frame (cfg : ApplyApCorrConfig) (apCorrMap : ApCorrMap)
    (info : ApCorrInfo) (s : SourceRecord) :
  unchanged_outside info s (correct_with cfg apCorrMap info s).
Proof.
  unfold correct_with.
  destruct (apCorrMap (modelName info)) as [m|],
           (apCorrMap (modelSigmaName info)) as [me|];
    auto with apcorr.
  apply correct_source_frame.
Qed.

Lemma correct_with_agree (cfg : ApplyApCorrConfig) (apCorrMap : ApCorrMap)
    (info : ApCorrInfo) (s1 s2 : SourceRecord) :
  agree info s1 s2 ->
  agree info (correct_with cfg apCorrMap info s1) (correct_with cfg apCorrMap info s2).
Proof.
  intros H. unfold correct_with.
  destruct (apCorrMap (modelName info)) as [m|],
           (apCorrMap (modelSigmaName info)) as [me|];
    auto with apcorr.
  pose proof (correct_source_agree true cfg m me H) as Hag.
  destruct (correct_source true cfg info m me s1) as [a|e a],
           (correct_source true cfg info m me s2) as [b|e' b];
    try contradiction; simpl; [exact Hag | apply Hag].
Qed.

Lemma same_record_agree (info : ApCorrInfo) (s1 s2 : SourceRecord) :
  same_record s1 s2 -> agree info s1 s2.
Proof. intros (H1 & H2 & H3). repeat split; auto. Qed.

Lemma correct_with_same (cfg : ApplyApCorrConfig) (apCorrMap : ApCorrMap)
    (info : ApCorrInfo) (s1 s2 : SourceRecord) :
  same_record s1 s2 ->
  same_record (correct_with cfg apCorrMap info s1) (correct_with cfg apCorrMap info s2).
Proof.
  intros Hs.
  destruct (correct_with_agree cfg apCorrMap (same_record_agree info Hs))
    as (A1 & A2 & A3).
  destruct (correct_with_frame cfg apCorrMap info s1) as (F1 & F2 & F3).
  destruct (correct_with_frame cfg apCorrMap info s2) as (G1 & G2 & G3).
  destruct Hs as (H1 & H2 & H3).
  split; [exact A1|]. split; intros k.
  - destruct (in_dec Nat.eq_dec k (keysD info)) as [Hk|Hk]; [apply A2, Hk|].
    rewrite (F2 k Hk), (G2 k Hk). apply H2.
  - destruct (in_dec Nat.eq_dec k (keysF info)) as [Hk|Hk]; [apply A3, Hk|].
    rewrite (F3 k Hk), (G3 k Hk). apply H3.
Qed.

(** The corrections of two fields that share no column commute. *)
Lemma correct_with_commute (cfg : ApplyApCorrConfig) (apCorrMap : ApCorrMap)
    (a b : ApCorrInfo) (s : SourceRecord) :
  independent a b ->
  same_record (correct_with cfg apCorrMap b (correct_with cfg apCorrMap a s))
              (correct_with cfg apCorrMap a (correct_with cfg apCorrMap b s)).
Proof.
  intros Hab. pose proof (@independent_sym a b Hab) as Hba.
  set (sa := correct_with cfg apCorrMap a s).
  set (sb := correct_with cfg apCorrMap b s).
  pose proof (correct_with_frame cfg apCorrMap a s) as Fa. fold sa in Fa.
  pose proof (correct_with_frame cfg apCorrMap b s) as Fb. fold sb in Fb.
  pose proof (correct_with_frame cfg apCorrMap b sa) as Fba.
  pose proof (correct_with_frame cfg apCorrMap a sb) as Fab.
  (* what [a] sees of [sb] is what it sees of [s], and likewise for [b] *)
  pose proof (correct_with_agree cfg apCorrMap
                (unchanged_outside_agree Hab Fb)) as Aa. fold sa in Aa.
  pose proof (correct_with_agree cfg apCorrMap
                (unchanged_outside_agree Hba Fa)) as Ab. fold sb in Ab.
  destruct Fa as (Fa1 & Fa2 & Fa3), Fb as (Fb1 & Fb2 & Fb3),
           Fba as (Fba1 & Fba2 & Fba3), Fab as (Fab1 & Fab2 & Fab3),
           Aa as (Aa1 & Aa2 & Aa3), Ab as (Ab1 & Ab2 & Ab3),
           Hab as (HD & HF).
  split; [congruence|]. split; intros k.
  - destruct (in_dec Nat.eq_dec k (keysD a)) as [Ka|Ka].
    + rewrite (Fba2 k (HD k Ka)). apply Aa2, Ka.
    + rewrite (Fab2 k Ka).
      destruct (in_dec Nat.eq_dec k (keysD b)) as [Kb|Kb].
      * symmetry. apply Ab2, Kb.
      * rewrite (Fba2 k Kb), (Fa2 k Ka), (Fb2 k Kb). reflexivity.
  - destruct (in_dec Nat.eq_dec k (keysF a)) as [Ka|Ka].
    + rewrite (Fba3 k (HF k Ka)). apply Aa3, Ka.
    + rewrite (Fab3 k Ka).
      destruct (in_dec Nat.eq_dec k (keysF b)) as [Kb|Kb].
      * symmetry. apply Ab3, Kb.
      * rewrite (Fba3 k Kb), (Fa3 k Ka), (Fb3 k Kb). reflexivity.
Qed.

Lemma same_record_trans (s1 s2 s3 : SourceRecord) :
  same_record s1 s2 -> same_record s2 s3 -> same_record s1 s3.
Proof.
  intros (A1 & A2 & A3) (B1 & B2 & B3).
  split; [congruence|]. split; intros k; [rewrite A2 | rewrite A3]; auto.
Qed.

Lemma fold_correct_with_same (cfg : ApplyApCorrConfig) (apCorrMap : ApCorrMap)
    (infos : list ApCorrInfo) (s1 s2 : SourceRecord) :
  same_record s1 s2 ->
  same_record
    (fold_left (fun s info => correct_with cfg apCorrMap info s) infos s1)
    (fold_left (fun s info => correct_with cfg apCorrMap info s) infos s2).
Proof.
  revert s1 s2. induction infos as [|i infos IH]; intros s1 s2 H; simpl; [exact H|].
  apply IH, correct_with_same, H.
Qed.

Lemma fold_correct_with_perm (cfg : ApplyApCorrConfig) (apCorrMap : ApCorrMap)
    (l1 l2 : list ApCorrInfo) :
  Permutation l1 l2 ->
  (forall a b, In a l1 -> In b l1 -> a <> b -> independent a b) ->
  forall s1 s2, same_record s1 s2 ->
  same_record
    (fold_left (fun s info => correct_with cfg apCorrMap info s) l1 s1)
    (fold_left (fun s info => correct_with cfg apCorrMap info s) l2 s2).
Proof.
  induction 1 as [|x l l' Hp IH|x y l|l l' l'' Hp1 IH1 Hp2 IH2];
    intros Hind s1 s2 Hs; simpl.
  - exact Hs.
  - apply IH; [|apply correct_with_same, Hs].
    intros a b Ha Hb. apply Hind; right; assumption.
  - apply fold_correct_with_same.
    destruct (ApCorrInfo_eq_dec y x) as [->|Hne].
    + apply correct_with_same, correct_with_same, Hs.
    + eapply same_record_trans.
      * apply (@correct_with_commute cfg apCorrMap y x s1).
        apply Hind; simpl; auto.
      * apply correct_with_same, correct_with_same, Hs.
  - eapply same_record_trans.
    + apply (IH1 Hind s1 s1). repeat split.
    + apply IH2; [|exact Hs].
      intros a b Ha Hb. apply Hind; eapply Permutation_in;
        try (apply Permutation_sym; exact Hp1); assumption.
Qed.

(** X20.  The corrections of fields that share no column commute: two
    tasks with the same configuration and the same fields, in whatever order
    their dictionaries hold them, leave the same centroid, the same values
    and the same flags in every source. *)
Theorem run_does_not_depend_on_field_order (self1 self2 : ApplyApCorrTask)
    (catalog : list SourceRecord) (apCorrMap : ApCorrMap) (log1 log2 : list LogRecord) :
  config self1 = config self2 ->
  Permutation (values (apCorrInfoDict self1)) (values (apCorrInfoDict self2)) ->
  (forall a b, In a (values (apCorrInfoDict self1)) ->
               In b (values (apCorrInfoDict self1)) -> a <> b -> independent a b) ->
  Forall2 same_record
    (payload (snd (run self1 catalog apCorrMap log1)))
    (payload (snd (run self2 catalog apCorrMap log2))).
Proof.
  intros Hc Hp Hind. unfold run, run_with. change UseNaiveFluxErr with true.
  rewrite !apply_fields_map, Hc. simpl.
  induction catalog as [|s c IH]; simpl; constructor; [|exact IH].
  apply fold_correct_with_perm; [exact Hp | exact Hind | repeat split].
Qed.

(** ** A small catalog, corrected *)

Local Open Scope nat_scope.

Module Example.

Definition schema0 : Schema :=
  {| fields := [("base_PsfFlux_instFlux"%string, Double);
                ("base_PsfFlux_instFluxErr"%string, Double);
                ("base_PsfFlux_flag"%string, Flag);
                ("base_GaussianFlux_instFlux"%string, Double);
                ("base_GaussianFlux_instFluxErr"%string, Double);
                ("base_GaussianFlux_flag"%string, Flag)];
     aliases := [] |}.

Definition no_info : ApCorrInfo :=
  {| name := ""; modelName := ""; modelSigmaName := ""; doApCorrColumn := false;
     instFluxName := ""; instFluxErrName := "";
     instFluxKey := 0; instFluxErrKey := 0; fluxFlagKey := 0;
     apCorrKey := 0; apCorrErrKey := 0; apCorrFlagKey := 0 |}.

Definition built (r : (SchemaError * Schema) + (ApCorrInfo * Schema))
    : ApCorrInfo * Schema :=
  match r with
  | inr x => x
  | inl (_, schema) => (no_info, schema)
  end.

(** The PSF flux, corrected by its own model; the Gaussian flux, corrected
    by reference to the PSF flux. *)
Definition psf : ApCorrInfo := fst (built (ApCorrInfo_init "base_PsfFlux" None schema0)).

Definition schema1 : Schema := snd (built (ApCorrInfo_init "base_PsfFlux" None schema0)).

Definition gaussian : ApCorrInfo :=
  fst (built (ApCorrInfo_init "base_PsfFlux" (Some "base_GaussianFlux"%string) schema1)).

Definition task : ApplyApCorrTask :=
  {| config := {| ignoreList := [];
                  doFlagApCorrFailures := true;
                  proxies := [("base_GaussianFlux"%string, "base_PsfFlux"%string)] |};
     apCorrInfoDict := [("base_PsfFlux"%string, psf);
                        ("base_GaussianFlux"%string, gaussian)] |}.

(** A model with no value left of the y axis; elsewhere its value is the
    y coordinate. *)
Definition model : Model :=
  fun center =>
    if (fst center <? 0)%float then DomainError else Evaluated (snd center).

Definition errModel : Model := fun _ => Evaluated 0%float.

Definition apCorrMap : ApCorrMap :=
  fun n =>
    if String.eqb n "base_PsfFlux_instFlux" then Some model
    else if String.eqb n "base_PsfFlux_instFluxErr" then Some errModel
    else None.

Definition valueOnly : ApCorrMap :=
  fun n => if String.eqb n "base_PsfFlux_instFlux" then Some model else None.

(** A source at (x, y) whose PSF and Gaussian fluxes are [flux], with error
    [fluxErr]; the other columns are as the table initialises them. *)
Definition source_at (x y flux fluxErr : float) : SourceRecord :=
  {| centroid := (x, y);
     doubles := fun k =>
       match k with
       | 0%nat | 3%nat => flux
       | 1%nat | 4%nat => fluxErr
       | _ => nan
       end;
     flags := fun _ => false |}.

(** The float that is written 1.1. *)
Definition one_point_one : float := 0x1.199999999999ap+0%float.

(** The first float above 110. *)
Definition above_110 : float := 0x1.b800000000001p+6%float.

(** The second float above 121. *)
Definition above_121 : float := 0x1.e400000000002p+6%float.

Definition corrected : list SourceRecord := [source_at 0 one_point_one 100 5].
Definition rejected : list SourceRecord := [source_at 0 0 100 5].
Definition outside : list SourceRecord := [source_at (-1) one_point_one 100 5].
Definition dark : list SourceRecord := [source_at 0 2 0 5].

(** What a run left in a column of a source. *)
Definition column (r : list LogRecord * Outcome (list SourceRecord)) (i : nat)
    (k : Key) : option float :=
  match snd r with
  | Done c => option_map (fun s => get s k) (nth_error c i)
  | Raised _ _ => None
  end.

Definition flag (r : list LogRecord * Outcome (list SourceRecord)) (i : nat)
    (k : Key) : option bool :=
  match snd r with
  | Done c => option_map (fun s => getFlag s k) (nth_error c i)
  | Raised _ _ => None
  end.

(** A second run on what the first one left. *)
Definition again (r : list LogRecord * Outcome (list SourceRecord))
    : list LogRecord * Outcome (list SourceRecord) :=
  match r with
  | (log, Done c) => run task c apCorrMap log
  | _ => r
  end.

End Example.

Import Example.

Ltac solve_keys :=
  repeat match goal with
  | |- Forall _ _ => constructor
  | |- independent _ _ =>
      split; intros ? ? ?;
      repeat match goal with H : In _ _ |- _ => vm_compute in H end; lia
  | |- wf_info _ => split
  | |- NoDup _ => vm_compute; repeat (constructor; [simpl; lia|]); constructor
  end.

Lemma run_applies_valid_correction_witness :
  exists log' catalog' source',
    run task corrected apCorrMap [] = (log', Done catalog') /\
    nth_error catalog' 0 = Some source' /\
    get source' (instFluxKey psf) = above_110 /\
    get source' (instFluxErrKey psf) = 5.5%float /\
    getFlag source' (apCorrFlagKey psf) = false /\
    getFlag source' (fluxFlagKey psf) = false.
Proof.
  assert (H : Forall (independent psf) ([] ++ [gaussian]) /\ wf_info psf)
    by (split; solve_keys).
  destruct (@run_applies_valid_correction task corrected apCorrMap [] [] [gaussian] psf
              model errModel 0 (source_at 0 one_point_one 100 5) one_point_one
              eq_refl (proj1 H) (proj2 H) eq_refl eq_refl eq_refl eq_refl eq_refl)
    as (log' & catalog' & source' & Hrun & Hn & _ & _ & Hflag & Hflux & Hinst).
  destruct (Hinst eq_refl eq_refl eq_refl) as [H1 H2].
  exists log', catalog', source'. repeat split; assumption.
Defined.

(** The instance C4 gives: flux 100.0, flux error 5.0, apCorr 1.1.
    The flux error becomes 5.5 and the flag is cleared, but the flux
    becomes the float above 110.0, which does not compare equal to 110.0. *)
Lemma valid_correction_is_rounded :
  nth_error corrected 0 = Some (source_at 0 one_point_one 100 5) /\
  get (source_at 0 one_point_one 100 5) (instFluxKey psf) = 100%float /\
  get (source_at 0 one_point_one 100 5) (instFluxErrKey psf) = 5%float /\
  evaluate model (getCentroid (source_at 0 one_point_one 100 5)) =
    Evaluated one_point_one /\
  column (run task corrected apCorrMap []) 0 (instFluxKey psf) = Some above_110 /\
  (above_110 =? 110)%float = false /\
  column (run task corrected apCorrMap []) 0 (instFluxErrKey psf) = Some 5.5%float /\
  flag (run task corrected apCorrMap []) 0 (apCorrFlagKey psf) = Some false.
Proof. repeat split; vm_compute; reflexivity. Qed.

Lemma run_twice_multiplies_twice_witness :
  exists log1 catalog1 log2 catalog2 s1 s2,
    run task corrected apCorrMap [] = (log1, Done catalog1) /\
    run task catalog1 apCorrMap log1 = (log2, Done catalog2) /\
    nth_error catalog1 0 = Some s1 /\
    nth_error catalog2 0 = Some s2 /\
    get s1 (instFluxKey psf) = above_110 /\
    get s2 (instFluxKey psf) = above_121 /\
    (get s2 (instFluxKey psf) =? get s1 (instFluxKey psf))%float = false.
Proof.
  assert (H : Forall (independent psf) ([] ++ [gaussian]) /\ wf_info psf)
    by (split; solve_keys).
  destruct (@run_twice_multiplies_twice task corrected apCorrMap [] [] [gaussian] psf
              model errModel 0 (source_at 0 one_point_one 100 5) one_point_one
              eq_refl (proj1 H) (proj2 H) eq_refl eq_refl eq_refl eq_refl eq_refl)
    as (log1 & catalog1 & log2 & catalog2 & s1 & s2 & R1 & R2 & N1 & N2
        & _ & _ & _ & _ & Hinst & _).
  destruct (Hinst eq_refl eq_refl) as (H1 & H2 & H3).
  exists log1, catalog1, log2, catalog2, s1, s2. repeat split; assumption.
Defined.

(** A second run changes the flux once more: the run is not idempotent. *)
Lemma second_run_changes_flux :
  column (run task corrected apCorrMap []) 0 (instFluxKey psf) =
    Some above_110 /\
  column (again (run task corrected apCorrMap [])) 0 (instFluxKey psf) =
    Some above_121.
Proof. split; vm_compute; reflexivity. Qed.

(** C9 as stated (the second run changes the flux whenever apCorr is
    not 1) does not hold for a flux of zero: with apCorr = 2 the flux is 0
    after one run and after two. *)
Lemma zero_flux_is_a_fixed_point :
  evaluate model (getCentroid (source_at 0 2 0 5)) = Evaluated 2%float /\
  (2 =? 1)%float = false /\
  column (run task dark apCorrMap []) 0 (instFluxKey psf) = Some 0%float /\
  column (again (run task dark apCorrMap [])) 0 (instFluxKey psf) = Some 0%float /\
  flag (again (run task dark apCorrMap [])) 0 (apCorrFlagKey psf) = Some false.
Proof. repeat split; vm_compute; reflexivity. Qed.

Lemma run_rejects_invalid_correction_witness :
  exists log' catalog' source',
    run task rejected apCorrMap [] = (log', Done catalog') /\
    nth_error catalog' 0 = Some source' /\
    get source' (instFluxKey psf) = 100%float /\
    get source' (instFluxErrKey psf) = 5%float /\
    getFlag source' (apCorrFlagKey psf) = true /\
    (doApCorrColumn psf = true ->
       get source' (apCorrKey psf) = 0%float /\
       get source' (apCorrErrKey psf) = 0%float).
Proof.
  assert (H : Forall (independent psf) ([] ++ [gaussian]) /\ wf_info psf)
    by (split; solve_keys).
  destruct (@run_rejects_invalid_correction true task rejected apCorrMap [] []
              [gaussian] psf model errModel 0 (source_at 0 0 100 5) 0%float 0%float
              eq_refl (proj1 H) (proj2 H) eq_refl eq_refl eq_refl eq_refl eq_refl
              (or_introl eq_refl))
    as [Hret Hres].
  destruct (Hret eq_refl) as (log' & catalog' & Hrun).
  destruct (Hres log' catalog' Hrun) as (source' & Hs).
  exists log', catalog', source'. split; [exact Hrun | exact Hs].
Defined.

(** In the other mode a negative apCorrErr is rejected in the same way. *)
Lemma negative_apCorrErr_is_rejected :
  let sigma : ApCorrMap :=
    fun n =>
      if String.eqb n "base_PsfFlux_instFlux" then Some model
      else if String.eqb n "base_PsfFlux_instFluxErr"
           then Some (fun _ => Evaluated (-1)%float)
           else None in
  column (run_with false task corrected sigma []) 0 (instFluxKey psf) = Some 100%float /\
  column (run_with false task corrected sigma []) 0 (apCorrErrKey psf) = Some (-1)%float /\
  flag (run_with false task corrected sigma []) 0 (apCorrFlagKey psf) = Some true.
Proof. repeat split; vm_compute; reflexivity. Qed.

Lemma run_skips_domain_error_witness :
  try_evaluate true model errModel (getCentroid (source_at (-1) one_point_one 100 5)) =
    ({| apCorr := 1; apCorrErr := 0 |}, true) /\
  exists log' catalog' source',
    run task outside apCorrMap [] = (log', Done catalog') /\
    nth_error catalog' 0 = Some source' /\
    get source' (instFluxKey psf) = 100%float /\
    get source' (instFluxErrKey psf) = 5%float /\
    getFlag source' (apCorrFlagKey psf) = true.
Proof.
  assert (H : Forall (independent psf) ([] ++ [gaussian])) by solve_keys.
  destruct (@run_skips_domain_error true task outside apCorrMap [] []
              [gaussian] psf model errModel 0 (source_at (-1) one_point_one 100 5)
              eq_refl H eq_refl eq_refl eq_refl eq_refl)
    as (Ht & _ & Hret & Hres).
  split; [exact Ht|].
  destruct (Hret eq_refl) as (log' & catalog' & Hrun).
  destruct (Hres log' catalog' Hrun) as (source' & H1 & H2 & H3 & H4 & _).
  exists log', catalog', source'. auto.
Defined.

Lemma proxy_aliases_model_columns_witness :
  doApCorrColumn gaussian = false /\
  apCorrKey gaussian = apCorrKey psf /\
  apCorrErrKey gaussian = apCorrErrKey psf /\
  apCorrFlagKey gaussian <> apCorrFlagKey psf /\
  length (fields (snd (built (ApCorrInfo_init "base_PsfFlux"
                                (Some "base_GaussianFlux"%string) schema1)))) =
    S (length (fields schema1)).
Proof.
  destruct (@proxy_aliases_model_columns schema1 "base_PsfFlux" "base_GaussianFlux"
              3 4 5 6 7)
    as (info & schema' & Hinit & Hown & Hfields & _ & HA & HE & _ & _ & _ & _ & Hflag & Hnew);
    try reflexivity.
  - discriminate.
  - split; reflexivity.
  - split; reflexivity.
  - unfold gaussian. rewrite Hinit. simpl fst. simpl snd.
    rewrite Hown, HA, HE, Hfields, length_app. simpl.
    repeat split; try reflexivity.
    intros E. apply (Hnew "base_PsfFlux_flag_apCorr"%string 8);
      [reflexivity | symmetry; exact E].
Defined.

(** A NaN apCorr passes the test of line 252, where both comparisons are
    false: the flux becomes NaN and the flag is cleared. *)
Lemma nan_apCorr_is_applied :
  column (run task [source_at 0 nan 100 5] apCorrMap []) 0 (instFluxKey psf) = Some nan /\
  flag (run task [source_at 0 nan 100 5] apCorrMap []) 0 (apCorrFlagKey psf) = Some false.
Proof. split; vm_compute; reflexivity. Qed.

(** ** A task, constructed *)

(** The names of the registry: two that the schema measures, one that it
    does not. *)
Definition registry : list string :=
  ["base_PsfFlux"; "base_GaussianFlux"; "base_CircularApertureFlux"]%string.

(** A configuration that ignores the Gaussian flux and two names that
    are not registered. *)
Definition picky : ApplyApCorrConfig :=
  {| ignoreList := ["ext_Unknown"; "base_GaussianFlux"; "ext_Absent"]%string;
     doFlagApCorrFailures := true;
     proxies := [] |}.

(** A schema that has the PSF flux but not its error. *)
Definition broken : Schema :=
  {| fields := [("base_PsfFlux_instFlux"%string, Double);
                ("base_PsfFlux_flag"%string, Flag)];
     aliases := [] |}.

(** What [__init__] leaves. *)
Definition constructed (config_ : ApplyApCorrConfig) (registered : list string)
    (schema : Schema) : ApplyApCorrTask * Schema :=
  match snd (ApplyApCorrTask_init config_ registered schema) with
  | inr x => x
  | inl (_, schema') => ({| config := config_; apCorrInfoDict := [] |}, schema')
  end.

(** The task of the examples above is the one [__init__] builds when only
    the PSF flux is registered. *)
Lemma task_is_constructed :
  fst (constructed (config task) ["base_PsfFlux"%string] schema0) = task.
Proof. reflexivity. Qed.



Lemma constructed_task_applies_correction_witness :
  exists kF kE log' catalog' source',
    find schema0 "base_GaussianFlux_instFlux" = Some kF /\
    find schema0 "base_GaussianFlux_instFluxErr" = Some kE /\
    run task corrected apCorrMap [] = (log', Done catalog') /\
    nth_error catalog' 0 = Some source' /\
    get source' kF = (get (source_at 0 one_point_one 100 5) kF * one_point_one)%float /\
    get source' kE = (get (source_at 0 one_point_one 100 5) kE * one_point_one)%float /\
    getFlag source' (apCorrFlagKey gaussian) = false.
Proof.
  apply (@constructed_task_applies_correction (config task) ["base_PsfFlux"%string]
           schema0 (snd (constructed (config task) ["base_PsfFlux"%string] schema0))
           task "base_GaussianFlux" gaussian corrected apCorrMap [] model errModel 0
           (source_at 0 one_point_one 100 5) one_point_one).
  - reflexivity.
  - reflexivity.
  - simpl. tauto.
  - reflexivity.
  - reflexivity.
  - reflexivity.
  - reflexivity.
  - reflexivity.
Defined.

Lemma ApplyApCorrTask_init_needs_all_fields_witness :
  exists err schema',
    snd (ApplyApCorrTask_init picky registry broken) = inl (err, schema').
Proof.
  apply (@ApplyApCorrTask_init_needs_all_fields picky registry broken "base_PsfFlux").
  - reflexivity.
  - reflexivity.
  - left. split; [simpl; tauto|]. simpl. intros [H|[H|[H|[]]]]; discriminate.
  - left. reflexivity.
Defined.

Lemma run_flags_tell_outcome_witness :
  exists log' catalog' source',
    run task rejected apCorrMap [] = (log', Done catalog') /\
    nth_error catalog' 0 = Some source' /\
    getFlag source' (apCorrFlagKey psf) = true /\
    getFlag source' (fluxFlagKey psf) = true /\
    get source' (instFluxKey psf) = 100%float /\
    get source' (instFluxErrKey psf) = 5%float.
Proof.
  assert (H : Forall (independent psf) ([] ++ [gaussian]) /\ wf_info psf)
    by (split; solve_keys).
  destruct (@run_flags_tell_outcome task rejected apCorrMap [] [] [gaussian] psf
              model errModel 0 (source_at 0 0 100 5)
              eq_refl (proj1 H) (proj2 H) eq_refl eq_refl eq_refl)
    as (log' & catalog' & source' & Hrun & Hn & F1 & F2 & F3 & _).
  destruct (F3 eq_refl) as [F4 F5].
  exists log', catalog', source'. repeat split; assumption.
Defined.

Lemma run_applies_nan_correction_witness :
  exists log' catalog' source',
    run task [source_at 0 nan 100 5] apCorrMap [] = (log', Done catalog') /\
    nth_error catalog' 0 = Some source' /\
    is_nan (get source' (instFluxKey psf)) = true /\
    is_nan (get source' (instFluxErrKey psf)) = true /\
    getFlag source' (apCorrFlagKey psf) = false /\
    getFlag source' (fluxFlagKey psf) = false.
Proof.
  assert (H : Forall (independent psf) ([] ++ [gaussian]) /\ wf_info psf)
    by (split; solve_keys).
  exact (@run_applies_nan_correction task [source_at 0 nan 100 5] apCorrMap [] []
           [gaussian] psf model errModel 0 (source_at 0 nan 100 5) nan
           eq_refl (proj1 H) (proj2 H) eq_refl eq_refl eq_refl eq_refl eq_refl).
Defined.

Lemma complex_mode_divides_by_flux_witness :
  exists source',
    correct_source false (config task) psf model errModel (source_at 0 2 0 5) =
      Raised ZeroDivisionError source' /\
    get source' (instFluxKey psf) = (0 * 2)%float /\
    get source' (instFluxErrKey psf) = 5%float /\
    getFlag source' (apCorrFlagKey psf) = true.
Proof.
  assert (H : Forall (independent psf) ([] ++ [gaussian]) /\ wf_info psf)
    by (split; solve_keys).
  destruct (@complex_mode_divides_by_flux task dark [] apCorrMap [] [] [] [gaussian] psf
              model errModel 0 (source_at 0 2 0 5) 2%float 0%float
              eq_refl (proj1 H) (proj2 H) eq_refl eq_refl eq_refl eq_refl eq_refl
              eq_refl eq_refl) as [Hraise _].
  exact (Hraise eq_refl).
Defined.

Lemma own_columns_are_appended_witness :
  exists info schema',
    ApCorrInfo_init "base_PsfFlux" None schema0 = inr (info, schema') /\
    doApCorrColumn info = true /\
    fields schema' =
      fields schema0 ++ [("base_PsfFlux_apCorr"%string, Double);
                         ("base_PsfFlux_apCorrErr"%string, Double);
                         ("base_PsfFlux_flag_apCorr"%string, Flag)] /\
    find schema' "base_PsfFlux_apCorrErr" = Some (apCorrErrKey info).
Proof.
  destruct (@own_columns_are_appended schema0 "base_PsfFlux" None 0 1 2
              eq_refl eq_refl eq_refl (or_introl eq_refl))
    as (info & schema' & Hinit & Hown & _ & _ & _ & Hf & _ & _ & _ & _ & _ & Hfind).
  exists info, schema'. repeat split; try assumption.
  apply (Hfind "_apCorrErr"%string (apCorrErrKey info)); [simpl; tauto | | ]; reflexivity.
Defined.

Lemma ApCorrInfo_init_raises_witness :
  ApCorrInfo_init "base_PsfFlux" None broken =
    inl (NotFound "base_PsfFlux_instFluxErr", broken) /\
  fields broken = fields broken /\
  find broken "base_PsfFlux_instFluxErr" = None.
Proof.
  split; [reflexivity|].
  destruct (@ApCorrInfo_init_raises "base_PsfFlux" None broken broken
              "base_PsfFlux_instFluxErr" eq_refl) as [Hf [(_ & H & _)|(Hne & _)]].
  - split; [exact Hf | exact H].
  - exfalso. apply Hne. reflexivity.
Defined.

(** The PSF flux and the Gaussian flux, each corrected by its own model;
    the map has the models of the PSF flux only. *)
Definition plain : ApplyApCorrConfig :=
  {| ignoreList := []; doFlagApCorrFailures := true; proxies := [] |}.

Definition both : ApplyApCorrTask :=
  fst (constructed plain ["base_PsfFlux"; "base_GaussianFlux"]%string schema0).

(** Its two fields: the map has both models of the first and neither of the
    second. *)
Definition modelled : ApCorrInfo :=
  snd (nth 0 (apCorrInfoDict both) (""%string, no_info)).

Definition unmodelled : ApCorrInfo :=
  snd (nth 1 (apCorrInfoDict both) (""%string, no_info)).

(** The text of the statistics, for the example: the name of the field
    only. *)
Definition named (apCorrInfo : ApCorrInfo) (catalog : list SourceRecord) : string :=
  ("For instFlux field " ++ name apCorrInfo)%string.

Lemma run_flags_missing_model_witness :
  exists log' catalog',
    run_at true named true both corrected apCorrMap [] = (log', Done catalog') /\
    log' =
      preamble true both ++
      [(DEBUG, "For instFlux field base_PsfFlux"%string);
       (WARN, ("Cannot aperture correct base_GaussianFlux because could not find " ++
               "base_GaussianFlux_instFlux or base_GaussianFlux_instFluxErr " ++
               "in apCorrMap")%string)] /\
    warned log' =
      [(WARN, ("Cannot aperture correct base_GaussianFlux because could not find " ++
               "base_GaussianFlux_instFlux or base_GaussianFlux_instFluxErr " ++
               "in apCorrMap")%string)] /\
    Forall2 (fun source source' =>
               getFlag source' (apCorrFlagKey unmodelled) = true /\
               get source' (instFluxKey unmodelled) = get source (instFluxKey unmodelled) /\
               get source' (instFluxErrKey unmodelled) =
                 get source (instFluxErrKey unmodelled))
            corrected catalog'.
Proof.
  assert (H : Forall (independent unmodelled) ([modelled] ++ [])) by solve_keys.
  destruct (@run_flags_missing_model true named true both corrected apCorrMap []
              [modelled] [] unmodelled eq_refl H (or_introl eq_refl))
    as (_ & Hret & Hres).
  destruct (Hret eq_refl) as (log' & catalog' & Hrun).
  destruct (Hres log' catalog' Hrun) as (Hlog & Hall).
  exists log', catalog'. split; [exact Hrun|]. split; [|split; [exact Hlog | exact Hall]].
  assert (E : fst (run_at true named true both corrected apCorrMap []) = log')
    by (rewrite Hrun; reflexivity).
  rewrite <- E. reflexivity.
Defined.

Lemma run_is_pointwise_witness :
  exists source',
    nth_error (payload (snd (run task (corrected ++ rejected) apCorrMap []))) 1 =
      Some source' /\
    snd (run task [source_at 0 0 100 5] apCorrMap []) = Done [source'].
Proof.
  apply (@run_is_pointwise task (corrected ++ rejected) apCorrMap [] [] 1
           (source_at 0 0 100 5)).
  reflexivity.
Defined.

(** The task of the examples, with its fields in the other order. *)
Definition swapped : ApplyApCorrTask :=
  {| config := config task;
     apCorrInfoDict := [("base_GaussianFlux"%string, gaussian);
                        ("base_PsfFlux"%string, psf)] |}.

Lemma run_does_not_depend_on_field_order_witness :
  Forall2 same_record
    (payload (snd (run task corrected apCorrMap [])))
    (payload (snd (run swapped corrected apCorrMap []))).
Proof.
  apply (@run_does_not_depend_on_field_order task swapped corrected apCorrMap [] []).
  - reflexivity.
  - apply perm_swap.
  - intros a b Ha Hb Hne. simpl in Ha, Hb.
    destruct Ha as [<-|[<-|[]]], Hb as [<-|[<-|[]]];
      try (exfalso; apply Hne; reflexivity); solve_keys.
Defined.

End ApplyApCorr.

(* ================================================================== *)
(** * Part III: forcedPhotCcd.py *)
(* ================================================================== *)

Module ForcedPhotCcd.

Local Open Scope Z_scope.

(** ** fetchReferences *)

(** The footprint of a reference: of it, only the area is asked for. *)
Record Footprint : Type := mkFootprint {
  getArea : nat
}.

(** A call [self.log.warn(format, args...)]. *)
Record LogCall : Type := mkLogCall {
  log_format : string;
  log_args : list Z
}.

Section FetchReferences.

(** A record of the reference catalog, with its id, the id of its parent
    (0 when it has none) and its footprint ([None] when it has none). *)
Variable SourceRecord : Type.
Variable getId : SourceRecord -> Z.
Variable getParent : SourceRecord -> Z.
Variable getFootprint : SourceRecord -> option Footprint.

(** [record.getFootprint() is None or record.getFootprint().getArea() == 0] *)
Definition bad_Footprint (record : SourceRecord) : bool :=
  match getFootprint record with
  | None => true
  | Some footprint => Nat.eqb (getArea footprint) 0
  end.

(** [z in badParents] and [badParents.add(z)] *)
Definition mem (z : Z) (s : list Z) : bool := existsb (Z.eqb z) s.

Definition add (z : Z) (s : list Z) : list Z := if mem z s then s else z :: s.

(** The local variables of [fetchReferences], and the log. *)
Record Locals : Type := mkLocals {
  references : list SourceRecord;
  badParents : list Z;
  log : list LogCall
}.

(** The warning of a record that is skipped (lines 241-245). *)
Definition skipping (record : SourceRecord) : LogCall :=
  if negb (getParent record =? 0) then
    {| log_format := "Skipping reference %s (child of %s) with bad Footprint";
       log_args := [getId record; getParent record] |}
  else
    {| log_format := "Skipping reference parent %s with bad Footprint";
       log_args := [getId record] |}.

(** The body of [for record in unfiltered] (lines 240-248). *)
Definition visit (st : Locals) (record : SourceRecord) : Locals :=
  if bad_Footprint record then
    if negb (getParent record =? 0) then
      {| references := references st;
         badParents := badParents st;
         log := log st ++ [skipping record] |}
    else
      {| references := references st;
         badParents := add (getId record) (badParents st);
         log := log st ++ [skipping record] |}
  else if negb (mem (getParent record) (badParents st)) then
    {| references := references st ++ [record];
       badParents := badParents st;
       log := log st |}
  else st.

(** Modelled from the spec: the catalog-level [sort(byKey)] of the table
    abstraction, here by the parent key: ascending, records with the same
    parent left in the order they had. *)
Definition sort_by_parent (catalog : list SourceRecord) : list SourceRecord :=
  CatalogCalculation.sorted (fun a b => getParent a <=? getParent b) catalog.

(** [fetchReferences(self, dataRef, exposure)], given the catalog that
    [self.references.fetchInBox] returned: the catalog it returns, and what
    it logs. *)
Definition fetchReferences (unfiltered : list SourceRecord)
    : list SourceRecord * list LogCall :=
  let st := fold_left visit unfiltered
              {| references := []; badParents := []; log := [] |} in
  (sort_by_parent (references st), log st).

(** ** What the theorems speak of *)

(** A parent with a bad footprint: what [badParents] collects. *)
Definition bad_parent (p : SourceRecord) : Prop :=
  bad_Footprint p = true /\ getParent p = 0.

(** The record [r] is kept when it comes after the records [pre]: its
    footprint is good, and no record before it is a bad parent with the id
    that [r] has for parent. *)
Definition kept_after (pre : list SourceRecord) (r : SourceRecord) : Prop :=
  bad_Footprint r = false /\
  forall p, In p pre -> ~ (bad_parent p /\ getId p = getParent r).

(** ** The loop *)

Lemma mem_badParents (z : Z) (s : list Z) : mem z s = true <-> In z s.
Proof.
  unfold mem. rewrite existsb_exists. split.
  - intros (y & Hy & E). apply Z.eqb_eq in E. subst y. exact Hy.
  - intros H. exists z. split; [exact H | apply Z.eqb_refl].
Qed.

Lemma In_add (z x : Z) (s : list Z) : In x (add z s) <-> x = z \/ In x s.
Proof.
  unfold add. destruct (mem z s) eqn:E; simpl.
  - apply mem_badParents in E. split; [auto|]. intros [->|H]; assumption.
  - split; intros [H|H]; auto.
Qed.

(** What holds of the local variables after the records [pre]. *)
Definition LoopInv (pre : list SourceRecord) (st : Locals) : Prop :=
  (forall z, In z (badParents st) <-> exists p, In p pre /\ bad_parent p /\ getId p = z) /\
  (forall r, In r (references st) <->
             exists pre1 post1, pre = pre1 ++ r :: post1 /\ kept_after pre1 r) /\
  log st = map skipping (filter bad_Footprint pre) /\
  Forall (fun r => bad_Footprint r = false) (references st).

Lemma snoc_split (A : Type) (pre pre1 post1 : list A) (x r : A) :
  pre ++ [x] = pre1 ++ r :: post1 ->
  (post1 = [] /\ pre1 = pre /\ r = x) \/
  (exists post0, post1 = post0 ++ [x] /\ pre = pre1 ++ r :: post0).
Proof.
  destruct (exists_last (l := r :: post1)) as (l' & y & E); [discriminate|].
  intros H. rewrite E in H. rewrite app_assoc in H.
  apply app_inj_tail in H as [H ->].
  destruct post1 as [|b post1].
  - left. destruct l' as [|c l']; simpl in E.
    + injection E as ->. rewrite app_nil_r in H. auto.
    + injection E as _ E. destruct l'; discriminate.
  - right. destruct l' as [|c l']; simpl in E; [discriminate|].
    injection E as <- E.
    destruct (exists_last (l := b :: post1)) as (l2 & y2 & E2); [discriminate|].
    rewrite E2 in E. apply app_inj_tail in E as [<- <-].
    exists l2. split; [exact E2|]. exact H.
Qed.

Lemma visit_Inv (pre : list SourceRecord) (st : Locals) (x : SourceRecord) :
  LoopInv pre st -> LoopInv (pre ++ [x]) (visit st x).
Proof.
  intros (Hbad & Href & Hlog & Hgood).
  assert (Hold : forall r,
            (exists pre1 post1, pre = pre1 ++ r :: post1 /\ kept_after pre1 r) ->
            exists pre1 post1, pre ++ [x] = pre1 ++ r :: post1 /\ kept_after pre1 r).
  { intros r (pre1 & post1 & -> & Hk). exists pre1, (post1 ++ [x]).
    rewrite <- app_assoc. auto. }
  assert (Hnew : forall r pre1 post1,
            pre ++ [x] = pre1 ++ r :: post1 -> kept_after pre1 r ->
            (pre1 = pre /\ r = x) \/
            (exists pre1 post1, pre = pre1 ++ r :: post1 /\ kept_after pre1 r)).
  { intros r pre1 post1 E Hk.
    destruct (snoc_split _ _ _ _ _ E) as [(_ & -> & ->)|(post0 & _ & ->)]; eauto. }
  unfold visit. destruct (bad_Footprint x) eqn:Ebad.
  - assert (Hlog' : log st ++ [skipping x] =
                    map skipping (filter bad_Footprint (pre ++ [x]))).
    { rewrite filter_app, map_app, Hlog. simpl. rewrite Ebad. reflexivity. }
    assert (Href' : forall r, In r (references st) <->
              exists pre1 post1, pre ++ [x] = pre1 ++ r :: post1 /\ kept_after pre1 r).
    { intros r. rewrite Href. split; [apply Hold|].
      intros (pre1 & post1 & E & Hk).
      destruct (Hnew r pre1 post1 E Hk) as [[_ ->]|H]; [|exact H].
      destruct Hk as [Hk _]. congruence. }
    destruct (getParent x =? 0) eqn:Ep; unfold LoopInv;
      cbn [negb references badParents log].
    + apply Z.eqb_eq in Ep.
      split; [|split; [exact Href' | split; [exact Hlog' | exact Hgood]]].
      intros z. rewrite In_add, Hbad. split.
      * intros [->|(p & Hp & Hb & Hz)].
        -- exists x. split; [apply in_or_app; right; left; reflexivity|].
           split; [split; assumption | reflexivity].
        -- exists p. split; [apply in_or_app; left; exact Hp | auto].
      * intros (p & Hp & Hb & Hz). apply in_app_or in Hp as [Hp|[<-|[]]].
        -- right. eauto.
        -- left. symmetry. exact Hz.
    + apply Z.eqb_neq in Ep.
      split; [|split; [exact Href' | split; [exact Hlog' | exact Hgood]]].
      intros z. rewrite Hbad. split.
      * intros (p & Hp & Hb & Hz). exists p.
        split; [apply in_or_app; left; exact Hp | auto].
      * intros (p & Hp & Hb & Hz). apply in_app_or in Hp as [Hp|[<-|[]]].
        -- eauto.
        -- destruct Hb as [_ Hb]. contradiction.
  - assert (Hlog' : log st = map skipping (filter bad_Footprint (pre ++ [x]))).
    { rewrite filter_app, map_app, Hlog. simpl. rewrite Ebad. simpl.
      rewrite app_nil_r. reflexivity. }
    assert (Hbad' : forall z, In z (badParents st) <->
              exists p, In p (pre ++ [x]) /\ bad_parent p /\ getId p = z).
    { intros z. rewrite Hbad. split.
      - intros (p & Hp & Hb & Hz). exists p.
        split; [apply in_or_app; left; exact Hp | auto].
      - intros (p & Hp & Hb & Hz). apply in_app_or in Hp as [Hp|[<-|[]]].
        + eauto.
        + destruct Hb as [Hb _]. congruence. }
    destruct (mem (getParent x) (badParents st)) eqn:Em; unfold LoopInv;
      cbn [negb references badParents log].
    + apply mem_badParents, Hbad in Em. destruct Em as (p & Hp & Hb & Hz).
      split; [exact Hbad'|]. split; [|split; [exact Hlog' | exact Hgood]].
      intros r. rewrite Href. split; [apply Hold|].
      intros (pre1 & post1 & E & Hk).
      destruct (Hnew r pre1 post1 E Hk) as [[-> ->]|H]; [|exact H].
      exfalso. destruct Hk as [_ Hk]. apply (Hk p Hp). auto.
    + assert (Hnot : ~ In (getParent x) (badParents st)).
      { intros H. apply mem_badParents in H. congruence. }
      split; [exact Hbad'|]. split; [|split; [exact Hlog'|]].
      * intros r. rewrite in_app_iff, Href. split.
        -- intros [H|[<-|[]]]; [apply Hold, H|].
           exists pre, []. split; [reflexivity|]. split; [exact Ebad|].
           intros p Hp [Hb Hz]. apply Hnot, Hbad. eauto.
        -- intros (pre1 & post1 & E & Hk).
           destruct (Hnew r pre1 post1 E Hk) as [[-> ->]|H]; [|left; exact H].
           right. left. reflexivity.
      * apply Forall_app. split; [exact Hgood|]. constructor; [exact Ebad | constructor].
Qed.

Lemma fold_visit_Inv (l pre : list SourceRecord) (st : Locals) :
  LoopInv pre st -> LoopInv (pre ++ l) (fold_left visit l st).
Proof.
  revert pre st. induction l as [|x l IH]; intros pre st H; simpl.
  - rewrite app_nil_r. exact H.
  - replace (pre ++ x :: l) with ((pre ++ [x]) ++ l)
      by (rewrite <- app_assoc; reflexivity).
    apply IH, visit_Inv, H.
Qed.

Lemma loop_Inv (unfiltered : list SourceRecord) :
  LoopInv unfiltered
    (fold_left visit unfiltered {| references := []; badParents := []; log := [] |}).
Proof.
  apply (@fold_visit_Inv unfiltered [] {| references := []; badParents := []; log := [] |}).
  split; [|split; [|split]]; simpl.
  - intros z. split; [tauto|]. intros (p & [] & _).
  - intros r. split; [tauto|]. intros (pre1 & post1 & E & _).
    destruct pre1; discriminate.
  - reflexivity.
  - constructor.
Qed.

Lemma In_sort_by_parent (l : list SourceRecord) (r : SourceRecord) :
  In r (sort_by_parent l) <-> In r l.
Proof. apply CatalogCalculation.sorted_In. Qed.

Lemma sort_by_parent_sorted (l : list SourceRecord) :
  StronglySorted (fun a b => getParent a <= getParent b) (sort_by_parent l).
Proof.
  unfold sort_by_parent.
  pose proof (@CatalogCalculation.sorted_StronglySorted SourceRecord
                (fun a b => getParent a <=? getParent b)) as H.
  assert (Htotal : forall a b : SourceRecord,
            (getParent a <=? getParent b) = true \/ (getParent b <=? getParent a) = true).
  { intros a b. rewrite !Z.leb_le. lia. }
  assert (Htrans : forall a b c : SourceRecord,
            (getParent a <=? getParent b) = true ->
            (getParent b <=? getParent c) = true ->
            (getParent a <=? getParent c) = true).
  { intros a b c. rewrite !Z.leb_le. lia. }
  specialize (H Htotal Htrans l).
  induction H as [|a l' Hs IH Hall]; constructor; [exact IH|].
  eapply Forall_impl; [|exact Hall]. intros b Hb. apply Z.leb_le, Hb.
Qed.

(** X21.  The catalog that [fetchReferences] returns is sorted by parent
    id; each of its records is one of those that were fetched, has a
    footprint, and the area of that footprint is not zero. *)
Theorem fetchReferences_returns_valid_sorted (unfiltered : list SourceRecord) :
  StronglySorted (fun a b => getParent a <= getParent b)
    (fst (fetchReferences unfiltered)) /\
  (forall r, In r (fst (fetchReferences unfiltered)) ->
     In r unfiltered /\
     exists footprint, getFootprint r = Some footprint /\ getArea footprint <> 0%nat).
Proof.
  unfold fetchReferences. simpl. split; [apply sort_by_parent_sorted|].
  intros r Hr. rewrite In_sort_by_parent in Hr.
  destruct (loop_Inv unfiltered) as (_ & Href & _ & _).
  apply Href in Hr as (pre1 & post1 & -> & Hgood & _).
  split; [apply in_or_app; right; left; reflexivity|].
  unfold bad_Footprint in Hgood.
  destruct (getFootprint r) as [footprint|]; [|discriminate].
  exists footprint. split; [reflexivity|]. apply Nat.eqb_neq, Hgood.
Qed.

(** X22.  Which records are returned: exactly those fetched records that
    have a good footprint and that do not come after a parent with a bad
    footprint (a record that is no child itself) whose id is their parent
    id.  A child that comes before its bad parent is returned, and so is the
    child of a child that was skipped. *)
Theorem fetchReferences_keeps (unfiltered : list SourceRecord) (r : SourceRecord) :
  In r (fst (fetchReferences unfiltered)) <->
  exists pre post,
    unfiltered = pre ++ r :: post /\
    bad_Footprint r = false /\
    forall p, In p pre ->
      ~ (bad_Footprint p = true /\ getParent p = 0 /\ getId p = getParent r).
Proof.
  unfold fetchReferences. simpl. rewrite In_sort_by_parent.
  destruct (loop_Inv unfiltered) as (_ & Href & _ & _).
  rewrite Href. unfold kept_after, bad_parent.
  split; intros (pre & post & E & Hg & Hk); exists pre, post;
    (split; [exact E|]); (split; [exact Hg|]); intros p Hp H; apply (Hk p Hp); tauto.
Qed.

(** X23.  The log of [fetchReferences]: one warning for each fetched
    record with a bad footprint, in the order in which they were fetched,
    and nothing else. *)
Theorem fetchReferences_warns_once_per_skip (unfiltered : list SourceRecord) :
  snd (fetchReferences unfiltered) = map skipping (filter bad_Footprint unfiltered).
Proof.
  unfold fetchReferences. simpl.
  destruct (loop_Inv unfiltered) as (_ & _ & Hlog & _). exact Hlog.
Qed.

(** X24.  When every child comes after a record that has the child's
    parent id and is no child itself, and no record has the id 0, the
    guarantee of the docstring holds: every child that is returned has its
    parent returned. *)
Theorem fetchReferences_includes_parents (unfiltered : list SourceRecord)
    (r : SourceRecord) :
  (forall pre c post, unfiltered = pre ++ c :: post -> getParent c <> 0 ->
     exists p, In p pre /\ getId p = getParent c /\ getParent p = 0) ->
  (forall q, In q unfiltered -> getId q <> 0) ->
  In r (fst (fetchReferences unfiltered)) ->
  getParent r <> 0 ->
  exists p, In p (fst (fetchReferences unfiltered)) /\ getId p = getParent r.
Proof.
  intros Hparents Hids Hr Hchild.
  unfold fetchReferences in *. simpl in *. rewrite In_sort_by_parent in Hr.
  destruct (loop_Inv unfiltered) as (_ & Href & _ & _).
  apply Href in Hr as (pre1 & post1 & E & Hgood & Hk).
  destruct (Hparents pre1 r post1 E Hchild) as (p & Hp & Hid & Htop).
  exists p. split; [|exact Hid].
  apply In_sort_by_parent, Href.
  apply in_split in Hp as (a & b & ->).
  exists a, (b ++ r :: post1). split; [rewrite E, <- app_assoc; reflexivity|].
  split.
  - destruct (bad_Footprint p) eqn:Eb; [|reflexivity].
    exfalso. apply (Hk p); [apply in_or_app; right; left; reflexivity|].
    split; [split; assumption | exact Hid].
  - intros q Hq [_ Hz]. rewrite Htop in Hz.
    apply (Hids q); [|exact Hz].
    rewrite E, <- app_assoc. apply in_or_app. left. exact Hq.
Qed.

End FetchReferences.

(** ** A small reference catalog *)

(** A record: its id, the id of its parent, the area of its footprint if
    it has one. *)
Definition Reference : Type := (Z * Z * option nat)%type.

Definition id_of (r : Reference) : Z := fst (fst r).

Definition parent_of (r : Reference) : Z := snd (fst r).

Definition footprint_of (r : Reference) : option Footprint :=
  option_map mkFootprint (snd r).

(** A parent and its child, then a parent without a footprint and its
    child. *)
Definition fetched : list Reference :=
  [(1, 0, Some 10%nat); (2, 1, Some 3%nat); (3, 0, None); (4, 3, Some 2%nat)].

Lemma fetched_is_filtered :
  fetchReferences id_of parent_of footprint_of fetched =
    ([(1, 0, Some 10%nat); (2, 1, Some 3%nat)],
     [{| log_format := "Skipping reference parent %s with bad Footprint";
         log_args := [3] |}]).
Proof. reflexivity. Qed.

(** A child that is fetched before its parent is kept though the parent
    has no footprint; and so is the child of a child that was skipped. *)
Lemma orphans_are_kept :
  fetchReferences id_of parent_of footprint_of [(2, 1, Some 3%nat); (1, 0, None)] =
    ([(2, 1, Some 3%nat)],
     [{| log_format := "Skipping reference parent %s with bad Footprint";
         log_args := [1] |}]) /\
  fetchReferences id_of parent_of footprint_of
    [(1, 0, Some 9%nat); (2, 1, Some 0%nat); (3, 2, Some 4%nat)] =
    ([(1, 0, Some 9%nat); (3, 2, Some 4%nat)],
     [{| log_format := "Skipping reference %s (child of %s) with bad Footprint";
         log_args := [2; 1] |}]).
Proof. split; reflexivity. Qed.

Lemma fetchReferences_includes_parents_witness :
  exists p,
    In p (fst (fetchReferences id_of parent_of footprint_of fetched)) /\
    id_of p = parent_of (2, 1, Some 3%nat).
Proof.
  apply (@fetchReferences_includes_parents Reference id_of parent_of footprint_of
           fetched (2, 1, Some 3%nat)).
  - intros pre c post E Hc.
    destruct pre as [|a pre]; [injection E as <- _; contradiction|].
    injection E as <- E.
    destruct pre as [|a pre];
      [injection E as <- _; exists (1, 0, Some 10%nat); simpl; auto|].
    injection E as <- E.
    destruct pre as [|a pre]; [injection E as <- _; contradiction|].
    injection E as <- E.
    destruct pre as [|a pre];
      [injection E as <- _; exists (3, 0, None); simpl; auto|].
    injection E as <- E. destruct pre; discriminate.
  - intros q Hq. simpl in Hq.
    repeat (destruct Hq as [<-|Hq]; [discriminate|]). destruct Hq.
  - simpl. auto.
  - discriminate.
Defined.

End ForcedPhotCcd.
